(** * Route planner (app.py): a shallow embedding and its properties

    The development follows [src/app.py] function by function:
    [haversine_distance], [get_distance_osrm], [get_route_geometry_osrm],
    [build_distance_matrix], the class [Graph], [dijkstra], [prim_mst],
    [dfs_traversal], [plan_route] and [plan_route_endpoint].

    Modelling conventions.
    - A Python [float] is idealised as a real number ([R]); the literal
      [float('inf')], used only as the initial value of running minima and
      tentative distances, is the extra point [Inf] of the type [dist].
    - A vertex is a [nat] (the code produces them with [range]).
    - A Python exception is the [Raise] outcome of the type [result].
      Loops and the recursive [dfs] are written with fuel; the outcome
      [OutOfFuel] stands for a run that would not end and is shown never to
      happen where a claim needs a result.
    - A [dict] is a [gmap], a [set] is a [gset]; iterating a [gset] uses
      stdpp's [elements], whose order is as unspecified as Python's.
    - The routing service is a parameter [net]: the reply to the k-th HTTP
      request of a run. Functions that call it thread the request counter.
    - Limits of the interpreter (the recursion limit, memory) and the
      [print] calls are left out. *)

From Stdlib Require Import Reals Lra Lia.
From stdpp Require Import gmap strings list fin_maps relations.

Set Warnings "-register-all,-clear-no-such-hyp".

(* ===================================================================== *)
(** * Part I: the program *)
(* ===================================================================== *)

(** ** Python outcomes *)

Inductive exn :=
  | KeyError | IndexError | TypeError | AttributeError
  | RequestException | JSONDecodeError.

Inductive result (A : Type) :=
  | Ok (a : A)
  | Raise (e : exn)
  | OutOfFuel.
Arguments Ok {A} a.
Arguments Raise {A} e.
Arguments OutOfFuel {A}.

#[global] Instance result_ret : MRet result := λ A a, Ok a.
#[global] Instance result_bind : MBind result := λ A B f m,
  match m with
  | Ok a => f a
  | Raise e => Raise e
  | OutOfFuel => OutOfFuel
  end.

(** [for x in l: st = body st x], stopping at the first exception. *)
Fixpoint for_each {St A : Type} (body : St → A → result St) (st : St)
    (l : list A) : result St :=
  match l with
  | [] => Ok st
  | x :: l' => st' ← body st x; for_each body st' l'
  end.

(** [l[i]] on a list: [IndexError] out of range. *)
Definition py_index {A : Type} (l : list A) (i : nat) : result A :=
  match l !! i with
  | Some x => Ok x
  | None => Raise IndexError
  end.

(** [d[k]] on a dict: [KeyError] when the key is absent. *)
Definition py_key {A : Type} (d : gmap nat A) (k : nat) : result A :=
  match d !! k with
  | Some x => Ok x
  | None => Raise KeyError
  end.

(** ** Floats *)

#[global] Instance Rlt_decision (x y : R) : Decision (x < y)%R := Rlt_dec x y.

(** A float that may be [float('inf')]. *)
Inductive dist :=
  | Fin (d : R)
  | Inf.

(** [a < b] on floats. *)
Definition dist_ltb (a b : dist) : bool :=
  match a, b with
  | Fin x, Fin y => bool_decide (x < y)%R
  | Fin _, Inf => true
  | Inf, _ => false
  end.

(** [a + b] on floats. *)
Definition dist_add (a b : dist) : dist :=
  match a, b with
  | Fin x, Fin y => Fin (x + y)
  | _, _ => Inf
  end.

(** [math.radians]. *)
Definition radians (deg : R) : R := (deg * PI / 180)%R.

(** [round(x, 2)] on a real: the nearest multiple of 0.01, a tie going to the
    even one. *)
Definition round_half_even (y : R) : Z :=
  let f := Int_part y in
  let r := frac_part y in
  if bool_decide (r < 1 / 2)%R then f
  else if bool_decide (1 / 2 < r)%R then (f + 1)%Z
  else if Z.even f then f else (f + 1)%Z.

Definition round2 (x : dist) : dist :=
  match x with
  | Fin r => Fin (IZR (round_half_even (r * 100)) / 100)
  | Inf => Inf
  end.

(** ** haversine_distance *)

(** The term [a] of the formula. On real numbers it lies in [[0, 1]]
    (lemma [haversine_a_range] below), so [math.sqrt] and [math.asin] are
    always called inside their domain and raise nothing. *)
Definition haversine_a (lat1 lon1 lat2 lon2 : R) : R :=
  let dlat := radians (lat2 - lat1) in
  let dlon := radians (lon2 - lon1) in
  ((sin (dlat / 2)) ^ 2 +
   cos (radians lat1) * cos (radians lat2) * (sin (dlon / 2)) ^ 2)%R.

Definition haversine_distance (lat1 lon1 lat2 lon2 : R) : R :=
  let R_earth := 6371%R in
  let a := haversine_a lat1 lon1 lat2 lon2 in
  let c := (2 * asin (sqrt a))%R in
  (R_earth * c)%R.

(** ** The routing service and its JSON replies *)

(** The value [response.json()] returns: a parsed JSON document as the
    Python object it becomes (an object is a dict, given by its items). *)
Inductive json :=
  | JNull
  | JBool (b : bool)
  | JNum (x : R)
  | JStr (s : string)
  | JArr (items : list json)
  | JObj (fields : list (string * json)).

(** What one [requests.get] gives: an exception (connection error, timeout),
    or a response with its status code and its body; body [None] is a body
    that [response.json()] cannot parse. *)
Inductive http_reply :=
  | RequestFails
  | Response (status_code : Z) (body : option json).

Fixpoint dict_get (fields : list (string * json)) (k : string) : option json :=
  match fields with
  | [] => None
  | (k', v) :: rest => if bool_decide (k' = k) then Some v else dict_get rest k
  end.

(** [data.get(k)] *)
Definition py_get (data : json) (k : string) : result json :=
  match data with
  | JObj fields => Ok (default JNull (dict_get fields k))
  | _ => Raise AttributeError
  end.

(** [data.get(k, [])] *)
Definition py_get_list (data : json) (k : string) : result json :=
  match data with
  | JObj fields => Ok (default (JArr []) (dict_get fields k))
  | _ => Raise AttributeError
  end.

(** [v == s] for a string literal [s]. *)
Definition py_eq_str (v : json) (s : string) : bool :=
  match v with
  | JStr t => bool_decide (t = s)
  | _ => false
  end.

(** [len(v)] *)
Definition py_len (v : json) : result nat :=
  match v with
  | JArr items => Ok (length items)
  | JStr s => Ok (String.length s)
  | JObj fields => Ok (length fields)
  | _ => Raise TypeError
  end.

(** The characters of a string, each a string of length one. *)
Fixpoint chars (s : string) : list json :=
  match s with
  | EmptyString => []
  | String c s' => JStr (String c EmptyString) :: chars s'
  end.

(** [v[i]] for an integer [i]. *)
Definition py_item (v : json) (i : nat) : result json :=
  match v with
  | JArr items => py_index items i
  | JStr s => py_index (chars s) i
  | JObj _ => Raise KeyError
  | _ => Raise TypeError
  end.

(** [v[k]] for a string literal [k]. *)
Definition py_field (v : json) (k : string) : result json :=
  match v with
  | JObj fields =>
      match dict_get fields k with
      | Some x => Ok x
      | None => Raise KeyError
      end
  | _ => Raise TypeError
  end.

(** [v / 1000]; a Python bool divides as the integer 0 or 1. *)
Definition py_div_1000 (v : json) : result R :=
  match v with
  | JNum x => Ok (x / 1000)%R
  | JBool b => Ok ((if b then 1 else 0) / 1000)%R
  | _ => Raise TypeError
  end.

(** [for coord in v]: the values iterated over. *)
Definition py_iter (v : json) : result (list json) :=
  match v with
  | JArr items => Ok items
  | JStr s => Ok (chars s)
  | JObj fields => Ok ((λ kv, JStr kv.1) <$> fields)
  | _ => Raise TypeError
  end.

(** ** get_distance_osrm *)

(** The body of the [try]: [Ok (Some d)] when it returns [d], [Ok None]
    when it runs to its end, [Raise e] when it raises. *)
Definition distance_try (reply : http_reply) : result (option R) :=
  match reply with
  | RequestFails => Raise RequestException
  | Response status_code body =>
      if bool_decide (status_code = 200%Z) then
        data ← match body with
               | Some d => Ok d
               | None => Raise JSONDecodeError
               end;
        code ← py_get data "code";
        if py_eq_str code "Ok" then
          routes ← py_get_list data "routes";
          n ← py_len routes;
          if bool_decide (0 < n) then
            routes' ← py_field data "routes";
            route ← py_item routes' 0;
            distance ← py_field route "distance";
            km ← py_div_1000 distance;
            Ok (Some km)
          else Ok None
        else Ok None
      else Ok None
  end.

(** The k-th request of the run gets the reply [net k]; the function returns
    its value and the next request number. *)
Definition get_distance_osrm (net : nat → http_reply) (k : nat)
    (lat1 lon1 lat2 lon2 : R) : R * nat :=
  match distance_try (net k) with
  | Ok (Some km) => (km, S k)
  | _ => (haversine_distance lat1 lon1 lat2 lon2, S k)
  end.

(** ** get_route_geometry_osrm *)

(** [[coord[1], coord[0]]] *)
Definition swap_coord (coord : json) : result (list json) :=
  c1 ← py_item coord 1;
  c0 ← py_item coord 0;
  Ok [c1; c0].

Definition geometry_try (reply : http_reply) : result (option (list (list json))) :=
  match reply with
  | RequestFails => Raise RequestException
  | Response status_code body =>
      if bool_decide (status_code = 200%Z) then
        data ← match body with
               | Some d => Ok d
               | None => Raise JSONDecodeError
               end;
        code ← py_get data "code";
        if py_eq_str code "Ok" then
          routes ← py_get_list data "routes";
          n ← py_len routes;
          if bool_decide (0 < n) then
            routes' ← py_field data "routes";
            route ← py_item routes' 0;
            geom ← py_field route "geometry";
            geometry ← py_field geom "coordinates";
            coords ← py_iter geometry;
            swapped ← for_each (λ acc coord, c ← swap_coord coord; Ok (acc ++ [c]))
                        [] coords;
            Ok (Some swapped)
          else Ok None
        else Ok None
      else Ok None
  end.

Definition straight_line (lat1 lon1 lat2 lon2 : R) : list (list json) :=
  [[JNum lat1; JNum lon1]; [JNum lat2; JNum lon2]].

Definition get_route_geometry_osrm (net : nat → http_reply) (k : nat)
    (lat1 lon1 lat2 lon2 : R) : list (list json) * nat :=
  match geometry_try (net k) with
  | Ok (Some g) => (g, S k)
  | _ => (straight_line lat1 lon1 lat2 lon2, S k)
  end.

(** ** build_distance_matrix *)

Definition Point : Type := R * R.

(** [l[i] = x] on a list: [IndexError] out of range. *)
Definition py_set {A : Type} (l : list A) (i : nat) (x : A) : result (list A) :=
  if bool_decide (i < length l) then Ok (<[i := x]> l) else Raise IndexError.

(** [matrix[i][j] = x]: the row object [matrix[i]] is updated in place. *)
Definition matrix_set (matrix : list (list R)) (i j : nat) (x : R)
  : result (list (list R)) :=
  row ← py_index matrix i;
  row' ← py_set row j x;
  Ok (<[i := row']> matrix).

(** The body of the inner loop, for one pair [i < j]. The state is the
    matrix and the number of the next HTTP request. *)
Definition matrix_pair (net : nat → http_reply) (coords : list Point) (i : nat)
    (st : list (list R) * nat) (j : nat) : result (list (list R) * nat) :=
  let '(matrix, k) := st in
  '(lat1, lon1) ← py_index coords i;
  '(lat2, lon2) ← py_index coords j;
  let '(distance, k') := get_distance_osrm net k lat1 lon1 lat2 lon2 in
  matrix ← matrix_set matrix i j distance;
  matrix ← matrix_set matrix j i distance;
  Ok (matrix, k').

Definition build_distance_matrix (net : nat → http_reply) (k : nat)
    (coords : list Point) : result (list (list R) * nat) :=
  let n := length coords in
  let matrix := replicate n (replicate n 0%R) in
  for_each (λ st i, for_each (matrix_pair net coords i) st (seq (i + 1) (n - (i + 1))))
    (matrix, k) (seq 0 n).

(** ** class Graph *)

Record Graph := {
  num_vertices : nat;
  adj : gmap nat (list (nat * R));
}.

(** [Graph(num_vertices)]: [adj = {i: [] for i in range(num_vertices)}]. *)
Definition Graph_init (n : nat) : Graph :=
  {| num_vertices := n;
     adj := list_to_map ((λ i, (i, [])) <$> seq 0 n) |}.

Definition add_edge (g : Graph) (u v : nat) (weight : R) : result Graph :=
  nbrs_u ← py_key (adj g) u;
  let adj1 := <[u := nbrs_u ++ [(v, weight)]]> (adj g) in
  nbrs_v ← py_key adj1 v;
  Ok {| num_vertices := num_vertices g;
        adj := <[v := nbrs_v ++ [(u, weight)]]> adj1 |}.

Definition get_neighbors (g : Graph) (u : nat) : result (list (nat * R)) :=
  py_key (adj g) u.

(** ** dijkstra *)

(** The [for i in range(n)] scan for the unvisited vertex of least tentative
    distance; the state is [(u, min_dist)]. *)
Definition select_min (n : nat) (distances : list dist) (visited : gset nat)
  : result (option nat * dist) :=
  for_each (λ '(u, min_dist) i,
      if bool_decide (i ∉ visited) then
        d ← py_index distances i;
        if dist_ltb d min_dist then Ok (Some i, d) else Ok (u, min_dist)
      else Ok (u, min_dist))
    (None, Inf) (seq 0 n).

(** The body of [for v, weight in graph.get_neighbors(u)]; the state is
    [(distances, previous)]. *)
Definition relax (u : nat) (visited : gset nat)
    (st : list dist * list (option nat)) (e : nat * R)
  : result (list dist * list (option nat)) :=
  let '(distances, previous) := st in
  let '(v, weight) := e in
  if bool_decide (v ∉ visited) then
    du ← py_index distances u;
    let alt := dist_add du (Fin weight) in
    dv ← py_index distances v;
    if dist_ltb alt dv then
      distances ← py_set distances v alt;
      previous ← py_set previous v (Some u);
      Ok (distances, previous)
    else Ok st
  else Ok st.

(** The [while len(visited) < graph.num_vertices] loop. *)
Fixpoint dijkstra_loop (fuel : nat) (g : Graph) (end_ : nat)
    (distances : list dist) (previous : list (option nat)) (visited : gset nat)
  : result (list dist * list (option nat)) :=
  match fuel with
  | 0 => OutOfFuel
  | S fuel' =>
      if bool_decide (size visited < num_vertices g) then
        '(u, _) ← select_min (num_vertices g) distances visited;
        match u with
        | None => Ok (distances, previous)
        | Some u =>
            if bool_decide (u = end_) then Ok (distances, previous)
            else
              let visited := {[u]} ∪ visited in
              nbrs ← get_neighbors g u;
              '(distances, previous) ←
                for_each (relax u visited) (distances, previous) nbrs;
              dijkstra_loop fuel' g end_ distances previous visited
        end
      else Ok (distances, previous)
  end.

(** The [while u is not None] loop that rebuilds the path. *)
Fixpoint reconstruct (fuel : nat) (previous : list (option nat))
    (u : option nat) (path : list nat) : result (list nat) :=
  match u with
  | None => Ok path
  | Some u =>
      match fuel with
      | 0 => OutOfFuel
      | S fuel' =>
          p ← py_index previous u;
          reconstruct fuel' previous p (u :: path)
      end
  end.

Definition dijkstra (g : Graph) (start end_ : nat) : result (list nat * dist) :=
  let n := num_vertices g in
  let distances := replicate n Inf in
  let previous := replicate n (@None nat) in
  distances ← py_set distances start (Fin 0);
  '(distances, previous) ← dijkstra_loop (S n) g end_ distances previous ∅;
  path ← reconstruct (S n) previous (Some end_) [];
  d ← py_index distances end_;
  Ok (path, d).

(** ** prim_mst *)

(** The two nested [for] loops that look for the lightest edge from a visited
    vertex to an unvisited one; the state is [(min_edge, min_weight)]. *)
Definition prim_scan (g : Graph) (visited : gset nat)
  : result (option (nat * nat) * dist) :=
  for_each (λ st u,
      nbrs ← get_neighbors g u;
      for_each (λ '(min_edge, min_weight) '(v, weight),
          if bool_decide (v ∉ visited) && dist_ltb (Fin weight) min_weight
          then Ok (Some (u, v), Fin weight)
          else Ok (min_edge, min_weight))
        st nbrs)
    (None, Inf) (elements visited).

(** The [while len(visited) < n] loop. *)
Fixpoint prim_loop (fuel : nat) (g : Graph) (visited : gset nat)
    (mst_edges : list (nat * nat)) : result (list (nat * nat)) :=
  match fuel with
  | 0 => OutOfFuel
  | S fuel' =>
      if bool_decide (size visited < num_vertices g) then
        '(min_edge, _) ← prim_scan g visited;
        match min_edge with
        | None => Ok mst_edges
        | Some (u, v) =>
            prim_loop fuel' g ({[v]} ∪ visited) (mst_edges ++ [(u, v)])
        end
      else Ok mst_edges
  end.

Definition prim_mst (g : Graph) : result (list (nat * nat)) :=
  prim_loop (S (num_vertices g)) g {[0]} [].

(** ** dfs_traversal *)

(** [adj = {i: [] for i in range(len(mst_edges) + 1)}], then both directions
    of every edge appended. *)
Definition dfs_adj (mst_edges : list (nat * nat)) : result (gmap nat (list nat)) :=
  for_each (λ adj '(u, v),
      nbrs_u ← py_key adj u;
      let adj := <[u := nbrs_u ++ [v]]> adj in
      nbrs_v ← py_key adj v;
      Ok (<[v := nbrs_v ++ [u]]> adj))
    (list_to_map ((λ i, (i, [])) <$> seq 0 (length mst_edges + 1)))
    mst_edges.

(** The inner function [dfs]; the state is [(visited, traversal_order)]. *)
Fixpoint dfs (fuel : nat) (adj : gmap nat (list nat)) (st : gset nat * list nat)
    (u : nat) : result (gset nat * list nat) :=
  match fuel with
  | 0 => OutOfFuel
  | S fuel' =>
      let '(visited, traversal_order) := st in
      if bool_decide (u ∈ visited) then Ok st
      else
        let st := ({[u]} ∪ visited, traversal_order ++ [u]) in
        nbrs ← py_key adj u;
        for_each (dfs fuel' adj) st nbrs
  end.

Definition dfs_traversal (mst_edges : list (nat * nat)) (start : nat)
  : result (list nat) :=
  adj ← dfs_adj mst_edges;
  '(_, traversal_order) ← dfs (length mst_edges + 2) adj (∅, []) start;
  Ok traversal_order.

(** ** plan_route *)

Record RoutePlan := {
  visiting_order : list nat;
  route_coords : list Point;
  total_distance : dist;
  road_segments : list (list (list json));
}.

(** Step 2: the complete graph of the distance matrix. *)
Definition build_graph (n : nat) (distance_matrix : list (list R)) : result Graph :=
  for_each (λ g i,
      for_each (λ g j,
          if bool_decide (i ≠ j) then
            row ← py_index distance_matrix i;
            w ← py_index row j;
            add_edge g i j w
          else Ok g)
        g (seq 0 n))
    (Graph_init n) (seq 0 n).

(** Step 5, one round of the loop; the state is
    [(total_distance, route_coords)]. *)
Definition cost_step (coords : list Point) (graph : Graph)
    (visiting_order : list nat) (st : dist * list Point) (i : nat)
  : result (dist * list Point) :=
  let '(total, route) := st in
  current ← py_index visiting_order i;
  p ← py_index coords current;
  let route := route ++ [p] in
  if bool_decide (i < length visiting_order - 1) then
    next_node ← py_index visiting_order (i + 1);
    '(_, d) ← dijkstra graph current next_node;
    Ok (dist_add total d, route)
  else Ok (total, route).

(** Step 6, one round of the loop; the state is [(road_segments, k)]. *)
Definition segment_step (net : nat → http_reply) (coords : list Point)
    (visiting_order : list nat) (st : list (list (list json)) * nat) (i : nat)
  : result (list (list (list json)) * nat) :=
  let '(segments, k) := st in
  current_idx ← py_index visiting_order i;
  next_idx ← py_index visiting_order (i + 1);
  '(lat1, lon1) ← py_index coords current_idx;
  '(lat2, lon2) ← py_index coords next_idx;
  let '(segment_geometry, k') := get_route_geometry_osrm net k lat1 lon1 lat2 lon2 in
  Ok (segments ++ [segment_geometry], k').

(** Steps 3 to 6: everything [plan_route] does once it has the graph. *)
Definition plan_steps (net : nat → http_reply) (k : nat) (coords : list Point)
    (graph : Graph) : result RoutePlan :=
  mst_edges ← prim_mst graph;
  visiting_order ← dfs_traversal mst_edges 0;
  '(total, route) ←
    for_each (cost_step coords graph visiting_order) (Fin 0, [])
      (seq 0 (length visiting_order));
  '(segments, _) ←
    for_each (segment_step net coords visiting_order) ([], k)
      (seq 0 (length visiting_order - 1));
  Ok {| visiting_order := visiting_order;
        route_coords := route;
        total_distance := round2 total;
        road_segments := segments |}.

Definition plan_route (net : nat → http_reply) (coords : list Point)
  : result RoutePlan :=
  if bool_decide (length coords < 2) then
    p0 ← py_index coords 0;
    Ok {| visiting_order := [0];
          route_coords := [p0];
          total_distance := Fin 0;
          road_segments := [] |}
  else
    '(distance_matrix, k) ← build_distance_matrix net 0 coords;
    graph ← build_graph (length coords) distance_matrix;
    plan_steps net k coords graph.

(** ** plan_route_endpoint *)



(* ===================================================================== *)
(** * Part II: the vocabulary of the properties *)
(* ===================================================================== *)

(** ** The routing service: when the primary path fails *)


(** A JSON value with items at the positions 0 and 1. *)
Definition has_two_items (v : json) : Prop :=
  match v with
  | JArr items => 2 ≤ length items
  | JStr s => 2 ≤ String.length s
  | _ => False
  end.

(** [route] is the first route of a reply whose code is Ok. *)
Definition first_route (data route : json) : Prop :=
  ∃ fields rest,
    data = JObj fields ∧
    dict_get fields "code" = Some (JStr "Ok") ∧
    dict_get fields "routes" = Some (JArr (route :: rest)).


(** Route data that carry a geometry: a sequence of coordinates, each with
    two items at least. *)
Definition geometry_data_ok (data : json) : Prop :=
  ∃ fields gfields coordinates items,
    first_route data (JObj fields) ∧
    dict_get fields "geometry" = Some (JObj gfields) ∧
    dict_get gfields "coordinates" = Some coordinates ∧
    py_iter coordinates = Ok items ∧
    Forall has_two_items items.

(** The failures of the primary path: the request raises (network error,
    timeout), the status is not 200, the body is not JSON, or the route data
    are absent or malformed. *)
Inductive primary_failure (data_ok : json → Prop) : http_reply → Prop :=
  | failure_exception :
      primary_failure data_ok RequestFails
  | failure_status status_code body :
      status_code ≠ 200%Z → primary_failure data_ok (Response status_code body)
  | failure_body status_code :
      primary_failure data_ok (Response status_code None)
  | failure_data status_code data :
      ¬ data_ok data → primary_failure data_ok (Response status_code (Some data)).

(** ** Points on the globe *)

(** Latitude in [[-90, 90]] and longitude in [[-180, 180]], in degrees. *)
Definition valid_point (lat lon : R) : Prop :=
  (-90 <= lat <= 90)%R ∧ (-180 <= lon <= 180)%R.

(** ** Distance matrices *)

(** [matrix[i][j]], when both indices are in range. *)
Definition entry (matrix : list (list R)) (i j : nat) : option R :=
  row ← matrix !! i; row !! j.

(** An n-by-n matrix. *)
Definition square (n : nat) (matrix : list (list R)) : Prop :=
  length matrix = n ∧ Forall (λ row, length row = n) matrix.





(** ** Graphs *)

(** The invariant of the class [Graph]: the keys of [adj] are the vertices
    [0 .. num_vertices - 1] and every neighbour is one of them. Every graph
    made by [Graph(n)] and [add_edge] has it. *)
Definition wf_graph (g : Graph) : Prop :=
  (∀ u, is_Some (adj g !! u) ↔ u < num_vertices g) ∧
  (∀ u nbrs v w, adj g !! u = Some nbrs → (v, w) ∈ nbrs → v < num_vertices g).

(** [(v, w)] is in the neighbour list of [u]. *)
Definition edge_in (g : Graph) (u v : nat) (w : R) : Prop :=
  ∃ nbrs, adj g !! u = Some nbrs ∧ (v, w) ∈ nbrs.

(** [g] has an edge from [u] to [v]. *)
Definition has_edge (g : Graph) (u v : nat) : Prop :=
  ∃ w, edge_in g u v w.

(** An edge of [g] from a visited vertex to an unvisited one. *)
Definition crossing (g : Graph) (visited : gset nat) (u v : nat) : Prop :=
  u ∈ visited ∧ (v ∉ visited) ∧ has_edge g u v.

(** The states the loop of [prim_mst] goes through: it starts from
    [({0}, [])] and every round appends an edge from a visited vertex to a
    vertex that was not visited before, which it marks visited. *)
Inductive prim_trace (g : Graph) : gset nat → list (nat * nat) → Prop :=
  | prim_trace_start : prim_trace g {[0]} []
  | prim_trace_round visited mst_edges u v :
      prim_trace g visited mst_edges →
      crossing g visited u v →
      prim_trace g ({[v]} ∪ visited) (mst_edges ++ [(u, v)]).

(** The edges of the graph after step 2 of [plan_route] has handled the
    pairs [(i, j)] with [done_ i j]: the entries of the matrix at those
    pairs, off the diagonal, each in both directions. *)
Definition graph_inv (n : nat) (matrix : list (list R))
    (done_ : nat → nat → Prop) (g : Graph) : Prop :=
  wf_graph g ∧ num_vertices g = n ∧
  ∀ a b x, edge_in g a b x ↔
    a ≠ b ∧ ((done_ a b ∧ entry matrix a b = Some x) ∨
             (done_ b a ∧ entry matrix b a = Some x)).

(** ** Edge lists as undirected graphs *)

(** Some edge of the list joins [a] and [b], in either direction. *)
Definition adjacent (edges : list (nat * nat)) (a b : nat) : Prop :=
  (a, b) ∈ edges ∨ (b, a) ∈ edges.

(** [a] and [b] are joined by a walk along the edges. *)
Definition connected (edges : list (nat * nat)) : nat → nat → Prop :=
  rtc (adjacent edges).

(** No edge closes a cycle: the ends of every edge are not connected by the
    other edges. (This rules out loops and parallel edges too.) *)
Definition acyclic (edges : list (nat * nat)) : Prop :=
  ∀ i u v, edges !! i = Some (u, v) → ¬ connected (delete i edges) u v.

(** [x] is an end of some edge. *)
Definition endpoint (edges : list (nat * nat)) (x : nat) : Prop :=
  ∃ y, adjacent edges x y.

(** ** Metric matrices *)

Definition symmetric_matrix (matrix : list (list R)) : Prop :=
  ∀ i j, entry matrix i j = entry matrix j i.

Definition zero_diagonal (n : nat) (matrix : list (list R)) : Prop :=
  ∀ i, i < n → entry matrix i i = Some 0%R.

(** [matrix[i][j] <= matrix[i][k] + matrix[k][j]] *)
Definition triangle_inequality (matrix : list (list R)) : Prop :=
  ∀ i j k x y z,
    entry matrix i j = Some x → entry matrix i k = Some y →
    entry matrix k j = Some z → (x <= y + z)%R.

(** The state of [dijkstra] from [s] once the edges of [s] are relaxed:
    every other vertex holds its direct distance and [s] as predecessor. *)
Definition settled (matrix : list (list R)) (s : nat)
    (distances : list dist) (previous : list (option nat)) (v : nat) : Prop :=
  ∃ x, entry matrix s v = Some x ∧
       distances !! v = Some (Fin x) ∧ previous !! v = Some (Some s).

Definition untouched (distances : list dist) (previous : list (option nat))
    (v : nat) : Prop :=
  distances !! v = Some Inf ∧ previous !! v = Some None.

(** ** Trees given as edge lists *)

(** An edge list with [n - 1] edges that connects the vertices
    [0 .. n - 1]: a tree on them. *)
Definition tree_on (n : nat) (edges : list (nat * nat)) : Prop :=
  length edges + 1 = n ∧
  (∀ a b, (a, b) ∈ edges → a < n ∧ b < n) ∧
  (∀ v, v < n → connected edges 0 v).

(** The adjacency dict of [dfs_traversal] after the edges [edges]: keys
    [0 .. n - 1], and under each key the vertices adjacent to it. *)
Definition dfs_adj_inv (n : nat) (edges : list (nat * nat))
    (adj : gmap nat (list nat)) : Prop :=
  (∀ u, is_Some (adj !! u) ↔ u < n) ∧
  (∀ u nbrs, adj !! u = Some nbrs → ∀ v, v ∈ nbrs ↔ adjacent edges u v).

(** What a call of [dfs] (or a run of calls) does to the state
    [(visited, traversal_order)]: it appends the newly visited vertices,
    each once, and every vertex it visits has all its neighbours visited
    at the end. *)
Definition dfs_post (n : nat) (edges : list (nat * nat))
    (st st' : gset nat * list nat) : Prop :=
  st.1 ⊆ st'.1 ∧
  (∀ x, x ∈ st'.1 → x ∈ st.1 ∨ x < n) ∧
  ∃ new, st'.2 = st.2 ++ new ∧ NoDup new ∧
         (∀ x, x ∈ new ↔ x ∈ st'.1 ∧ x ∉ st.1) ∧
         (∀ x y, x ∈ st'.1 → x ∉ st.1 → adjacent edges x y → y ∈ st'.1).

(** ** Sample inputs *)

(** The complete graph on three vertices with weights [a] (0-1), [b] (0-2),
    [c] (1-2), as step 2 of [plan_route] builds it. *)
Definition triangle_graph (a b c : R) : Graph :=
  {| num_vertices := 3;
     adj := list_to_map
       [(0, [(1, a); (2, b); (1, a); (2, b)]);
        (1, [(0, a); (0, a); (2, c); (2, c)]);
        (2, [(0, b); (1, c); (0, b); (1, c)])] |}.

Definition detour_matrix : list (list R) :=
  [[0; 10; 1]; [10; 0; 1]; [1; 1; 0]]%R.

(** Two points 5 km apart, and three points that violate no inequality. *)
Definition line_matrix : list (list R) := [[0; 5]; [5; 0]]%R.

Definition sample_matrix : list (list R) := [[0; 1; 2]; [1; 0; 3]; [2; 3; 0]]%R.

(** The complete graph on two vertices at distance [h]. *)
Definition line_graph (h : R) : Graph :=
  {| num_vertices := 2;
     adj := list_to_map [(0, [(1, h); (1, h)]); (1, [(0, h); (0, h)])] |}.

(** ** Walks in a graph *)

(** [a <= b] on floats. *)
Definition dist_le (a b : dist) : Prop :=
  match a, b with
  | Fin x, Fin y => (x <= y)%R
  | _, Inf => True
  | Inf, Fin _ => False
  end.

(** [route g p a b W]: the vertex list [p] goes from [a] to [b] along edges
    of [g]; [W] is the sum of their weights, added in the order of travel. *)
Inductive route (g : Graph) (a : nat) : list nat → nat → R → Prop :=
  | route_start : route g a [a] a 0
  | route_step p b c W w :
      route g a p b W → edge_in g b c w → route g a (p ++ [c]) c (W + w).

(** No edge of [g] has a negative weight. *)
Definition nonneg_weights (g : Graph) : Prop :=
  ∀ u v w, edge_in g u v w → (0 <= w)%R.

(** [p] is the list the path loop of [dijkstra] builds from [v]: it follows
    [previous] back to a vertex without predecessor; all its vertices but
    the last are visited. *)
Inductive chain (visited : gset nat) (previous : list (option nat))
  : nat → list nat → Prop :=
  | chain_source v :
      previous !! v = Some None → chain visited previous v [v]
  | chain_step v u p :
      previous !! v = Some (Some u) → u ∈ visited →
      chain visited previous u p → chain visited previous v (p ++ [v]).

(** What the main loop of [dijkstra] from [s] to [t] keeps true of
    [(visited, distances, previous)]. *)
Definition dijkstra_inv (g : Graph) (s t : nat) (V : gset nat)
    (D : list dist) (P : list (option nat)) : Prop :=
  length D = num_vertices g ∧ length P = num_vertices g ∧
  (∀ u, u ∈ V → u < num_vertices g ∧ u ≠ t) ∧
  D !! s = Some (Fin 0) ∧ P !! s = Some None ∧
  (V = ∅ ∨ s ∈ V) ∧
  (∀ u, u ∈ V → ∃ x, D !! u = Some (Fin x)) ∧
  (∀ v x, v < num_vertices g → D !! v = Some (Fin x) →
     ∃ p, route g s p v x ∧ chain V P v p ∧
          length p ≤ size V + (if decide (v ∈ V) then 0 else 1)) ∧
  (∀ v, v < num_vertices g → D !! v = Some Inf → P !! v = Some None ∧ v ∉ V) ∧
  (∀ u v w du dv, u ∈ V → v ∉ V → edge_in g u v w →
     D !! u = Some du → D !! v = Some dv → dist_le dv (dist_add du (Fin w))) ∧
  (nonneg_weights g →
   ∀ u d p W, u ∈ V → D !! u = Some d → route g s p u W → dist_le d (Fin W)).

(** How the loop is left: all vertices are visited, or the target is
    selected (its distance is then final), or no unvisited vertex has a
    finite distance (the walks from [s] then stay among the visited). *)
Definition dijkstra_exit (g : Graph) (s t : nat) (V : gset nat) (D : list dist) : Prop :=
  num_vertices g ≤ size V ∨
  (∃ x, D !! t = Some (Fin x) ∧
        (nonneg_weights g → ∀ p W, route g s p t W → (x <= W)%R)) ∨
  ((∀ i, i < num_vertices g → i ∉ V → D !! i = Some Inf) ∧
   ∀ p x W, route g s p x W → x ∈ V).

(** What the relaxation of the edges of [u] (tentative distance [xu]) keeps
    true while it runs; [pre] are the edges handled so far, [D] the
    distances before the round. *)
Definition relax_inv (g : Graph) (s u : nat) (xu : R) (V' : gset nat)
    (D : list dist) (pre : list (nat * R))
    (D' : list dist) (P' : list (option nat)) : Prop :=
  length D' = num_vertices g ∧ length P' = num_vertices g ∧
  D' !! s = Some (Fin 0) ∧ P' !! s = Some None ∧
  (∀ v, v ∈ V' → D' !! v = D !! v) ∧
  (∀ v d d', D !! v = Some d → D' !! v = Some d' → dist_le d' d) ∧
  (∀ v x, v < num_vertices g → D' !! v = Some (Fin x) →
     ∃ p, route g s p v x ∧ chain V' P' v p ∧
          length p ≤ size V' + (if decide (v ∈ V') then 0 else 1)) ∧
  (∀ v, v < num_vertices g → D' !! v = Some Inf → P' !! v = Some None ∧ v ∉ V') ∧
  (∀ v w dv, (v, w) ∈ pre → v ∉ V' → D' !! v = Some dv →
     dist_le dv (Fin (xu + w))).

(** ** Graphs made through the class interface *)

(** Every edge is stored in both directions, with the same weight. *)
Definition undirected (g : Graph) : Prop :=
  ∀ a b x, edge_in g a b x → edge_in g b a x.

(** The graphs a program can make: [Graph(n)], then calls of [add_edge]
    that return. *)
Inductive constructed : Graph → Prop :=
  | constructed_init n : constructed (Graph_init n)
  | constructed_add g u v w g' :
      constructed g → add_edge g u v w = Ok g' → constructed g'.

(** ** dfs_traversal on any edge list *)

(** The endpoints of the edges are keys of the adjacency dict
    [{i: [] for i in range(len(edges) + 1)}]. *)
Definition in_range (edges : list (nat * nat)) : Prop :=
  ∀ a b, (a, b) ∈ edges → a < length edges + 1 ∧ b < length edges + 1.

(** ** prim_mst on any graph *)

(** [b] can be reached from [a] along edges of [g]. *)
Definition reachable (g : Graph) : nat → nat → Prop := rtc (has_edge g).

(** [(u, v)] with weight [w] is a lightest edge of [g] from a visited vertex
    to an unvisited one. *)
Definition lightest_crossing (g : Graph) (visited : gset nat)
    (u v : nat) (w : R) : Prop :=
  u ∈ visited ∧ (v ∉ visited) ∧ edge_in g u v w ∧
  ∀ u' v' w', u' ∈ visited → v' ∉ visited → edge_in g u' v' w' → (w <= w')%R.

(** The states of the loop of [prim_mst] with the weights of the edges it
    appends: every round takes a lightest crossing edge. *)
Inductive greedy_trace (g : Graph)
  : gset nat → list (nat * nat) → list R → Prop :=
  | greedy_start : greedy_trace g {[0]} [] []
  | greedy_round visited mst_edges weights u v w :
      greedy_trace g visited mst_edges weights →
      lightest_crossing g visited u v w →
      greedy_trace g ({[v]} ∪ visited) (mst_edges ++ [(u, v)]) (weights ++ [w]).

(** ** The requests of build_distance_matrix *)





(** ** Replies the routing service is used from *)

(** A GeoJSON position: longitude, latitude, then anything (an elevation). *)
Definition position (c : json * json * list json) : json :=
  JArr (c.1.1 :: c.1.2 :: c.2).

(** The same position as [[lat, lon]]. *)
Definition lat_lon (c : json * json * list json) : list json :=
  [c.1.2; c.1.1].

(** ** The tree of prim_mst is a lightest one *)

(** The sum of a list of weights. *)
Definition total (ws : list R) : R := foldr Rplus 0%R ws.

(** [T] is a list of edges of [g], each with one of its weights. *)
Definition edges_of (g : Graph) (T : list (nat * nat * R)) : Prop :=
  ∀ a b w, (a, b, w) ∈ T → edge_in g a b w.

(** The edges of [T] join to vertex 0 all that can be reached from it. *)
Definition spans (g : Graph) (T : list (nat * nat * R)) : Prop :=
  ∀ x, reachable g 0 x → connected (T.*1) 0 x.

(* ===================================================================== *)
(** * Part III: proofs *)
(* ===================================================================== *)

(** ** Loops *)

Lemma for_each_app {St A} (body : St → A → result St) st l1 l2 :
  for_each body st (l1 ++ l2) = st' ← for_each body st l1; for_each body st' l2.
Proof.
  revert st. induction l1 as [|x l1 IH]; intros st; simpl; [done|].
  destruct (body st x) as [st'| |]; simpl; auto.
Qed.

(** A loop invariant indexed by the part of the list already consumed. *)
Lemma for_each_inv {St A} (body : St → A → result St) (P : list A → St → Prop) l st :
  P [] st →
  (∀ pre x suf st, l = pre ++ x :: suf → P pre st →
     ∃ st', body st x = Ok st' ∧ P (pre ++ [x]) st') →
  ∃ st', for_each body st l = Ok st' ∧ P l st'.
Proof.
  intros H0 Hstep.
  assert (∀ suf pre st, l = pre ++ suf → P pre st →
            ∃ st', for_each body st suf = Ok st' ∧ P l st') as Hgen.
  { induction suf as [|x suf IH]; intros pre st1 Hl HP.
    - rewrite app_nil_r in Hl. subst. eauto.
    - destruct (Hstep pre x suf st1 Hl HP) as (st2 & Hb & HP2).
      simpl. rewrite Hb. simpl. apply (IH (pre ++ [x])); [|done].
      by rewrite <- app_assoc. }
  by apply (Hgen l []).
Qed.

(** The same for [for i in range(a, a + k)], indexed by the next [i]. *)
Lemma for_each_seq_inv {St} (body : St → nat → result St) (P : nat → St → Prop) a k st :
  P a st →
  (∀ i st, a ≤ i < a + k → P i st → ∃ st', body st i = Ok st' ∧ P (S i) st') →
  ∃ st', for_each body st (seq a k) = Ok st' ∧ P (a + k) st'.
Proof.
  intros H0 Hstep.
  destruct (for_each_inv body (λ pre st, P (a + length pre) st) (seq a k) st)
    as (st' & He & HP).
  - simpl. by rewrite Nat.add_0_r.
  - intros pre x suf st1 Hl HP.
    assert (x = a + length pre) as ->.
    { assert (seq a k !! length pre = Some x) as Hx.
      { rewrite Hl. rewrite lookup_app_r by lia. by rewrite Nat.sub_diag. }
      apply lookup_seq in Hx. lia. }
    assert (length pre < k).
    { apply (f_equal length) in Hl. rewrite length_seq, length_app in Hl.
      simpl in Hl. lia. }
    destruct (Hstep (a + length pre) st1) as (st2 & Hb & HP2); [lia|done|].
    exists st2. split; [done|]. rewrite length_app. simpl.
    by replace (a + (length pre + 1)) with (S (a + length pre)) by lia.
  - exists st'. split; [done|]. by rewrite length_seq in HP.
Qed.

(** An invariant of a loop that may raise: it holds of the final state
    when there is one. *)
Lemma for_each_ok_inv {St A} (body : St → A → result St) (P : St → Prop) l st st' :
  (∀ st x st', P st → body st x = Ok st' → P st') →
  P st → for_each body st l = Ok st' → P st'.
Proof.
  intros Hstep. revert st. induction l as [|x l IH]; intros st HP; simpl.
  - by intros [= <-].
  - destruct (body st x) as [st1| |] eqn:Hb; simpl; [|done..]. eauto.
Qed.

(** A loop whose body always ends does end. *)
Lemma for_each_ends {St A} (body : St → A → result St) l st :
  (∀ st x, body st x ≠ OutOfFuel) → for_each body st l ≠ OutOfFuel.
Proof.
  intros Hbody. revert st. induction l as [|x l IH]; intros st; simpl; [done|].
  destruct (body st x) as [st1| |] eqn:Hb; simpl; [apply IH|done|].
  by destruct (Hbody st x).
Qed.

(** ** plan_route on fewer than two points *)

(** C4: on a list of exactly one point [plan_route] returns the degenerate
    plan (visiting order [0], that point as the only route coordinate, total
    distance 0, no road segment); on the empty list it returns no plan: the
    access [coords[0]] raises [IndexError]. *)
Theorem plan_route_fewer_than_two_points (net : nat → http_reply) (p : Point) :
  plan_route net [p] =
    Ok {| visiting_order := [0]; route_coords := [p];
          total_distance := Fin 0; road_segments := [] |}
  ∧ plan_route net [] = Raise IndexError.
Proof. split; reflexivity. Qed.

(** ** Lists and floats *)

Lemma py_set_ok {A} (l : list A) i x :
  i < length l → py_set l i x = Ok (<[i := x]> l).
Proof. intros. unfold py_set. by rewrite bool_decide_true. Qed.

Lemma py_index_ok {A} (l : list A) i x : l !! i = Some x → py_index l i = Ok x.
Proof. intros H. unfold py_index. by rewrite H. Qed.

Lemma py_key_ok {A} (d : gmap nat A) k x : d !! k = Some x → py_key d k = Ok x.
Proof. intros H. unfold py_key. by rewrite H. Qed.

Lemma dist_ltb_Inf_r d : dist_ltb d Inf = true ↔ d ≠ Inf.
Proof. destruct d; simpl; split; intros; congruence. Qed.

(** ** dijkstra: the selection scan *)

(** What the scan returns: a vertex that is unvisited and has a finite
    tentative distance, when there is one. *)
Lemma select_min_spec n (distances : list dist) (visited : gset nat) :
  length distances = n →
  ∃ u md, select_min n distances visited = Ok (u, md) ∧
    match u with
    | Some i => i < n ∧ (i ∉ visited) ∧ distances !! i = Some md ∧ md ≠ Inf
    | None => ∀ i, i < n → i ∉ visited → distances !! i = Some Inf
    end.
Proof.
  intros Hlen. unfold select_min.
  destruct (for_each_seq_inv
    (λ '(u, min_dist) i,
      if bool_decide (i ∉ visited) then
        d ← py_index distances i;
        if dist_ltb d min_dist then Ok (Some i, d) else Ok (u, min_dist)
      else Ok (u, min_dist))
    (λ k st, match st.1 with
             | Some i => i < k ∧ (i ∉ visited) ∧
                         distances !! i = Some st.2 ∧ st.2 ≠ Inf
             | None => st.2 = Inf ∧
                       ∀ i, i < k → i ∉ visited → distances !! i = Some Inf
             end) 0 n (None, Inf)) as ([u md] & He & HP).
  - simpl. split; [done|]. intros; lia.
  - intros i [u md] Hi HP. simpl in HP.
    destruct (lookup_lt_is_Some_2 distances i) as [d Hd]; [lia|].
    case_bool_decide as Hv.
    + rewrite (py_index_ok _ _ _ Hd). simpl.
      destruct (dist_ltb d md) eqn:Hlt.
      * eexists. split; [done|]. simpl. repeat split; [lia|done|done|].
        intros ->. done.
      * eexists. split; [done|]. simpl. destruct u as [j|].
        -- destruct HP as (?&?&?&?). repeat split; [lia|done..].
        -- destruct HP as [-> HP]. split; [done|]. intros j Hj Hjv.
           destruct (decide (j = i)) as [->|]; [|apply HP; [lia|done]].
           rewrite Hd. by destruct d.
    + eexists. split; [done|]. simpl. destruct u as [j|].
      * destruct HP as (?&?&?&?). repeat split; [lia|done..].
      * destruct HP as [-> HP]. split; [done|]. intros j Hj Hjv.
        destruct (decide (j = i)) as [->|]; [done|apply HP; [lia|done]].
  - exists u, md. split; [done|]. simpl in HP. destruct u; [done|]. apply HP.
Qed.

(** ** dijkstra from a vertex to itself *)

(** The scan of the first round selects the source: it alone has a finite
    tentative distance. *)
Lemma select_source (n s : nat) :
  s < n → select_min n (<[s := Fin 0]> (replicate n Inf)) ∅ = Ok (Some s, Fin 0).
Proof.
  intros Hs.
  destruct (select_min_spec n (<[s := Fin 0]> (replicate n Inf)) ∅)
    as (u & md & -> & Hu).
  { by rewrite length_insert, length_replicate. }
  destruct u as [i|].
  - destruct Hu as (Hi & _ & Hd & Hfin).
    assert (i = s) as ->.
    { destruct (decide (i = s)) as [|Hne]; [done|].
      rewrite list_lookup_insert_ne in Hd by done.
      rewrite lookup_replicate_2 in Hd by done. congruence. }
    rewrite list_lookup_insert_eq in Hd by (by rewrite length_replicate).
    by injection Hd as <-.
  - exfalso. specialize (Hu s Hs (not_elem_of_empty s)).
    rewrite list_lookup_insert_eq in Hu by (by rewrite length_replicate). done.
Qed.

(** When the source is the target the loop stops in its first round, before
    any edge is relaxed. *)
Lemma dijkstra_loop_at_target (g : Graph) (s fuel : nat) :
  s < num_vertices g →
  dijkstra_loop (S fuel) g s
      (<[s := Fin 0]> (replicate (num_vertices g) Inf))
      (replicate (num_vertices g) None) ∅
    = Ok (<[s := Fin 0]> (replicate (num_vertices g) Inf),
          replicate (num_vertices g) None).
Proof.
  intros Hs. cbn [dijkstra_loop].
  rewrite bool_decide_true by (rewrite size_empty; lia).
  rewrite select_source by done. cbn [mbind result_bind].
  by rewrite bool_decide_true.
Qed.

Lemma reconstruct_source (n s fuel : nat) :
  s < n → reconstruct (S fuel) (replicate n None) (Some s) [] = Ok [s].
Proof.
  intros Hs. cbn [reconstruct].
  rewrite (py_index_ok _ s None) by (by apply lookup_replicate_2).
  cbn [mbind result_bind]. by destruct fuel.
Qed.

Lemma dijkstra_to_itself (g : Graph) (s : nat) :
  s < num_vertices g → dijkstra g s s = Ok ([s], Fin 0).
Proof.
  intros Hs. unfold dijkstra.
  rewrite py_set_ok by (by rewrite length_replicate).
  cbn [mbind result_bind].
  rewrite dijkstra_loop_at_target by done. cbn [mbind result_bind].
  rewrite reconstruct_source by done. cbn [mbind result_bind].
  rewrite (py_index_ok _ s (Fin 0)); [done|].
  apply list_lookup_insert_eq. by rewrite length_replicate.
Qed.

(** C10: for every graph and every vertex [s] of it, [dijkstra(graph, s, s)]
    returns the path [[s]] and the distance 0: the scan selects [s] first,
    the loop stops there without relaxing any edge (the distances and the
    predecessors are as they were set up), and the path is rebuilt from [s]
    alone. *)
Theorem dijkstra_same_vertex (g : Graph) (s : nat) :
  s < num_vertices g →
  let n := num_vertices g in
  let distances := <[s := Fin 0]> (replicate n Inf) in
  let previous := replicate n (@None nat) in
  select_min n distances ∅ = Ok (Some s, Fin 0) ∧
  dijkstra_loop (S n) g s distances previous ∅ = Ok (distances, previous) ∧
  reconstruct (S n) previous (Some s) [] = Ok [s] ∧
  dijkstra g s s = Ok ([s], Fin 0).
Proof.
  intros Hs n distances previous. split; [by apply select_source|].
  split; [by apply dijkstra_loop_at_target|].
  split; [by apply reconstruct_source|by apply dijkstra_to_itself].
Qed.

Lemma dijkstra_same_vertex_witness :
  1 < num_vertices (Graph_init 3) ∧ dijkstra (Graph_init 3) 1 1 = Ok ([1], Fin 0).
Proof.
  split; [simpl; lia|].
  apply (dijkstra_same_vertex (Graph_init 3) 1). simpl. lia.
Defined.

(** ** The routing service: reading a reply *)

Lemma bind_Ok {A B} (m : result A) (f : A → result B) b :
  m ≫= f = Ok b → ∃ a, m = Ok a ∧ f a = Ok b.
Proof. destruct m; simpl; intros; eauto; done. Qed.

Ltac bind_inv H :=
  let a := fresh "a" in let Ha := fresh "Ha" in
  apply bind_Ok in H as (a & Ha & H).

Lemma py_eq_str_true v s : py_eq_str v s = true → v = JStr s.
Proof. destruct v; simpl; try done. intros ?%bool_decide_eq_true. by subst. Qed.

(** The part of the [try] the two operations share: it gets past the tests
    only with a first route (or with a string where the routes should be). *)
Lemma routes_run data code routes route :
  py_get data "code" = Ok code → py_eq_str code "Ok" = true →
  py_field data "routes" = Ok routes →
  py_item routes 0 = Ok route →
  first_route data route ∨ (∃ s, routes = JStr s).
Proof.
  intros Hc Heq Hf Hi. apply py_eq_str_true in Heq as ->.
  destruct data as [| | | | |fields]; try done. simpl in *.
  injection Hc as Hc.
  destruct (dict_get fields "routes") as [r|] eqn:Hr; [|done].
  injection Hf as ->.
  destruct routes as [| | |s|items|]; try done; [eauto|].
  left. exists fields. destruct items as [|r rest]; [done|].
  injection Hi as ->. exists rest. split; [done|]. split; [|done].
  destruct (dict_get fields "code"); simpl in Hc; by subst.
Qed.

Lemma chars_are_strings s i v : py_index (chars s) i = Ok v → ∃ t, v = JStr t.
Proof.
  unfold py_index. destruct (chars s !! i) as [x|] eqn:Hx; [|done].
  intros [= <-]. revert i Hx. induction s as [|c s IH]; intros [|i] Hx; simpl in *; try done.
  - injection Hx as <-. eauto.
  - eauto.
Qed.


Lemma length_chars s : length (chars s) = String.length s.
Proof. induction s; simpl; auto. Qed.

Lemma swap_coord_run coord c : swap_coord coord = Ok c → has_two_items coord.
Proof.
  unfold swap_coord. intros H. bind_inv H. clear H.
  destruct coord as [| | |s|items|]; try done; simpl in *; unfold py_index in Ha.
  - destruct (chars s !! 1) eqn:Hx; [|done].
    apply lookup_lt_Some in Hx. rewrite length_chars in Hx. lia.
  - destruct (items !! 1) eqn:Hx; [|done]. apply lookup_lt_Some in Hx. lia.
Qed.

Lemma swap_all_run coords acc swapped :
  for_each (λ acc coord, c ← swap_coord coord; Ok (acc ++ [c])) acc coords = Ok swapped →
  Forall has_two_items coords.
Proof.
  revert acc. induction coords as [|coord coords IH]; intros acc H; [constructor|].
  simpl in H. bind_inv H. bind_inv Ha. injection Ha as <-.
  constructor; [by eapply swap_coord_run|by eapply IH].
Qed.

Lemma geometry_try_returns reply g :
  geometry_try reply = Ok (Some g) →
  ∃ data, reply = Response 200 (Some data) ∧ geometry_data_ok data.
Proof.
  destruct reply as [|status_code [data|]]; simpl; try done;
    case_bool_decide as Hs; try done; subst; simpl.
  intros H. exists data. split; [done|].
  bind_inv H. destruct (py_eq_str a "Ok") eqn:Heq; [|done].
  bind_inv H. rename a0 into routes0. bind_inv H. rename a0 into n.
  case_bool_decide as Hn; [|done].
  bind_inv H. rename a0 into routes. bind_inv H. rename a0 into route.
  bind_inv H. rename a0 into geom. bind_inv H. rename a0 into geometry.
  bind_inv H. rename a0 into coords. bind_inv H. injection H as <-.
  destruct (routes_run data a routes route) as [Hfr|[s ->]]; try done.
  - destruct route as [| | | | |fields]; try done. simpl in Ha4.
    destruct (dict_get fields "geometry") as [x|] eqn:Hg; [|done].
    injection Ha4 as ->.
    destruct geom as [| | | | |gfields]; try done. simpl in Ha5.
    destruct (dict_get gfields "coordinates") as [x|] eqn:Hcs; [|done].
    injection Ha5 as ->.
    exists fields, gfields, geometry, coords. repeat split; try done.
    by eapply swap_all_run.
  - apply chars_are_strings in Ha3 as [t ->]. done.
Qed.


(** ** The fallback of the distance provider *)



(** ** haversine_distance *)

Section haversine.
Local Open Scope R_scope.

Lemma sin2_range x : 0 <= sin x ^ 2 <= 1.
Proof.
  pose proof (sin2_cos2 x) as H. unfold Rsqr in H.
  pose proof (pow2_ge_0 (sin x)). pose proof (pow2_ge_0 (cos x)). nra.
Qed.

(** [cos x * cos y = 1 - sin² ((y + x) / 2) - sin² ((y - x) / 2)] *)
Lemma cos_cos_half x y :
  cos x * cos y = 1 - sin ((y + x) / 2) ^ 2 - sin ((y - x) / 2) ^ 2.
Proof.
  set (u := (y - x) / 2). set (v := (y + x) / 2).
  replace x with (v - u) by (unfold u, v; lra).
  replace y with (v + u) at 1 by (unfold u, v; lra).
  rewrite cos_minus, cos_plus.
  pose proof (sin2_cos2 u) as Hu. pose proof (sin2_cos2 v) as Hv.
  unfold Rsqr in *. nra.
Qed.

Lemma radians_minus x y : radians (x - y) = radians x - radians y.
Proof. unfold radians. lra. Qed.

(** The argument of [math.sqrt] and [math.asin] is always in their domain. *)
Lemma haversine_a_range lat1 lon1 lat2 lon2 :
  0 <= haversine_a lat1 lon1 lat2 lon2 <= 1.
Proof.
  unfold haversine_a. rewrite radians_minus.
  rewrite (cos_cos_half (radians lat1) (radians lat2)).
  pose proof (sin2_range ((radians lat2 - radians lat1) / 2)).
  pose proof (sin2_range ((radians lat2 + radians lat1) / 2)).
  pose proof (sin2_range (radians (lon2 - lon1) / 2)).
  nra.
Qed.

Lemma asin_nonneg x : 0 <= x -> 0 <= asin x.
Proof.
  intros Hx. unfold asin. pose proof PI_RGT_0.
  destruct (Rle_dec x (-1)); [lra|]. destruct (Rle_dec 1 x); [lra|].
  assert (0 < sqrt (1 - x²)).
  { apply sqrt_lt_R0. unfold Rsqr. nra. }
  destruct (Req_dec x 0) as [->|].
  - unfold Rdiv. rewrite Rmult_0_l, atan_0. lra.
  - rewrite <- atan_0. left. apply atan_increasing.
    apply Rdiv_lt_0_compat; lra.
Qed.

Lemma asin_eq_0 x : asin x = 0 -> x = 0.
Proof.
  unfold asin. pose proof PI_RGT_0.
  destruct (Rle_dec x (-1)); [lra|]. destruct (Rle_dec 1 x); [lra|].
  assert (0 < sqrt (1 - x²)) as Hs.
  { apply sqrt_lt_R0. unfold Rsqr. nra. }
  intros Ha.
  destruct (Rtotal_order (x / sqrt (1 - x²)) 0) as [Hlt|[Heq|Hgt]].
  - apply atan_increasing in Hlt. rewrite atan_0 in Hlt. lra.
  - unfold Rdiv in Heq. apply Rmult_integral in Heq as [|Hi]; [done|].
    pose proof (Rinv_0_lt_compat _ Hs). lra.
  - apply atan_increasing in Hgt. rewrite atan_0 in Hgt. lra.
Qed.

Lemma haversine_distance_nonneg lat1 lon1 lat2 lon2 :
  0 <= haversine_distance lat1 lon1 lat2 lon2.
Proof.
  unfold haversine_distance.
  pose proof (asin_nonneg _ (sqrt_pos (haversine_a lat1 lon1 lat2 lon2))). lra.
Qed.

Lemma haversine_distance_0 lat1 lon1 lat2 lon2 :
  haversine_distance lat1 lon1 lat2 lon2 = 0 ↔ haversine_a lat1 lon1 lat2 lon2 = 0.
Proof.
  unfold haversine_distance. split.
  - intros H. apply sqrt_eq_0; [apply haversine_a_range|]. apply asin_eq_0. lra.
  - intros ->. rewrite sqrt_0, asin_0. lra.
Qed.

Lemma haversine_a_sym lat1 lon1 lat2 lon2 :
  haversine_a lat1 lon1 lat2 lon2 = haversine_a lat2 lon2 lat1 lon1.
Proof.
  unfold haversine_a.
  replace (radians (lat1 - lat2) / 2) with (- (radians (lat2 - lat1) / 2))
    by (unfold radians; lra).
  replace (radians (lon1 - lon2) / 2) with (- (radians (lon2 - lon1) / 2))
    by (unfold radians; lra).
  rewrite !sin_neg. lra.
Qed.

(** [sin x = 0] on [[-PI, PI]] *)
Lemma sin_eq_0_interval x : - PI <= x <= PI -> sin x = 0 -> x = - PI ∨ x = 0 ∨ x = PI.
Proof.
  intros Hx Hs. pose proof PI_RGT_0.
  destruct (Rle_dec 0 x).
  - destruct (sin_eq_O_2PI_0 x) as [|[|]]; auto; lra.
  - assert (sin (- x) = 0) as Hn by (rewrite sin_neg; lra).
    destruct (sin_eq_O_2PI_0 (- x)) as [|[|]]; auto; lra.
Qed.

Lemma cos_eq_0_interval x : - (PI / 2) <= x <= PI / 2 -> cos x = 0 -> x = - (PI / 2) ∨ x = PI / 2.
Proof.
  intros Hx Hc. pose proof PI_RGT_0.
  destruct (Req_dec x (- (PI / 2))); [by left|].
  destruct (Req_dec x (PI / 2)); [by right|].
  pose proof (cos_gt_0 x). lra.
Qed.

Lemma pow2_eq_0 x : x ^ 2 = 0 -> x = 0.
Proof.
  intros H. simpl in H. rewrite Rmult_1_r in H.
  by apply Rmult_integral in H as [|].
Qed.

(** Where the haversine term vanishes: at equal points, at a pole whatever
    the longitudes, and across the antimeridian (-180 and 180). *)
Lemma haversine_a_0 lat1 lon1 lat2 lon2 :
  valid_point lat1 lon1 -> valid_point lat2 lon2 ->
  haversine_a lat1 lon1 lat2 lon2 = 0 ↔
  lat1 = lat2 ∧
  (lon1 = lon2 ∨ lat1 = 90 ∨ lat1 = -90 ∨ lon1 - lon2 = 360 ∨ lon2 - lon1 = 360).
Proof.
  intros [Hlat1 Hlon1] [Hlat2 Hlon2]. pose proof PI_RGT_0 as Hpi.
  unfold haversine_a. split.
  - intros Ha.
    assert (0 <= cos (radians lat1)) as Hc1.
    { apply cos_ge_0; unfold radians; nra. }
    assert (0 <= cos (radians lat2)) as Hc2.
    { apply cos_ge_0; unfold radians; nra. }
    pose proof (pow2_ge_0 (sin (radians (lat2 - lat1) / 2))) as Hs.
    pose proof (pow2_ge_0 (sin (radians (lon2 - lon1) / 2))) as Ht.
    pose proof (Rmult_le_pos _ _ Hc1 Hc2) as Hc.
    pose proof (Rmult_le_pos _ _ Hc Ht) as Hct.
    assert (sin (radians (lat2 - lat1) / 2) = 0) as Hs0.
    { apply pow2_eq_0. lra. }
    assert (lat1 = lat2) as <-.
    { apply sin_eq_0_interval in Hs0 as [H|[H|H]]; unfold radians in *; nra. }
    split; [done|].
    assert (cos (radians lat1) * cos (radians lat1) * sin (radians (lon2 - lon1) / 2) ^ 2 = 0)
      as H0 by lra.
    apply Rmult_integral in H0 as [H0|H0].
    + assert (cos (radians lat1) = 0) as Hc0.
      { apply Rmult_integral in H0 as [|]; done. }
      apply cos_eq_0_interval in Hc0 as [H|H]; unfold radians in *; [| |nra].
      * right; right; left. nra.
      * right; left. nra.
    + apply pow2_eq_0 in H0.
      apply sin_eq_0_interval in H0 as [H|[H|H]]; unfold radians in *; [| | |nra].
      * right; right; right; left. nra.
      * left. nra.
      * right; right; right; right. nra.
  - intros [<- H].
    replace (radians (lat1 - lat1) / 2) with 0 by (unfold radians; lra).
    rewrite sin_0.
    destruct H as [<-|[->|[->|[H|H]]]].
    + replace (radians (lon1 - lon1) / 2) with 0 by (unfold radians; lra).
      rewrite sin_0. lra.
    + replace (radians 90) with (PI / 2) by (unfold radians; lra).
      rewrite cos_PI2. lra.
    + replace (radians (-90)) with (- (PI / 2)) by (unfold radians; lra).
      rewrite cos_neg, cos_PI2. lra.
    + replace (lon2 - lon1) with (-360) by lra.
      replace (radians (-360) / 2) with (- PI) by (unfold radians; lra).
      rewrite sin_neg, sin_PI. lra.
    + rewrite H. replace (radians 360 / 2) with PI by (unfold radians; lra).
      rewrite sin_PI. lra.
Qed.

(** C7, amended: for points with latitudes in [-90, 90] and longitudes in
    [-180, 180], [haversine_distance] is symmetric, and it is zero exactly
    when the latitudes are equal and either the longitudes are equal, or the
    common latitude is 90 or -90 (a pole), or the longitudes differ by 360
    (the antimeridian); in particular it is zero when the points are equal. *)
Theorem haversine_symmetric_and_zero lat1 lon1 lat2 lon2 :
  valid_point lat1 lon1 -> valid_point lat2 lon2 ->
  haversine_distance lat1 lon1 lat2 lon2 = haversine_distance lat2 lon2 lat1 lon1
  ∧ (haversine_distance lat1 lon1 lat2 lon2 = 0 ↔
     lat1 = lat2 ∧
     (lon1 = lon2 ∨ lat1 = 90 ∨ lat1 = -90 ∨ lon1 - lon2 = 360 ∨ lon2 - lon1 = 360)).
Proof.
  intros H1 H2. split.
  - unfold haversine_distance. by rewrite haversine_a_sym.
  - rewrite haversine_distance_0. by apply haversine_a_0.
Qed.

(** C7 as stated fails: the two points (90, 0) and (90, 10) differ and are
    at distance zero (both are the north pole). *)
Lemma haversine_zero_at_pole :
  valid_point 90 0 ∧ valid_point 90 10 ∧
  haversine_distance 90 0 90 10 = 0 ∧ ((90, 0) : Point) ≠ (90, 10).
Proof.
  split; [split; lra|]. split; [split; lra|]. split.
  - apply haversine_distance_0. unfold haversine_a.
    replace (radians (90 - 90) / 2) with 0 by (unfold radians; lra).
    replace (radians 90) with (PI / 2) by (unfold radians; lra).
    rewrite sin_0, cos_PI2. lra.
  - intros [= H]. lra.
Qed.

Lemma haversine_symmetric_and_zero_witness :
  haversine_distance 0 0 0 1 = haversine_distance 0 1 0 0
  ∧ haversine_distance 0 0 0 1 ≠ 0.
Proof.
  destruct (haversine_symmetric_and_zero 0 0 0 1) as [Hs Hz].
  - split; lra.
  - split; lra.
  - split; [exact Hs|]. intros H%Hz. lra.
Defined.

End haversine.

(** ** build_distance_matrix *)









(** ** The class Graph and step 2 of plan_route *)

Lemma empty_lists_lookup {A} (a n u : nat) :
  (list_to_map ((λ i, (i, [])) <$> seq a n) : gmap nat (list A)) !! u =
  if decide (a ≤ u < a + n) then Some [] else None.
Proof.
  revert a. induction n as [|n IH]; intros a; simpl.
  - rewrite lookup_empty. case_decide; [lia|done].
  - destruct (decide (u = a)) as [->|Hne].
    + rewrite lookup_insert_eq. by rewrite decide_True by lia.
    + rewrite lookup_insert_ne by done. rewrite IH.
      repeat case_decide; try done; lia.
Qed.

Lemma Graph_init_wf n : wf_graph (Graph_init n).
Proof.
  split.
  - intros u. simpl. rewrite empty_lists_lookup. case_decide.
    + split; [lia|eauto].
    + split; [by intros [? ?]|lia].
  - intros u nbrs v w. simpl. rewrite empty_lists_lookup.
    case_decide; [|done]. intros [= <-] Hin. by apply elem_of_nil in Hin.
Qed.

Lemma Graph_init_no_edge n u v w : ¬ edge_in (Graph_init n) u v w.
Proof.
  intros (nbrs & Hn & Hin). simpl in Hn. rewrite empty_lists_lookup in Hn.
  case_decide; [|done]. injection Hn as <-. by apply elem_of_nil in Hin.
Qed.

Lemma entry_square n matrix i j :
  square n matrix → i < n → j < n → is_Some (entry matrix i j).
Proof.
  intros [Hlen Hrows] Hi Hj. unfold entry.
  destruct (lookup_lt_is_Some_2 matrix i) as [row Hrow]; [lia|].
  rewrite Hrow. simpl. apply lookup_lt_is_Some_2.
  rewrite (Forall_lookup_1 _ _ _ _ Hrows Hrow). done.
Qed.

Lemma add_edge_spec g u v w :
  wf_graph g → u < num_vertices g → v < num_vertices g →
  ∃ g', add_edge g u v w = Ok g' ∧ wf_graph g' ∧
    num_vertices g' = num_vertices g ∧
    ∀ a b x, edge_in g' a b x ↔
      edge_in g a b x ∨ (a = u ∧ b = v ∧ x = w) ∨ (a = v ∧ b = u ∧ x = w).
Proof.
  intros [Hkeys Hnb] Hu Hv. unfold add_edge.
  destruct (proj2 (Hkeys u) Hu) as [lu Hlu].
  rewrite (py_key_ok _ _ _ Hlu). cbn [mbind result_bind].
  set (adj1 := <[u := lu ++ [(v, w)]]> (adj g)).
  assert (∃ lv, adj1 !! v = Some lv ∧
            ∀ e, e ∈ lv ↔ edge_in g v e.1 e.2 ∨ (v = u ∧ e = (v, w))) as (lv & Hlv & Hlv').
  { unfold adj1. destruct (decide (v = u)) as [->|Hne].
    - rewrite lookup_insert_eq. eexists. split; [done|]. intros [b x]. simpl.
      rewrite elem_of_app, list_elem_of_singleton. unfold edge_in.
      split.
      + intros [H|H]; [left; eauto|right; done].
      + intros [(nbrs & Hn & H)|[_ H]]; [left; congruence|by right].
    - rewrite lookup_insert_ne by done.
      destruct (proj2 (Hkeys v) Hv) as [lv Hlv]. exists lv. split; [done|].
      intros [b x]. simpl. unfold edge_in. split.
      + intros H. left. eauto.
      + intros [(nbrs & Hn & H)|[? _]]; [congruence|done]. }
  rewrite (py_key_ok _ _ _ Hlv). cbn [mbind result_bind].
  eexists. split; [done|].
  assert (∀ a b x,
    edge_in {| num_vertices := num_vertices g;
               adj := <[v := lv ++ [(u, w)]]> adj1 |} a b x ↔
    edge_in g a b x ∨ (a = u ∧ b = v ∧ x = w) ∨ (a = v ∧ b = u ∧ x = w)) as Hedges.
  { intros a b x. unfold edge_in at 1. simpl.
    destruct (decide (a = v)) as [->|Hav].
    - rewrite lookup_insert_eq. split.
      + intros (nbrs & [= <-] & H). apply elem_of_app in H as [H|H].
        * apply Hlv' in H as [H|[-> [= -> ->]]]; auto.
        * apply list_elem_of_singleton in H as [= -> ->]. auto.
      + intros H. eexists. split; [done|]. rewrite elem_of_app, list_elem_of_singleton.
        destruct H as [H|[(-> & -> & ->)|(_ & -> & ->)]].
        * left. apply Hlv'. by left.
        * left. apply Hlv'. by right.
        * by right.
    - rewrite lookup_insert_ne by done. unfold adj1.
      destruct (decide (a = u)) as [->|Hau].
      + rewrite lookup_insert_eq. split.
        * intros (nbrs & [= <-] & H). apply elem_of_app in H as [H|H].
          -- left. exists lu. done.
          -- apply list_elem_of_singleton in H as [= -> ->]. auto.
        * intros H. eexists. split; [done|].
          rewrite elem_of_app, list_elem_of_singleton.
          destruct H as [(nbrs & Hn & H)|[(_ & -> & ->)|(-> & _)]]; [|by right|done].
          left. congruence.
      + rewrite lookup_insert_ne by done. split; [by left|].
        intros [H|[(-> & _)|(-> & _)]]; done. }
  split; [|split; [done|exact Hedges]].
  split; simpl.
  - intros a. rewrite <- Hkeys. unfold adj1.
    destruct (decide (a = v)) as [->|]; [rewrite lookup_insert_eq|rewrite lookup_insert_ne by done].
    + split; [intros _; apply Hkeys; lia|eauto].
    + destruct (decide (a = u)) as [->|]; [rewrite lookup_insert_eq|by rewrite lookup_insert_ne].
      split; [intros _; apply Hkeys; lia|eauto].
  - intros a nbrs b x Hn Hin.
    assert (edge_in {| num_vertices := num_vertices g;
               adj := <[v := lv ++ [(u, w)]]> adj1 |} a b x) as He by (exists nbrs; done).
    apply Hedges in He as [(nbrs' & Hn' & Hin')|[(_ & -> & _)|(_ & -> & _)]]; [|done..].
    by eapply Hnb.
Qed.

Lemma graph_inv_ext n matrix (D D' : nat → nat → Prop) g :
  (∀ a b, a ≠ b → D a b ↔ D' a b) → graph_inv n matrix D g → graph_inv n matrix D' g.
Proof.
  intros Hext (Hwf & Hn & He). split; [done|]. split; [done|].
  intros a b x. rewrite He. split; intros [Hab H]; (split; [done|]).
  - destruct H as [[H1 H2]|[H1 H2]]; [left|right]; (split; [|done]);
      by apply Hext.
  - destruct H as [[H1 H2]|[H1 H2]]; [left|right]; (split; [|done]);
      by apply Hext.
Qed.

(** Step 2 of [plan_route] on an n-by-n matrix: the graph is well formed and
    its edges are exactly the off-diagonal entries, each in both directions. *)
Lemma build_graph_spec n matrix :
  square n matrix →
  ∃ g, build_graph n matrix = Ok g ∧ graph_inv n matrix (λ a b, a < n ∧ b < n) g.
Proof.
  intros Hsq. unfold build_graph.
  destruct (for_each_seq_inv
    (λ g i, for_each (λ g j,
        if bool_decide (i ≠ j) then
          row ← py_index matrix i; w ← py_index row j; add_edge g i j w
        else Ok g) g (seq 0 n))
    (λ i g, graph_inv n matrix (λ a b, a < i ∧ b < n) g) 0 n (Graph_init n))
    as (g & Hg & Hinv).
  - split; [apply Graph_init_wf|]. split; [done|]. intros a b x. split.
    + intros H. by apply Graph_init_no_edge in H.
    + intros [_ [[H _]|[H _]]]; lia.
  - intros i g Hi Hinv.
    destruct (for_each_seq_inv
      (λ g j, if bool_decide (i ≠ j) then
          row ← py_index matrix i; w ← py_index row j; add_edge g i j w
        else Ok g)
      (λ j g, graph_inv n matrix (λ a b, (a < i ∧ b < n) ∨ (a = i ∧ b < j)) g)
      0 n g) as (g' & Hg' & Hinv').
    + eapply graph_inv_ext; [|exact Hinv]. intros a b _. split; [auto|].
      intros [H|[_ H]]; [done|lia].
    + intros j g1 Hj (Hwf & Hn & He). case_bool_decide as Hij.
      * destruct (entry_square n matrix i j Hsq) as [w Hw]; [lia..|].
        unfold entry in Hw.
        destruct (matrix !! i) as [row|] eqn:Hrow; [|done]. simpl in Hw.
        rewrite (py_index_ok _ _ _ Hrow). cbn [mbind result_bind].
        rewrite (py_index_ok _ _ _ Hw). cbn [mbind result_bind].
        destruct (add_edge_spec g1 i j w Hwf) as (g2 & -> & Hwf2 & Hn2 & He2);
          [lia..|].
        exists g2. split; [done|]. split; [done|]. split; [lia|].
        intros a b x. rewrite He2, He.
        assert (entry matrix i j = Some w) as Hw'.
        { unfold entry. rewrite Hrow. done. }
        split.
        -- intros [[Hab H]|[(-> & -> & ->)|(-> & -> & ->)]].
           ++ split; [done|]. destruct H as [[H1 H2]|[H1 H2]];
                [left|right]; (split; [|done]);
                (destruct H1 as [H1|[-> H1]]; [by left|right; split; [done|lia]]).
           ++ split; [done|]. left. split; [right; split; [done|lia]|done].
           ++ split; [done|]. right. split; [right; split; [done|lia]|done].
        -- intros [Hab H].
           destruct H as [[[H1|[-> H1]] H2]|[[H1|[-> H1]] H2]].
           ++ left. split; [done|]. left. auto.
           ++ destruct (decide (b = j)) as [->|].
              ** right; left. split; [done|]. split; [done|]. congruence.
              ** left. split; [done|]. left. split; [|done]. right. split; [done|lia].
           ++ left. split; [done|]. right. auto.
           ++ destruct (decide (a = j)) as [->|].
              ** right; right. split; [done|]. split; [done|]. congruence.
              ** left. split; [done|]. right. split; [|done]. right. split; [done|lia].
      * subst j. exists g1. split; [done|].
        eapply graph_inv_ext; [|split; [exact Hwf|split; [exact Hn|exact He]]].
        intros a b Hab. simpl. split.
        -- intros [H|[-> H]]; [by left|right; split; [done|lia]].
        -- intros [H|[-> H]]; [by left|]. right. split; [done|lia].
    + exists g'. split; [done|]. eapply graph_inv_ext; [|exact Hinv'].
      intros a b _. simpl. split.
      * intros [H|[-> H]]; lia.
      * intros [H1 H2]. destruct (decide (a = i)) as [->|]; [right; lia|left; lia].
  - exists g. split; [done|]. exact Hinv.
Qed.

(** ** prim_mst *)

Lemma prim_scan_spec g (visited : gset nat) :
  (∀ u, u ∈ visited → is_Some (adj g !! u)) →
  ∃ min_edge min_weight, prim_scan g visited = Ok (min_edge, min_weight) ∧
    match min_edge with
    | Some (u, v) => crossing g visited u v
    | None => ∀ u v, ¬ crossing g visited u v
    end.
Proof.
  intros Hkeys. unfold prim_scan.
  set (Q := λ (seen : nat → nat * R → Prop) (st : option (nat * nat) * dist),
    match st.1 with
    | Some (u, v) => crossing g visited u v ∧ st.2 ≠ Inf
    | None => st.2 = Inf ∧ ∀ u e, seen u e → e.1 ∈ visited
    end).
  destruct (for_each_inv
    (λ st u, nbrs ← get_neighbors g u;
       for_each (λ '(min_edge, min_weight) '(v, weight),
           if bool_decide (v ∉ visited) && dist_ltb (Fin weight) min_weight
           then Ok (Some (u, v), Fin weight)
           else Ok (min_edge, min_weight)) st nbrs)
    (λ pre, Q (λ u e, u ∈ pre ∧ ∃ nbrs, adj g !! u = Some nbrs ∧ e ∈ nbrs))
    (elements visited) (None, Inf)) as ([me mw] & He & HQ).
  - split; [done|]. intros u e [Hu _]. by apply elem_of_nil in Hu.
  - intros pre u suf st Hel HQ.
    assert (u ∈ visited) as Hu.
    { apply elem_of_elements. rewrite Hel. set_solver. }
    destruct (Hkeys u Hu) as [nbrs Hn].
    unfold get_neighbors. rewrite (py_key_ok _ _ _ Hn). cbn [mbind result_bind].
    destruct (for_each_inv
      (λ '(min_edge, min_weight) '(v, weight),
           if bool_decide (v ∉ visited) && dist_ltb (Fin weight) min_weight
           then Ok (Some (u, v), Fin weight)
           else Ok (min_edge, min_weight))
      (λ ipre, Q (λ u' e, (u' ∈ pre ∧ ∃ nbrs, adj g !! u' = Some nbrs ∧ e ∈ nbrs)
                          ∨ (u' = u ∧ e ∈ ipre)))
      nbrs st) as (st' & -> & HQ').
    + unfold Q in *. destruct st as [[[a b]|] mw]; simpl in *; [done|].
      destruct HQ as [-> HQ]. split; [done|].
      intros u' e [H|[_ H]]; [by apply (HQ u' e)|].
      by apply elem_of_nil in H.
    + intros ipre [v w] isuf [me mw] Hnb HQi.
      destruct (bool_decide (v ∉ visited) && dist_ltb (Fin w) mw) eqn:Hc.
      * eexists. split; [done|]. unfold Q. simpl.
        apply andb_prop in Hc as [Hv%bool_decide_eq_true _].
        split; [|done]. split; [done|]. split; [done|].
        exists w, nbrs. split; [done|]. rewrite Hnb. set_solver.
      * eexists. split; [done|]. unfold Q in *.
        destruct me as [[a b]|]; simpl in *; [done|].
        destruct HQi as [-> HQi]. split; [done|].
        intros u' e [H|[-> H]]; [by apply (HQi u' e); left|].
        apply elem_of_app in H as [H|H]; [by apply (HQi u e); right|].
        apply list_elem_of_singleton in H as ->. simpl.
        rewrite andb_true_r in Hc. apply bool_decide_eq_false in Hc.
        by apply dec_stable.
    + exists st'. split; [done|]. unfold Q in *.
      destruct st' as [[[a b]|] mw']; simpl in *; [done|].
      destruct HQ' as [-> HQ']. split; [done|].
      intros u' e [Hu' (nbrs' & Hn' & He')]. apply (HQ' u' e).
      apply elem_of_app in Hu' as [Hu'|Hu']; [left; eauto|].
      apply list_elem_of_singleton in Hu' as ->. right. split; [done|]. congruence.
  - exists me, mw. split; [done|]. unfold Q in HQ. simpl in HQ.
    destruct me as [[u v]|]; [by destruct HQ|].
    destruct HQ as [_ HQ]. intros u v (Hu & Hv & w & nbrs & Hn & Hin).
    apply Hv. apply (HQ u (v, w)). split; [by apply elem_of_elements|eauto].
Qed.

Lemma prim_trace_bound g visited mst_edges u :
  wf_graph g → prim_trace g visited mst_edges → u ∈ visited →
  u = 0 ∨ u < num_vertices g.
Proof.
  intros [_ Hnb] Ht. induction Ht as [|V E a b Ht IH (Ha & Hb & w & nbrs & Hn & Hin)].
  - intros ->%elem_of_singleton. by left.
  - intros [->%elem_of_singleton|Hu]%elem_of_union; [|by apply IH].
    right. by eapply Hnb.
Qed.

Lemma size_add_fresh (v : nat) (visited : gset nat) :
  v ∉ visited → size ({[v]} ∪ visited) = S (size visited).
Proof.
  intros Hv. rewrite size_union by set_solver. by rewrite size_singleton.
Qed.

(** The loop of [prim_mst] ends within [num_vertices - len(visited) + 1]
    rounds, in a state its trace explains: all vertices are visited, or no
    edge leaves the visited set. *)
Lemma prim_loop_run g fuel visited mst_edges :
  wf_graph g → prim_trace g visited mst_edges →
  num_vertices g - size visited < fuel →
  ∃ visited' mst_edges',
    prim_loop fuel g visited mst_edges = Ok mst_edges' ∧
    prim_trace g visited' mst_edges' ∧
    (num_vertices g ≤ size visited' ∨ ∀ u v, ¬ crossing g visited' u v).
Proof.
  intros Hwf. revert visited mst_edges.
  induction fuel as [|fuel IH]; intros V E Ht Hfuel; [lia|].
  simpl. case_bool_decide as Hsize.
  - destruct (prim_scan_spec g V) as (me & mw & -> & Hme).
    { intros u Hu. apply Hwf.
      destruct (prim_trace_bound g V E u Hwf Ht Hu); lia. }
    simpl. destruct me as [[u v]|].
    + apply IH; [by constructor|].
      destruct Hme as (_ & Hv & _). rewrite size_add_fresh by done. lia.
    + exists V, E. auto.
  - exists V, E. split; [done|]. split; [done|]. left. lia.
Qed.

(** On any graph the edge the scan returns leads to an unvisited vertex. *)
Lemma prim_scan_unvisited g (visited : gset nat) u v min_weight :
  prim_scan g visited = Ok (Some (u, v), min_weight) → v ∉ visited.
Proof.
  unfold prim_scan. intros Hscan.
  set (P := λ st : option (nat * nat) * dist,
              ∀ u v, st.1 = Some (u, v) → v ∉ visited).
  assert (P (Some (u, v), min_weight)) as HP; [|by apply (HP u v)].
  eapply (for_each_ok_inv _ P); [| |exact Hscan].
  - intros st a st' Hst Hb. cbn beta in Hb.
    destruct (get_neighbors g a) as [nbrs| |]; simpl in Hb; [|done..].
    eapply (for_each_ok_inv _ P); [|exact Hst|exact Hb].
    intros [me mw] [b w] st2 HP2. cbn beta iota.
    lazymatch goal with
    | |- (if ?c then _ else _) = _ → _ => destruct c eqn:Hc
    end.
    + intros [= <-]. intros ? ? [= <- <-].
      by apply andb_prop in Hc as [?%bool_decide_eq_true _].
    + by intros [= <-].
  - by intros ? ? [=].
Qed.

Lemma prim_scan_ends g (visited : gset nat) : prim_scan g visited ≠ OutOfFuel.
Proof.
  unfold prim_scan. apply for_each_ends. intros st u. cbn beta.
  destruct (get_neighbors g u) as [nbrs| |] eqn:Hn; simpl; [|done|].
  - apply for_each_ends. intros [me mw] [v w].
    by destruct (bool_decide (v ∉ visited) && _).
  - unfold get_neighbors, py_key in Hn. by destruct (adj g !! u).
Qed.

(** On any graph the loop of [prim_mst] ends within
    [num_vertices - len(visited) + 1] rounds. *)
Lemma prim_loop_ends g fuel (visited : gset nat) mst_edges :
  num_vertices g - size visited < fuel →
  prim_loop fuel g visited mst_edges ≠ OutOfFuel.
Proof.
  revert visited mst_edges. induction fuel as [|fuel IH]; intros V E Hfuel; [lia|].
  simpl. case_bool_decide as Hsize; [|done].
  destruct (prim_scan g V) as [[[[u v]|] mw]| |] eqn:Hscan; simpl; try done.
  - apply IH. apply prim_scan_unvisited in Hscan.
    rewrite size_add_fresh by done. lia.
  - by apply prim_scan_ends in Hscan.
Qed.

(** C9: on every graph, connected or not, [prim_mst] terminates: it never
    runs out of rounds. On a graph that keeps the invariant of the class it
    returns the edge list it has accumulated; every round of its loop either
    adds a vertex that was not visited before (the states form a
    [prim_trace]) or leaves the loop, and the loop is left when all vertices
    are visited or when no edge joins a visited vertex to an unvisited one. *)
Theorem prim_mst_terminates (g : Graph) :
  prim_mst g ≠ OutOfFuel ∧
  (wf_graph g →
   ∃ visited mst_edges,
     prim_mst g = Ok mst_edges ∧
     prim_trace g visited mst_edges ∧
     (num_vertices g ≤ size visited ∨ ∀ u v, ¬ crossing g visited u v)).
Proof.
  split.
  - apply prim_loop_ends. lia.
  - intros Hwf. unfold prim_mst. apply prim_loop_run; [done|constructor|lia].
Qed.

(** C6, amended: when the scan finds no edge from the visited set to an
    unvisited vertex while vertices remain unvisited, the loop of [prim_mst]
    stops and returns the edges accumulated so far as an ordinary result:
    nothing is raised. *)
Theorem prim_loop_gives_up (g : Graph) (fuel : nat) (visited : gset nat)
    (mst_edges : list (nat * nat)) :
  (∀ u, u ∈ visited → is_Some (adj g !! u)) →
  size visited < num_vertices g →
  (∀ u v, ¬ crossing g visited u v) →
  prim_loop (S fuel) g visited mst_edges = Ok mst_edges.
Proof.
  intros Hkeys Hsize Hnone. simpl. rewrite bool_decide_true by done.
  destruct (prim_scan_spec g visited Hkeys) as (me & mw & -> & Hme).
  simpl. destruct me as [[u v]|]; [|done]. by destruct (Hnone u v).
Qed.

(** ** Edge lists as undirected graphs *)

Lemma adjacent_sym edges a b : adjacent edges a b → adjacent edges b a.
Proof. unfold adjacent. tauto. Qed.

Lemma adjacent_mono edges edges' a b :
  edges ⊆ edges' → adjacent edges a b → adjacent edges' a b.
Proof. unfold adjacent. intros Hsub [H|H]; [left|right]; by apply Hsub. Qed.

Lemma connected_mono edges edges' a b :
  edges ⊆ edges' → connected edges a b → connected edges' a b.
Proof.
  intros Hsub. unfold connected. apply rtc_subrel.
  intros x y. by apply adjacent_mono.
Qed.

Lemma connected_sym edges a b : connected edges a b → connected edges b a.
Proof.
  induction 1 as [|x y z Hxy _ IH]; [apply rtc_refl|].
  eapply rtc_r; [exact IH|]. by apply adjacent_sym.
Qed.

(** A walk leaves its start only through an edge. *)
Lemma connected_endpoint edges a b :
  connected edges a b → a = b ∨ endpoint edges b.
Proof.
  intros H. apply connected_sym in H.
  destruct H as [|x y z Hxy _]; [by left|]. right. by exists y.
Qed.

(** A pendant edge [(u, v)] to a fresh vertex [v] connects nothing else. *)
Lemma connected_pendant edges u v x y :
  ¬ endpoint edges v → y ≠ v →
  connected (edges ++ [(u, v)]) x y →
  if decide (x = v) then connected edges u y else connected edges x y.
Proof.
  intros Hfresh Hy H. induction H as [x|x x' y Hstep _ IH].
  - rewrite decide_False by done. apply rtc_refl.
  - specialize (IH Hy).
    assert (adjacent edges x x' ∨ (x = u ∧ x' = v) ∨ (x = v ∧ x' = u)) as Hcases.
    { destruct Hstep as [Hin|Hin]; apply elem_of_app in Hin as [Hin|Hin].
      - left. by left.
      - apply list_elem_of_singleton in Hin. injection Hin as -> ->. auto.
      - left. by right.
      - apply list_elem_of_singleton in Hin. injection Hin as -> ->. auto. }
    destruct Hcases as [Hadj|[[-> ->]|[-> ->]]].
    + assert (x ≠ v) by (intros ->; apply Hfresh; by exists x').
      assert (x' ≠ v).
      { intros ->. apply Hfresh. exists x. by apply adjacent_sym. }
      rewrite decide_False by done. rewrite decide_False in IH by done.
      by eapply rtc_l.
    + rewrite decide_True in IH by done. by destruct (decide (u = v)) as [->|].
    + rewrite decide_True by done. destruct (decide (u = v)) as [->|]; done.
Qed.

Lemma delete_app_lt {A} (l : list A) (x : A) i :
  i < length l → delete i (l ++ [x]) = delete i l ++ [x].
Proof.
  intros Hi. rewrite !delete_take_drop.
  rewrite take_app_le by lia. rewrite drop_app_le by lia.
  by rewrite app_assoc.
Qed.

Lemma endpoint_mono edges edges' x :
  edges ⊆ edges' → endpoint edges x → endpoint edges' x.
Proof. intros Hsub [y Hy]. exists y. by eapply adjacent_mono. Qed.

Lemma endpoint_of_lookup edges i u v :
  edges !! i = Some (u, v) → endpoint edges u ∧ endpoint edges v.
Proof.
  intros H. apply list_elem_of_lookup_2 in H.
  split; [exists v; by left|exists u; by right].
Qed.

(** ** The trace of prim_mst is a tree on the visited vertices *)

Lemma prim_trace_size g visited mst_edges :
  prim_trace g visited mst_edges → size visited = S (length mst_edges).
Proof.
  induction 1 as [|V E u v _ IH (_ & Hv & _)].
  - by rewrite size_singleton.
  - rewrite size_add_fresh by done. rewrite length_app. simpl. lia.
Qed.

Lemma prim_trace_endpoint g visited mst_edges x :
  prim_trace g visited mst_edges → endpoint mst_edges x → x ∈ visited.
Proof.
  induction 1 as [|V E u v _ IH (Hu & Hv & _)]; intros [y Hxy].
  - destruct Hxy as [H|H]; by apply elem_of_nil in H.
  - destruct Hxy as [H|H]; apply elem_of_app in H as [H|H].
    + apply elem_of_union_r, IH. exists y. by left.
    + apply list_elem_of_singleton in H. injection H as -> ->. set_solver.
    + apply elem_of_union_r, IH. exists y. by right.
    + apply list_elem_of_singleton in H. injection H as -> ->. set_solver.
Qed.

Lemma prim_trace_connected g visited mst_edges x :
  prim_trace g visited mst_edges → x ∈ visited → connected mst_edges 0 x.
Proof.
  intros Ht. revert x. induction Ht as [|V E u v _ IH (Hu & Hv & _)]; intros x Hx.
  - apply elem_of_singleton in Hx as ->. apply rtc_refl.
  - apply elem_of_union in Hx as [->%elem_of_singleton|Hx].
    + eapply rtc_r.
      * eapply connected_mono; [|by apply IH]. set_solver.
      * left. set_solver.
    + eapply connected_mono; [|by apply IH]. set_solver.
Qed.

Lemma prim_trace_acyclic g visited mst_edges :
  prim_trace g visited mst_edges → acyclic mst_edges.
Proof.
  induction 1 as [|V E u v Ht IH (Hu & Hv & _)]; intros i a b Hi Hc; [done|].
  assert (¬ endpoint E v) as Hfresh.
  { intros H. by apply Hv, (prim_trace_endpoint g V E). }
  destruct (decide (i < length E)) as [Hlt|Hge].
  - rewrite lookup_app_l in Hi by done. rewrite delete_app_lt in Hc by done.
    destruct (endpoint_of_lookup E i a b Hi) as [Ha Hb].
    apply (prim_trace_endpoint g V E _ Ht) in Ha, Hb.
    apply connected_pendant in Hc.
    + rewrite decide_False in Hc by (intros ->; done). by apply (IH i a b).
    + intros H. apply Hfresh. eapply endpoint_mono; [|done].
      apply list_subseteq_delete.
    + by intros ->.
  - assert (i = length E) as ->.
    { apply lookup_lt_Some in Hi. rewrite length_app in Hi. simpl in Hi. lia. }
    rewrite list_lookup_middle in Hi by done. injection Hi as <- <-.
    rewrite delete_middle, app_nil_r in Hc.
    apply connected_endpoint in Hc as [->|Hc]; done.
Qed.

Lemma prim_trace_root g visited mst_edges :
  prim_trace g visited mst_edges → 0 ∈ visited.
Proof. induction 1; set_solver. Qed.

(** A set of fewer than [n] numbers misses one of [0 .. n-1]. *)
Lemma missing_vertex (n : nat) (visited : gset nat) :
  size visited < n → ∃ v, v < n ∧ v ∉ visited.
Proof.
  intros Hsize.
  destruct (set_choose_L (set_seq 0 n ∖ visited)) as [v Hv].
  - intros Hempty.
    assert (set_seq 0 n ⊆ visited) as Hsub by set_solver.
    apply subseteq_size in Hsub. rewrite size_set_seq in Hsub. lia.
  - exists v. apply elem_of_difference in Hv as [Hv ?].
    apply elem_of_set_seq in Hv. split; [lia|done].
Qed.

(** A set of [n] numbers below [n], at least, has them all. *)
Lemma all_vertices (n : nat) (visited : gset nat) v :
  (∀ u, u ∈ visited → u < n) → n ≤ size visited → v < n → v ∈ visited.
Proof.
  intros Hbound Hsize Hv.
  assert (visited ⊆ set_seq 0 n) as Hsub.
  { intros u Hu. apply elem_of_set_seq. specialize (Hbound u Hu). lia. }
  assert (visited = set_seq 0 n) as ->.
  { apply set_subseteq_size_eq; [done|]. by rewrite size_set_seq. }
  apply elem_of_set_seq. lia.
Qed.

(** ** prim_mst on the complete graph of plan_route *)

(** C3: on the complete graph that [plan_route] builds from an N-by-N
    distance matrix, N >= 1, [prim_mst] returns exactly N-1 edges; they are
    acyclic and connect all N vertices. *)
Theorem prim_mst_spanning_tree (n : nat) (matrix : list (list R)) :
  1 ≤ n → square n matrix →
  ∃ g mst_edges,
    build_graph n matrix = Ok g ∧
    prim_mst g = Ok mst_edges ∧
    length mst_edges = n - 1 ∧
    acyclic mst_edges ∧
    (∀ v, v < n → connected mst_edges 0 v).
Proof.
  intros Hn Hsq.
  destruct (build_graph_spec n matrix Hsq) as (g & Hg & Hwf & Hnum & Hedges).
  destruct (prim_loop_run g (S (num_vertices g)) {[0]} [] Hwf)
    as (V & E & HE & Ht & Hend); [constructor|lia|].
  fold (prim_mst g) in HE.
  exists g, E. split; [done|]. split; [done|].
  assert (∀ u, u ∈ V → u < n) as Hbound.
  { intros u Hu. destruct (prim_trace_bound g V E u Hwf Ht Hu); lia. }
  assert (n ≤ size V) as Hall.
  { rewrite Hnum in Hend. destruct Hend as [|Hnone]; [done|].
    destruct (decide (n ≤ size V)) as [|Hlt]; [done|]. exfalso.
    destruct (missing_vertex n V) as (v & Hv & Hnv); [lia|].
    pose proof (prim_trace_root g V E Ht) as H0.
    destruct (entry_square n matrix 0 v Hsq) as [w Hw]; [lia..|].
    apply (Hnone 0 v). split; [done|]. split; [done|]. exists w.
    apply Hedges. split; [by intros <-|]. left. split; [lia|done]. }
  pose proof (prim_trace_size g V E Ht) as Hsize.
  assert (size V ≤ n) as Hle.
  { assert (V ⊆ set_seq 0 n) as Hsub.
    { intros u Hu. apply elem_of_set_seq. specialize (Hbound u Hu). lia. }
    apply subseteq_size in Hsub. by rewrite size_set_seq in Hsub. }
  split; [lia|]. split; [by eapply prim_trace_acyclic|].
  intros v Hv. eapply prim_trace_connected; [done|].
  by apply (all_vertices n).
Qed.

(** ** dijkstra on the complete graph of a metric matrix *)

Lemma relax_pair u visited distances previous v weight :
  relax u visited (distances, previous) (v, weight) =
  if bool_decide (v ∉ visited) then
    du ← py_index distances u;
    dv ← py_index distances v;
    if dist_ltb (dist_add du (Fin weight)) dv then
      distances' ← py_set distances v (dist_add du (Fin weight));
      previous' ← py_set previous v (Some u);
      Ok (distances', previous')
    else Ok (distances, previous)
  else Ok (distances, previous).
Proof. done. Qed.

Section dijkstra_complete.
Context (n : nat) (matrix : list (list R)) (g : Graph) (s : nat).
Context (Hsq : square n matrix).
Context (Hg : graph_inv n matrix (λ a b, a < n ∧ b < n) g).
Context (Hsym : symmetric_matrix matrix).
Context (Htri : triangle_inequality matrix).
Context (Hs : s < n).

Lemma complete_edge u v w :
  edge_in g u v w → u ≠ v ∧ u < n ∧ v < n ∧ entry matrix u v = Some w.
Proof.
  destruct Hg as (_ & _ & He). intros [Huv H]%He.
  destruct H as [[[? ?] H]|[[? ?] H]]; [done|]. by rewrite Hsym.
Qed.

Lemma complete_neighbors u :
  u < n → ∃ nbrs, adj g !! u = Some nbrs ∧
    (∀ v w, (v, w) ∈ nbrs → u ≠ v ∧ v < n ∧ entry matrix u v = Some w) ∧
    (∀ v, v < n → v ≠ u → ∃ w, (v, w) ∈ nbrs).
Proof.
  intros Hu. destruct Hg as ((Hkeys & _) & Hn & He).
  destruct (proj2 (Hkeys u)) as [nbrs Hnbrs]; [lia|].
  exists nbrs. split; [done|]. split.
  - intros v w Hin. destruct (complete_edge u v w) as (? & ? & ? & ?); [|done].
    by exists nbrs.
  - intros v Hv Hvu. destruct (entry_square n matrix u v Hsq) as [w Hw]; [done..|].
    exists w. destruct (proj2 (He u v w)) as (nbrs' & Hn' & Hin).
    + split; [done|]. left. done.
    + congruence.
Qed.

(** The first round: relaxing the edges of [s]. *)
Lemma relax_source nbrs distances previous :
  (∀ v w, (v, w) ∈ nbrs → s ≠ v ∧ v < n ∧ entry matrix s v = Some w) →
  distances !! s = Some (Fin 0) → length distances = n → length previous = n →
  (∀ v, v < n → v ≠ s → untouched distances previous v) →
  ∃ distances' previous',
    for_each (relax s ({[s]} ∪ ∅)) (distances, previous) nbrs
      = Ok (distances', previous') ∧
    distances' !! s = Some (Fin 0) ∧ previous' !! s = previous !! s ∧
    length distances' = n ∧ length previous' = n ∧
    (∀ v w, (v, w) ∈ nbrs → settled matrix s distances' previous' v) ∧
    (∀ v, v < n → v ≠ s →
       settled matrix s distances' previous' v ∨ untouched distances' previous' v).
Proof.
  intros Hnb Hds Hld Hlp Hun.
  destruct (for_each_inv (relax s ({[s]} ∪ ∅))
    (λ pre st,
       st.1 !! s = Some (Fin 0) ∧ st.2 !! s = previous !! s ∧
       length st.1 = n ∧ length st.2 = n ∧
       (∀ v w, (v, w) ∈ pre → settled matrix s st.1 st.2 v) ∧
       (∀ v, v < n → v ≠ s → settled matrix s st.1 st.2 v ∨ untouched st.1 st.2 v))
    nbrs (distances, previous)) as ([D P] & He & HI).
  - simpl. repeat split; try done.
    + intros v w H. by apply elem_of_nil in H.
    + intros v Hv Hvs. right. by apply Hun.
  - intros pre [v w] suf [D P] Hl (HDs & HPs & HlD & HlP & Hpre & Hall).
    simpl in *.
    destruct (Hnb v w) as (Hsv & Hv & Hw); [rewrite Hl; set_solver|].
    unfold relax. rewrite bool_decide_true by set_solver.
    rewrite (py_index_ok _ _ _ HDs). cbn [mbind result_bind dist_add].
    destruct (Hall v Hv) as [(x & Hx & HDv & HPv)|[HDv HPv]]; [done| |].
    + (* already relaxed: the second copy of the edge changes nothing *)
      rewrite (py_index_ok _ _ _ HDv). cbn [mbind result_bind dist_ltb].
      rewrite bool_decide_false by (assert (x = w) by congruence; lra).
      eexists. split; [done|]. simpl. repeat split; try done.
      intros v' w' [H|H]%elem_of_app; [by eapply Hpre|].
      apply list_elem_of_singleton in H as [= -> ->]. by exists x.
    + rewrite (py_index_ok _ _ _ HDv). cbn [mbind result_bind dist_ltb].
      rewrite !py_set_ok by lia. cbn [mbind result_bind].
      eexists. split; [done|]. simpl.
      assert (settled matrix s (<[v:=Fin (0 + w)]> D) (<[v:=Some s]> P) v) as Hset.
      { exists w. split; [done|]. rewrite Rplus_0_l.
        rewrite !list_lookup_insert_eq by lia. done. }
      assert (∀ v', v' ≠ v →
                (settled matrix s D P v' → settled matrix s (<[v:=Fin (0 + w)]> D) (<[v:=Some s]> P) v') ∧
                (untouched D P v' → untouched (<[v:=Fin (0 + w)]> D) (<[v:=Some s]> P) v')) as Hkeep.
      { intros v' Hne. unfold settled, untouched.
        rewrite !list_lookup_insert_ne by done. done. }
      repeat split.
      * by rewrite list_lookup_insert_ne.
      * by rewrite list_lookup_insert_ne.
      * by rewrite length_insert.
      * by rewrite length_insert.
      * intros v' w' [H|H]%elem_of_app.
        -- destruct (decide (v' = v)) as [->|Hne]; [done|].
           apply Hkeep; [done|]. by eapply Hpre.
        -- apply list_elem_of_singleton in H as [= -> ->]. done.
      * intros v' Hv' Hv's. destruct (decide (v' = v)) as [->|Hne]; [by left|].
        destruct (Hall v' Hv' Hv's); [left|right]; by apply Hkeep.
  - exists D, P. split; [done|]. simpl in HI. naive_solver.
Qed.

(** A later round: relaxing the edges of [u] changes nothing, by the
    triangle inequality. *)
Lemma relax_settled u visited nbrs distances previous :
  (∀ v w, (v, w) ∈ nbrs → u ≠ v ∧ v < n ∧ entry matrix u v = Some w) →
  s ∈ visited → u ≠ s → u < n →
  (∀ v, v < n → v ≠ s → settled matrix s distances previous v) →
  for_each (relax u visited) (distances, previous) nbrs = Ok (distances, previous).
Proof.
  intros Hnb Hsv Hus Hu Hall. induction nbrs as [|[v w] nbrs IH]; [done|].
  cbn [for_each]. rewrite relax_pair.
  destruct (Hnb v w) as (Huv & Hv & Hw); [set_solver|].
  case_bool_decide as Hvis; cbn [mbind result_bind].
  - destruct (Hall u Hu Hus) as (x & Hx & HDu & _).
    destruct (Hall v Hv) as (y & Hy & HDv & _); [by intros ->|].
    rewrite (py_index_ok _ _ _ HDu). cbn [mbind result_bind dist_add].
    rewrite (py_index_ok _ _ _ HDv). cbn [mbind result_bind dist_ltb].
    rewrite bool_decide_false.
    + cbn [mbind result_bind]. apply IH. intros v' w' H. apply Hnb. set_solver.
    + pose proof (Htri s v u y x w Hy Hx Hw). lra.
  - apply IH. intros v' w' H. apply Hnb. set_solver.
Qed.

(** The loop after the first round: the state no longer changes, and the
    loop ends. *)
Lemma dijkstra_loop_settled fuel end_ distances previous visited :
  s ∈ visited → (end_ ∉ visited) → end_ < n →
  length distances = n →
  (∀ v, v < n → v ≠ s → settled matrix s distances previous v) →
  n - size visited < fuel →
  dijkstra_loop fuel g end_ distances previous visited = Ok (distances, previous).
Proof.
  intros Hsv. revert visited Hsv.
  induction fuel as [|fuel IH]; intros V Hsv Hend Hen HlD Hall Hfuel; [lia|].
  assert (num_vertices g = n) as Hn by apply Hg.
  cbn [dijkstra_loop]. rewrite Hn. case_bool_decide as Hsize; [|done].
  destruct (select_min_spec n distances V HlD) as (u & md & -> & Hu).
  cbn [mbind result_bind]. destruct u as [u|]; [|done].
  destruct Hu as (Hun & HuV & _ & _).
  case_bool_decide as Hue; [done|].
  destruct (complete_neighbors u Hun) as (nbrs & Hnbrs & Hnb & _).
  unfold get_neighbors. rewrite (py_key_ok _ _ _ Hnbrs). cbn [mbind result_bind].
  rewrite (relax_settled u ({[u]} ∪ V) nbrs distances previous);
    [|done|set_solver|by intros ->|done|done].
  cbn [mbind result_bind]. apply IH; [set_solver|set_solver|done..|].
  rewrite size_add_fresh by done. lia.
Qed.

(** From [s] to another vertex [t]: the direct edge. *)
Lemma dijkstra_other_vertex t x :
  t < n → s ≠ t → entry matrix s t = Some x →
  dijkstra g s t = Ok ([s; t], Fin x).
Proof.
  intros Ht Hst Hx.
  assert (num_vertices g = n) as Hn by apply Hg.
  unfold dijkstra. rewrite Hn.
  rewrite py_set_ok by (by rewrite length_replicate).
  cbn [mbind result_bind dijkstra_loop]. rewrite Hn.
  rewrite bool_decide_true by (rewrite size_empty; lia).
  set (D0 := <[s := Fin 0]> (replicate n Inf)).
  set (P0 := replicate n (@None nat)).
  assert (D0 !! s = Some (Fin 0)) as HD0s.
  { apply list_lookup_insert_eq. by rewrite length_replicate. }
  assert (length D0 = n) as HlD0 by (unfold D0; by rewrite length_insert, length_replicate).
  assert (∀ v, v < n → v ≠ s → untouched D0 P0 v) as Hun0.
  { intros v Hv Hvs. split.
    - unfold D0. rewrite list_lookup_insert_ne by done. by apply lookup_replicate_2.
    - by apply lookup_replicate_2. }
  destruct (select_min_spec n D0 ∅ HlD0) as (u & md & -> & Hu).
  cbn [mbind result_bind].
  destruct u as [u|]; cycle 1.
  { exfalso. specialize (Hu s Hs (not_elem_of_empty s)). congruence. }
  destruct Hu as (Hun & _ & Hdu & Hfin).
  assert (u = s) as ->.
  { destruct (decide (u = s)) as [|Hne]; [done|].
    destruct (Hun0 u Hun Hne) as [HD _]. congruence. }
  rewrite bool_decide_false by done.
  destruct (complete_neighbors s Hs) as (nbrs & Hnbrs & Hnb & Hall).
  unfold get_neighbors. rewrite (py_key_ok _ _ _ Hnbrs). cbn [mbind result_bind].
  destruct (relax_source nbrs D0 P0) as (D1 & P1 & -> & HD1s & HP1s & HlD1 & HlP1 & Hset & _);
    [done|done|done|by apply length_replicate|done|].
  cbn [mbind result_bind].
  assert (∀ v, v < n → v ≠ s → settled matrix s D1 P1 v) as Hsettled.
  { intros v Hv Hvs. destruct (Hall v Hv Hvs) as [w Hw]. by eapply Hset. }
  rewrite dijkstra_loop_settled; [|set_solver|set_solver|done..|].
  2:{ rewrite size_union, size_singleton, size_empty by set_solver. lia. }
  cbn [mbind result_bind].
  destruct (Hsettled t Ht) as (y & Hy & HDt & HPt); [done|].
  assert (y = x) as -> by congruence.
  cbn [reconstruct]. rewrite (py_index_ok _ _ _ HPt). cbn [mbind result_bind].
  destruct n as [|n']; [lia|]. cbn [reconstruct].
  assert (P1 !! s = Some None) as HP1s'.
  { rewrite HP1s. by apply lookup_replicate_2. }
  rewrite (py_index_ok _ _ _ HP1s'). cbn [mbind result_bind].
  destruct n' as [|n'']; [lia|]. cbn [reconstruct mbind result_bind].
  by rewrite (py_index_ok _ _ _ HDt).
Qed.

End dijkstra_complete.

(** C1, amended: on the complete graph built from an N-by-N distance
    matrix that is symmetric, has a zero diagonal and satisfies the triangle
    inequality, [dijkstra(graph, i, j)] returns the distance [matrix[i][j]]
    for every pair of vertices: the per-segment search gives what a lookup
    in the matrix gives. *)
Theorem dijkstra_direct_edge (n : nat) (matrix : list (list R)) (i j : nat) :
  square n matrix → zero_diagonal n matrix → symmetric_matrix matrix →
  triangle_inequality matrix → i < n → j < n →
  ∃ g path x,
    build_graph n matrix = Ok g ∧
    dijkstra g i j = Ok (path, Fin x) ∧
    entry matrix i j = Some x.
Proof.
  intros Hsq Hdiag Hsym Htri Hi Hj.
  destruct (build_graph_spec n matrix Hsq) as (g & Hb & Hg).
  destruct (entry_square n matrix i j Hsq Hi Hj) as [x Hx].
  exists g. destruct (decide (i = j)) as [->|Hne].
  - exists [j], 0%R. split; [done|]. split; [|by apply Hdiag].
    apply dijkstra_to_itself. destruct Hg as (_ & -> & _). done.
  - exists [i; j], x. split; [done|]. split; [|done].
    by apply (dijkstra_other_vertex n matrix).
Qed.

(** ** dfs_traversal *)

Lemma dfs_adj_step n edges adj u v :
  dfs_adj_inv n edges adj → u < n → v < n →
  ∃ adj',
    (nbrs_u ← py_key adj u;
     let adj := <[u := nbrs_u ++ [v]]> adj in
     nbrs_v ← py_key adj v;
     Ok (<[v := nbrs_v ++ [u]]> adj)) = Ok adj' ∧
    dfs_adj_inv n (edges ++ [(u, v)]) adj'.
Proof.
  intros [Hkeys Hnb] Hu Hv.
  destruct (proj2 (Hkeys u) Hu) as [lu Hlu].
  rewrite (py_key_ok _ _ _ Hlu). cbn [mbind result_bind].
  set (adj1 := <[u := lu ++ [v]]> adj).
  assert (∀ a, is_Some (adj1 !! a) ↔ a < n) as Hkeys1.
  { intros a. unfold adj1. destruct (decide (a = u)) as [->|].
    - rewrite lookup_insert_eq. split; [done|eauto].
    - by rewrite lookup_insert_ne. }
  assert (∀ a nbrs, adj1 !! a = Some nbrs →
            ∀ b, b ∈ nbrs ↔ adjacent edges a b ∨ (a = u ∧ b = v)) as Hnb1.
  { intros a nbrs. unfold adj1. destruct (decide (a = u)) as [->|].
    - rewrite lookup_insert_eq. intros [= <-] b.
      rewrite elem_of_app, list_elem_of_singleton, (Hnb u lu Hlu). naive_solver.
    - rewrite lookup_insert_ne by done. intros Ha b. rewrite (Hnb a nbrs Ha).
      naive_solver. }
  destruct (proj2 (Hkeys1 v) Hv) as [lv Hlv].
  rewrite (py_key_ok _ _ _ Hlv). cbn [mbind result_bind].
  eexists. split; [done|]. split.
  - intros a. destruct (decide (a = v)) as [->|].
    + rewrite lookup_insert_eq. split; [done|eauto].
    + by rewrite lookup_insert_ne.
  - intros a nbrs Ha b.
    assert (adjacent (edges ++ [(u, v)]) a b ↔
            adjacent edges a b ∨ (a = u ∧ b = v) ∨ (a = v ∧ b = u)) as ->.
    { unfold adjacent. rewrite !elem_of_app, !list_elem_of_singleton.
      split; [|naive_solver].
      intros [[?|[= -> ->]]|[?|[= -> ->]]]; auto. }
    destruct (decide (a = v)) as [->|].
    + rewrite lookup_insert_eq in Ha. injection Ha as <-.
      rewrite elem_of_app, list_elem_of_singleton, (Hnb1 v lv Hlv). naive_solver.
    + rewrite lookup_insert_ne in Ha by done. rewrite (Hnb1 a nbrs Ha).
      naive_solver.
Qed.

Lemma dfs_adj_spec edges :
  (∀ a b, (a, b) ∈ edges → a < length edges + 1 ∧ b < length edges + 1) →
  ∃ adj, dfs_adj edges = Ok adj ∧ dfs_adj_inv (length edges + 1) edges adj.
Proof.
  intros Hends. unfold dfs_adj. set (n := length edges + 1).
  apply (for_each_inv _ (λ pre adj, dfs_adj_inv n pre adj)).
  - split.
    + intros u. rewrite empty_lists_lookup. case_decide.
      * split; [lia|eauto].
      * split; [by intros [? ?]|lia].
    + intros u nbrs. rewrite empty_lists_lookup. case_decide; [|done].
      intros [= <-] v. split; [by intros ?%elem_of_nil|].
      intros [Hin|Hin]; by apply elem_of_nil in Hin.
  - intros pre [u v] suf adj Hl Hinv.
    destruct (Hends u v) as [Hu Hv]; [rewrite Hl; set_solver|].
    by apply dfs_adj_step.
Qed.

Lemma dfs_post_refl n edges st : dfs_post n edges st st.
Proof.
  split; [done|]. split; [auto|]. exists []. rewrite app_nil_r.
  split; [done|]. split; [constructor|]. split.
  - intros x. split; [by intros ?%elem_of_nil|]. by intros [? ?].
  - intros x y ? ?. done.
Qed.

Lemma dfs_post_trans n edges st1 st2 st3 :
  dfs_post n edges st1 st2 → dfs_post n edges st2 st3 → dfs_post n edges st1 st3.
Proof.
  intros (Hsub1 & Hb1 & new1 & HL1 & Hnd1 & Hin1 & Hcl1)
         (Hsub2 & Hb2 & new2 & HL2 & Hnd2 & Hin2 & Hcl2).
  split; [set_solver|]. split.
  { intros x Hx. destruct (Hb2 x Hx) as [H|H]; [by apply Hb1|by right]. }
  exists (new1 ++ new2). split; [by rewrite HL2, HL1, app_assoc|]. split.
  { apply NoDup_app. split; [done|]. split; [|done].
    intros x Hx1 Hx2. apply Hin1 in Hx1 as [? _]. apply Hin2 in Hx2 as [_ ?]. done. }
  split.
  - intros x. rewrite elem_of_app, Hin1, Hin2.
    destruct (decide (x ∈ st2.1)); set_solver.
  - intros x y Hx3 Hx1 Hxy. destruct (decide (x ∈ st2.1)) as [Hx2|Hx2].
    + apply Hsub2. by apply (Hcl1 x y).
    + by apply (Hcl2 x y).
Qed.

Section dfs.
Context (n : nat) (edges : list (nat * nat)) (adj : gmap nat (list nat)).
Context (Hends : ∀ a b, (a, b) ∈ edges → a < n ∧ b < n).
Context (Hadj : dfs_adj_inv n edges adj).

Lemma adjacent_bound u v : adjacent edges u v → u < n ∧ v < n.
Proof. intros [H|H]; apply Hends in H; lia. Qed.

Lemma unvisited_le (V V' : gset nat) :
  V ⊆ V' → size (set_seq 0 n ∖ V' : gset nat) ≤ size (set_seq 0 n ∖ V : gset nat).
Proof. intros H. apply subseteq_size. set_solver. Qed.

Lemma unvisited_lt (V : gset nat) u :
  u < n → u ∉ V →
  size (set_seq 0 n ∖ ({[u]} ∪ V) : gset nat) < size (set_seq 0 n ∖ V : gset nat).
Proof.
  intros Hu HuV. apply subset_size. split; [set_solver|].
  intros Hsub. assert (u ∈ (set_seq 0 n ∖ V : gset nat)) as Hin.
  { apply elem_of_difference. split; [|done]. apply elem_of_set_seq. lia. }
  apply Hsub in Hin. set_solver.
Qed.

(** A run of [dfs] calls over a list of neighbours, given what one call does. *)
Lemma dfs_neighbors fuel :
  (∀ u st, u < n → size (set_seq 0 n ∖ st.1 : gset nat) < fuel →
     ∃ st', dfs fuel adj st u = Ok st' ∧ dfs_post n edges st st' ∧ u ∈ st'.1) →
  ∀ nbrs st, (∀ v, v ∈ nbrs → v < n) →
    size (set_seq 0 n ∖ st.1 : gset nat) < fuel →
    ∃ st', for_each (dfs fuel adj) st nbrs = Ok st' ∧ dfs_post n edges st st' ∧
           ∀ v, v ∈ nbrs → v ∈ st'.1.
Proof.
  intros Hcall. induction nbrs as [|v nbrs IH]; intros st Hb Hfuel.
  - exists st. split; [done|]. split; [apply dfs_post_refl|].
    by intros v ?%elem_of_nil.
  - destruct (Hcall v st) as (st1 & Hrun & Hpost1 & Hv); [set_solver|done|].
    cbn [for_each]. rewrite Hrun. cbn [mbind result_bind].
    destruct (IH st1) as (st2 & -> & Hpost2 & Hall); [set_solver| |].
    { pose proof (unvisited_le st.1 st1.1 (proj1 Hpost1)). lia. }
    exists st2. split; [done|]. split; [by eapply dfs_post_trans|].
    intros v' [->|Hv']%elem_of_cons; [|by apply Hall].
    by apply (proj1 Hpost2).
Qed.

(** One call of [dfs], with fuel above the number of unvisited vertices. *)
Lemma dfs_run fuel u st :
  u < n → size (set_seq 0 n ∖ st.1 : gset nat) < fuel →
  ∃ st', dfs fuel adj st u = Ok st' ∧ dfs_post n edges st st' ∧ u ∈ st'.1.
Proof.
  revert u st. induction fuel as [|fuel IH]; intros u [V L] Hu Hfuel; [lia|].
  cbn [dfs]. case_bool_decide as HuV.
  - exists (V, L). split; [done|]. split; [apply dfs_post_refl|done].
  - destruct (proj2 (proj1 Hadj u) Hu) as [nbrs Hnbrs].
    rewrite (py_key_ok _ _ _ Hnbrs). cbn [mbind result_bind].
    simpl in Hfuel. pose proof (unvisited_lt V u Hu HuV) as Hlt.
    destruct (dfs_neighbors fuel IH nbrs ({[u]} ∪ V, L ++ [u]))
      as ([V' L'] & -> & Hpost & Hall).
    { intros v Hv. apply (proj2 Hadj u nbrs Hnbrs) in Hv.
      by apply adjacent_bound in Hv as [_ ?]. }
    { simpl. lia. }
    destruct Hpost as (Hsub & Hb & new & HL & Hnd & Hin & Hcl). simpl in *.
    exists (V', L'). split; [done|]. split; [|set_solver].
    split; [set_solver|]. split.
    { intros x Hx. destruct (Hb x Hx) as [[->%elem_of_singleton|H]%elem_of_union|H]; auto. }
    exists (u :: new). simpl. split; [by rewrite HL, <- app_assoc|]. split.
    { constructor; [|done]. intros Hun%Hin. set_solver. }
    split.
    + intros x. rewrite elem_of_cons, Hin.
      destruct (decide (x = u)) as [->|]; set_solver.
    + intros x y Hx HxV Hxy. destruct (decide (x = u)) as [->|Hne].
      * apply Hall. by apply (proj2 Hadj u nbrs Hnbrs).
      * apply (Hcl x y); [done|set_solver|done].
Qed.

(** The first vertex a call appends is the one it is called on. *)
Lemma dfs_run_head fuel u st st' :
  u < n → u ∉ st.1 → size (set_seq 0 n ∖ st.1 : gset nat) < fuel →
  dfs fuel adj st u = Ok st' → ∃ rest, st'.2 = st.2 ++ u :: rest.
Proof.
  destruct fuel as [|fuel]; [lia|]. destruct st as [V L]. simpl.
  intros Hu HuV Hfuel. rewrite bool_decide_false by done.
  destruct (proj2 (proj1 Hadj u) Hu) as [nbrs Hnbrs].
  rewrite (py_key_ok _ _ _ Hnbrs). cbn [mbind result_bind].
  pose proof (unvisited_lt V u Hu HuV) as Hlt.
  destruct (dfs_neighbors fuel (dfs_run fuel) nbrs ({[u]} ∪ V, L ++ [u]))
    as (st2 & -> & (_ & _ & new & HL & _) & _).
  { intros v Hv. apply (proj2 Hadj u nbrs Hnbrs) in Hv.
    by apply adjacent_bound in Hv as [_ ?]. }
  { simpl. lia. }
  intros [= <-]. exists new. simpl in HL. by rewrite HL, <- app_assoc.
Qed.

End dfs.

(** A set closed under adjacency holds everything connected to its members. *)
Lemma connected_closed edges (V : gset nat) a b :
  (∀ x y, x ∈ V → adjacent edges x y → y ∈ V) →
  connected edges a b → a ∈ V → b ∈ V.
Proof. intros Hcl. induction 1; eauto. Qed.

(** C2: for every tree edge list with N-1 edges connecting the vertices
    0..N-1 (N >= 1) and every start vertex among them, [dfs_traversal]
    returns a sequence of length N that is a permutation of 0..N-1 and
    begins with the start vertex. *)
Theorem dfs_traversal_permutation (n : nat) (tree_edges : list (nat * nat))
    (start : nat) :
  tree_on n tree_edges → start < n →
  ∃ order,
    dfs_traversal tree_edges start = Ok order ∧
    length order = n ∧
    order ≡ₚ seq 0 n ∧
    head order = Some start.
Proof.
  intros (Hlen & Hends & Hconn) Hstart. unfold dfs_traversal.
  destruct (dfs_adj_spec tree_edges) as (adj & -> & Hadj).
  { by rewrite Hlen. }
  rewrite Hlen in Hadj. cbn [mbind result_bind].
  assert (size (set_seq 0 n ∖ (∅, @nil nat).1 : gset nat) < length tree_edges + 2)
    as Hfuel.
  { simpl. rewrite difference_empty_L, size_set_seq. lia. }
  destruct (dfs_run n tree_edges adj Hends Hadj _ start (∅, []) Hstart Hfuel)
    as ([V order] & Hrun & Hpost & HsV).
  destruct (dfs_run_head n tree_edges adj Hends Hadj _ start (∅, []) _ Hstart
              (not_elem_of_empty start) Hfuel Hrun) as [rest Hhead].
  rewrite Hrun. cbn [mbind result_bind]. exists order. split; [done|].
  destruct Hpost as (_ & Hb & new & HL & Hnd & Hin & Hcl). simpl in *. subst new.
  assert (∀ v, v ∈ order ↔ v < n) as Hall.
  { intros v. rewrite Hin. split.
    - intros [Hv _]. destruct (Hb v Hv) as [?%not_elem_of_empty|]; done.
    - intros Hv. split; [|apply not_elem_of_empty].
      apply (connected_closed tree_edges V start); [|  |done].
      + intros x y Hx Hxy. apply (Hcl x y); [done|apply not_elem_of_empty|done].
      + etrans; [apply connected_sym, Hconn, Hstart|by apply Hconn]. }
  assert (order ≡ₚ seq 0 n) as Hperm.
  { apply NoDup_Permutation; [done|apply NoDup_seq|].
    intros v. rewrite Hall, elem_of_seq. lia. }
  split; [by rewrite Hperm, length_seq|]. split; [done|]. by subst order.
Qed.


Lemma dfs_traversal_permutation_witness :
  ∃ order,
    dfs_traversal [(0, 1); (0, 2)] 1 = Ok order ∧
    length order = 3 ∧
    order ≡ₚ seq 0 3 ∧
    head order = Some 1.
Proof.
  apply (dfs_traversal_permutation 3 [(0, 1); (0, 2)] 1); [|lia].
  split; [done|]. split.
  - intros a b Hin.
    repeat (apply elem_of_cons in Hin as [[= -> ->]|Hin]; [lia|]).
    by apply elem_of_nil in Hin.
  - intros [|[|[|v]]] Hv; [apply rtc_refl| | |lia].
    + apply rtc_once. left. apply list_elem_of_here.
    + apply rtc_once. left. apply list_elem_of_further, list_elem_of_here.
Defined.

(** The traversal order of that tree from 1, and of a star from its centre:
    neighbours are taken in the order the edges were listed. *)
Example dfs_traversal_from_leaf : dfs_traversal [(0, 1); (0, 2)] 1 = Ok [1; 0; 2].
Proof. vm_compute. reflexivity. Qed.

Example dfs_traversal_chain :
  dfs_traversal [(0, 1); (1, 2); (2, 3)] 0 = Ok [0; 1; 2; 3].
Proof. vm_compute. reflexivity. Qed.

(** ** Runs on sample inputs *)

Lemma build_triangle (z a b c : R) :
  build_graph 3 [[z; a; b]; [a; z; c]; [b; c; z]] = Ok (triangle_graph a b c).
Proof. vm_compute. reflexivity. Qed.

Lemma triangle_neighbors a b c :
  get_neighbors (triangle_graph a b c) 0 = Ok [(1, a); (2, b); (1, a); (2, b)] ∧
  get_neighbors (triangle_graph a b c) 1 = Ok [(0, a); (0, a); (2, c); (2, c)] ∧
  get_neighbors (triangle_graph a b c) 2 = Ok [(0, b); (1, c); (0, b); (1, c)].
Proof. repeat split; vm_compute; reflexivity. Qed.

Lemma dijkstra_loop_S fuel g end_ distances previous visited :
  dijkstra_loop (S fuel) g end_ distances previous visited =
  if bool_decide (size visited < num_vertices g) then
    '(u, _) ← select_min (num_vertices g) distances visited;
    match u with
    | None => Ok (distances, previous)
    | Some u =>
        if bool_decide (u = end_) then Ok (distances, previous)
        else
          let visited := {[u]} ∪ visited in
          nbrs ← get_neighbors g u;
          '(distances, previous) ←
            for_each (relax u visited) (distances, previous) nbrs;
          dijkstra_loop fuel g end_ distances previous visited
    end
  else Ok (distances, previous).
Proof. done. Qed.

(** Symbolic evaluation of a run: unfold the loops and settle each test. *)
Ltac decide_test :=
  match goal with
  | |- context [bool_decide ?P] =>
      first [ rewrite (bool_decide_true P) by
                first [lra | lia | set_solver | vm_compute; lia]
            | rewrite (bool_decide_false P) by
                first [lra | lia | set_solver | vm_compute; lia] ]
  end.

Ltac run_step :=
  first
    [ progress cbn [for_each seq mbind result_bind py_index lookup
                    list_lookup insert list_insert dist_add dist_ltb relax
                    select_min length negb andb fst snd]
    | rewrite py_set_ok by (simpl; lia)
    | decide_test ].

(** With [b + c < a] the search from 0 to 1 goes through 2. *)
Lemma dijkstra_triangle_detour a b c :
  (0 < b)%R → (0 < c)%R → (b + c < a)%R →
  dijkstra (triangle_graph a b c) 0 1 = Ok ([0; 2; 1], Fin (0 + b + c)).
Proof.
  intros Hb Hc Hbc.
  destruct (triangle_neighbors a b c) as (N0 & N1 & N2).
  unfold dijkstra. cbn [num_vertices triangle_graph replicate].
  repeat run_step.
  rewrite dijkstra_loop_S. cbn [num_vertices triangle_graph].
  repeat run_step. rewrite N0. repeat run_step.
  rewrite dijkstra_loop_S. cbn [num_vertices triangle_graph].
  repeat run_step. rewrite N2. repeat run_step.
  rewrite dijkstra_loop_S. cbn [num_vertices triangle_graph].
  repeat run_step. cbn [reconstruct]. repeat run_step.
  done.
Qed.

(** C1 as stated fails: the matrix [[0,10,1],[10,0,1],[1,1,0]] is symmetric,
    and on its complete graph [dijkstra(graph, 0, 1)] returns the path
    [0, 2, 1] of length 2, not [matrix[0][1] = 10]. *)
Lemma dijkstra_detour_beats_direct_edge :
  symmetric_matrix detour_matrix ∧
  ∃ g, build_graph 3 detour_matrix = Ok g ∧
       dijkstra g 0 1 = Ok ([0; 2; 1], Fin (0 + 1 + 1)) ∧
       entry detour_matrix 0 1 = Some 10%R ∧
       (0 + 1 + 1 ≠ 10)%R.
Proof.
  split.
  - intros [|[|[|i]]] [|[|[|j]]]; reflexivity.
  - exists (triangle_graph 10 1 1). split; [apply build_triangle|].
    split; [apply dijkstra_triangle_detour; lra|]. split; [done|lra].
Qed.

Lemma dijkstra_direct_edge_witness :
  ∃ g path x,
    build_graph 2 line_matrix = Ok g ∧
    dijkstra g 0 1 = Ok (path, Fin x) ∧
    entry line_matrix 0 1 = Some x.
Proof.
  apply (dijkstra_direct_edge 2 line_matrix 0 1).
  - split; [done|]. repeat constructor.
  - intros [|[|i]] Hi; [done|done|lia].
  - intros [|[|i]] [|[|j]]; reflexivity.
  - intros [|[|i]] [|[|j]] [|[|k]] x y z; cbn; intros; simplify_eq; lra.
  - lia.
  - lia.
Defined.

Lemma prim_mst_spanning_tree_witness :
  ∃ g mst_edges,
    build_graph 3 sample_matrix = Ok g ∧
    prim_mst g = Ok mst_edges ∧
    length mst_edges = 2 ∧
    acyclic mst_edges ∧
    (∀ v, v < 3 → connected mst_edges 0 v).
Proof.
  apply (prim_mst_spanning_tree 3 sample_matrix).
  - lia.
  - split; [done|]. repeat constructor.
Defined.

(** Two vertices and no edge. *)
Lemma prim_mst_terminates_witness :
  ∃ visited mst_edges,
    prim_mst (Graph_init 2) = Ok mst_edges ∧
    prim_trace (Graph_init 2) visited mst_edges ∧
    (2 ≤ size visited ∨ ∀ u v, ¬ crossing (Graph_init 2) visited u v).
Proof.
  destruct (prim_mst_terminates (Graph_init 2)) as [_ Hrun].
  apply Hrun, Graph_init_wf.
Defined.

Lemma no_crossing_without_edges n visited u v : ¬ crossing (Graph_init n) visited u v.
Proof. intros (_ & _ & w & H). by apply Graph_init_no_edge in H. Qed.

(** C6 as stated fails: on the graph with two vertices and no edge the scan
    finds no connecting edge while vertex 1 is unvisited; [prim_mst] returns
    the empty edge list as an ordinary result, and the later steps of
    [plan_route] return a plan that visits vertex 0 only. *)
Lemma prim_mst_partial_result :
  prim_mst (Graph_init 2) = Ok [] ∧
  size ({[0]} : gset nat) < num_vertices (Graph_init 2) ∧
  (∀ u v, ¬ crossing (Graph_init 2) {[0]} u v) ∧
  ∃ plan,
    plan_steps (λ _, RequestFails) 0 [(0, 0); (0, 1)]%R (Graph_init 2) = Ok plan ∧
    visiting_order plan = [0].
Proof.
  split; [vm_compute; reflexivity|]. split; [vm_compute; lia|].
  split; [apply no_crossing_without_edges|].
  eexists. split; [reflexivity|]. reflexivity.
Qed.

Lemma prim_loop_gives_up_witness :
  prim_loop 3 (Graph_init 2) {[0]} [] = Ok [].
Proof.
  apply (prim_loop_gives_up (Graph_init 2) 2 {[0]} []).
  - intros u ->%elem_of_singleton. apply Graph_init_wf. simpl. lia.
  - rewrite size_singleton. simpl. lia.
  - apply no_crossing_without_edges.
Defined.

Lemma build_line (z h : R) :
  build_graph 2 [[z; h]; [h; z]] = Ok (line_graph h).
Proof. vm_compute. reflexivity. Qed.

Lemma line_neighbors h :
  get_neighbors (line_graph h) 0 = Ok [(1, h); (1, h)] ∧
  get_neighbors (line_graph h) 1 = Ok [(0, h); (0, h)].
Proof. split; vm_compute; reflexivity. Qed.

Lemma prim_loop_S fuel g visited mst_edges :
  prim_loop (S fuel) g visited mst_edges =
  if bool_decide (size visited < num_vertices g) then
    '(min_edge, _) ← prim_scan g visited;
    match min_edge with
    | None => Ok mst_edges
    | Some (u, v) => prim_loop fuel g ({[v]} ∪ visited) (mst_edges ++ [(u, v)])
    end
  else Ok mst_edges.
Proof. done. Qed.

(** The minimum spanning tree of two vertices is their edge. *)
Lemma prim_mst_line h : prim_mst (line_graph h) = Ok [(0, 1)].
Proof.
  destruct (line_neighbors h) as [N0 N1].
  unfold prim_mst. cbn [num_vertices line_graph].
  rewrite prim_loop_S. cbn [num_vertices line_graph].
  rewrite bool_decide_true by (vm_compute; lia).
  unfold prim_scan.
  replace (elements ({[0]} : gset nat)) with [0] by (vm_compute; reflexivity).
  cbn [for_each mbind result_bind]. rewrite N0.
  repeat run_step.
  rewrite prim_loop_S. cbn [num_vertices line_graph app].
  rewrite bool_decide_false by (vm_compute; lia). done.
Qed.

Lemma dijkstra_line h :
  dijkstra (line_graph h) 0 1 = Ok ([0; 1], Fin (0 + h)).
Proof.
  destruct (line_neighbors h) as [N0 N1].
  unfold dijkstra. cbn [num_vertices line_graph replicate].
  repeat run_step.
  rewrite dijkstra_loop_S. cbn [num_vertices line_graph].
  repeat run_step. rewrite N0. repeat run_step.
  rewrite dijkstra_loop_S. cbn [num_vertices line_graph].
  repeat run_step. cbn [reconstruct]. repeat run_step.
  done.
Qed.

(** End-to-end scenario 1 of the specification: two points and a routing
    service that is unreachable. *)
Example plan_route_two_points :
  plan_route (λ _, RequestFails) [(0, 0); (0, 1)]%R =
    Ok {| visiting_order := [0; 1];
          route_coords := [(0, 0); (0, 1)]%R;
          total_distance := round2 (Fin (0 + (0 + haversine_distance 0 0 0 1)));
          road_segments := [[[JNum 0; JNum 0]; [JNum 0; JNum 1]]] |}.
Proof.
  unfold plan_route. rewrite bool_decide_false by (simpl; lia).
  change (build_distance_matrix (λ _, RequestFails) 0 [(0, 0); (0, 1)]%R)
    with (Ok ([[0; haversine_distance 0 0 0 1];
               [haversine_distance 0 0 0 1; 0]]%R, 1) : result _).
  cbn [mbind result_bind length]. rewrite build_line. cbn [mbind result_bind].
  unfold plan_steps. rewrite prim_mst_line. cbn [mbind result_bind].
  replace (dfs_traversal [(0, 1)] 0) with (Ok [0; 1] : result _)
    by (vm_compute; reflexivity).
  repeat first
    [ progress cbn [mbind result_bind length seq for_each cost_step segment_step
                    py_index lookup list_lookup Nat.sub Nat.add app dist_add
                    get_route_geometry_osrm geometry_try straight_line]
    | decide_test
    | rewrite dijkstra_line ].
  reflexivity.
Qed.

(** On the triangle with the heaviest edge between 0 and 1 the tree takes
    the two light edges. No two candidate edges tie here, so the order in
    which the visited set is iterated does not matter. *)
Lemma prim_mst_triangle a b c :
  (b < a)%R → (c < a)%R →
  prim_mst (triangle_graph a b c) = Ok [(0, 2); (2, 1)].
Proof.
  intros Hb Hc. destruct (triangle_neighbors a b c) as (N0 & N1 & N2).
  unfold prim_mst. cbn [num_vertices triangle_graph].
  rewrite prim_loop_S. cbn [num_vertices triangle_graph].
  rewrite bool_decide_true by (vm_compute; lia).
  unfold prim_scan.
  replace (elements ({[0]} : gset nat)) with [0] by (vm_compute; reflexivity).
  cbn [for_each mbind result_bind]. rewrite N0. repeat run_step.
  rewrite prim_loop_S. cbn [num_vertices triangle_graph app].
  rewrite bool_decide_true by (vm_compute; lia).
  unfold prim_scan.
  replace (elements ({[2]} ∪ {[0]} : gset nat)) with [2; 0]
    by (vm_compute; reflexivity).
  cbn [for_each mbind result_bind]. rewrite N2. repeat run_step.
  rewrite N0. repeat run_step.
  rewrite prim_loop_S. cbn [num_vertices triangle_graph app].
  rewrite bool_decide_false by (vm_compute; lia). done.
Qed.

(** ** dijkstra on any graph *)

Lemma dist_ltb_false a b : dist_ltb a b = false ↔ dist_le b a.
Proof.
  destruct a as [x|], b as [y|]; simpl; try done.
  rewrite bool_decide_eq_false. split; intros; lra.
Qed.

Lemma dist_ltb_true a b : dist_ltb a b = true ↔ ¬ dist_le b a.
Proof.
  rewrite <- dist_ltb_false. destruct (dist_ltb a b); split; try done.
Qed.

Lemma dist_le_refl a : dist_le a a.
Proof. destruct a; simpl; [lra|done]. Qed.

Lemma dist_le_trans a b c : dist_le a b → dist_le b c → dist_le a c.
Proof. destruct a, b, c; simpl; try done; lra. Qed.

Lemma dist_le_total a b : dist_le a b ∨ dist_le b a.
Proof. destruct a as [x|], b as [y|]; simpl; auto. destruct (Rle_dec x y); [auto|right; lra]. Qed.

(** The scan returns an unvisited vertex of least tentative distance. *)
Lemma select_min_least n (distances : list dist) (visited : gset nat) :
  length distances = n →
  ∃ u md, select_min n distances visited = Ok (u, md) ∧
    match u with
    | Some i => i < n ∧ (i ∉ visited) ∧ distances !! i = Some md ∧ md ≠ Inf ∧
                ∀ j dj, j < n → j ∉ visited → distances !! j = Some dj → dist_le md dj
    | None => ∀ i, i < n → i ∉ visited → distances !! i = Some Inf
    end.
Proof.
  intros Hlen. unfold select_min.
  destruct (for_each_seq_inv
    (λ '(u, min_dist) i,
      if bool_decide (i ∉ visited) then
        d ← py_index distances i;
        if dist_ltb d min_dist then Ok (Some i, d) else Ok (u, min_dist)
      else Ok (u, min_dist))
    (λ k st,
       (∀ j dj, j < k → j ∉ visited → distances !! j = Some dj → dist_le st.2 dj) ∧
       match st.1 with
       | Some i => i < k ∧ (i ∉ visited) ∧ distances !! i = Some st.2 ∧ st.2 ≠ Inf
       | None => st.2 = Inf
       end) 0 n (None, Inf)) as ([u md] & He & Hleast & HP).
  - simpl. split; [intros; lia|done].
  - intros i [u md] Hi [Hleast HP]. simpl in *.
    destruct (lookup_lt_is_Some_2 distances i) as [d Hd]; [lia|].
    case_bool_decide as Hv.
    + rewrite (py_index_ok _ _ _ Hd). simpl.
      destruct (dist_ltb d md) eqn:Hlt.
      * eexists. split; [done|]. simpl. split.
        -- intros j dj Hj Hjv Hdj. destruct (decide (j = i)) as [->|].
           ++ assert (dj = d) as -> by congruence. apply dist_le_refl.
           ++ apply dist_le_trans with md; [|apply (Hleast j dj); [lia|done..]].
              apply dist_ltb_true in Hlt.
              by destruct (dist_le_total d md).
        -- repeat split; [lia|done|done|]. intros ->. done.
      * eexists. split; [done|]. simpl. split.
        -- intros j dj Hj Hjv Hdj. destruct (decide (j = i)) as [->|].
           ++ assert (dj = d) as -> by congruence. by apply dist_ltb_false.
           ++ apply (Hleast j dj); [lia|done..].
        -- destruct u as [j|]; [|done]. destruct HP as (?&?&?&?).
           repeat split; [lia|done..].
    + eexists. split; [done|]. simpl. split.
      * intros j dj Hj Hjv Hdj. destruct (decide (j = i)) as [->|]; [done|].
        apply (Hleast j dj); [lia|done..].
      * destruct u as [j|]; [|done]. destruct HP as (?&?&?&?).
        repeat split; [lia|done..].
  - exists u, md. split; [done|]. simpl in *. destruct u as [i|].
    + destruct HP as (?&?&?&?). repeat split; try done.
    + subst md. intros i Hi Hiv.
      destruct (lookup_lt_is_Some_2 distances i) as [d Hd]; [lia|].
      specialize (Hleast i d Hi Hiv Hd). rewrite Hd. by destruct d.
Qed.

Lemma chain_mono V V' P v p : V ⊆ V' → chain V P v p → chain V' P v p.
Proof.
  intros Hsub. induction 1 as [v Hv|v u p Hv Hu _ IH].
  - by constructor.
  - econstructor; [done|by apply Hsub|done].
Qed.

(** Writing the predecessor of an unvisited vertex leaves the chains of the
    other vertices alone. *)
Lemma chain_insert V P v p v' x :
  v' ∉ V → v ≠ v' → chain V P v p → chain V (<[v' := x]> P) v p.
Proof.
  intros Hv' Hne Hc. induction Hc as [v Hv|v u p Hv Hu _ IH].
  - constructor. by rewrite list_lookup_insert_ne.
  - econstructor; [by rewrite list_lookup_insert_ne|done|].
    apply IH. by intros ->.
Qed.

Lemma chain_last V P v p : chain V P v p → last p = Some v.
Proof. destruct 1; [done|]. by rewrite last_snoc. Qed.

(** The path loop rebuilds a chain, given fuel for each of its vertices. *)
Lemma reconstruct_chain V P v p fuel acc :
  chain V P v p → length p ≤ fuel →
  reconstruct fuel P (Some v) acc = Ok (p ++ acc).
Proof.
  intros Hc. revert fuel acc. induction Hc as [v Hv|v u p Hv Hu _ IH];
    intros [|fuel] acc Hfuel; simpl in Hfuel; try lia.
  - cbn [reconstruct]. rewrite (py_index_ok _ _ _ Hv). cbn [mbind result_bind].
    by destruct fuel.
  - rewrite length_app in Hfuel. simpl in Hfuel. lia.
  - rewrite length_app in Hfuel. simpl in Hfuel.
    cbn [reconstruct]. rewrite (py_index_ok _ _ _ Hv). cbn [mbind result_bind].
    rewrite IH by lia. by rewrite <- app_assoc.
Qed.

Lemma route_ends g p a b W : route g a p b W → head p = Some a ∧ last p = Some b.
Proof.
  induction 1 as [|p b c W w _ [IHh IHl] _]; [done|].
  split; [|by rewrite last_snoc]. destruct p; [done|]. done.
Qed.

Section dijkstra_general.
Context (g : Graph) (s t : nat) (Hwf : wf_graph g).

Lemma relax_inv_start u xu V D P :
  dijkstra_inv g s t V D P → u ∉ V → D !! u = Some (Fin xu) →
  relax_inv g s u xu ({[u]} ∪ V) D [] D P.
Proof.
  intros (HlD & HlP & Hb & HDs & HPs & Hs & Hfin & Hreal & Hinf & K2 & K1) HuV HDu.
  unfold relax_inv. split_and!; try done.
  - intros v d d' H1 H2. assert (d = d') as -> by congruence. apply dist_le_refl.
  - intros v x Hv HDv. destruct (Hreal v x Hv HDv) as (p & Hr & Hc & Hl).
    exists p. split; [done|]. split; [eapply chain_mono; [|done]; set_solver|].
    rewrite size_add_fresh by done.
    repeat case_decide; first [lia|set_solver].
  - intros v Hv HDv. destruct (Hinf v Hv HDv) as [HPv HvV]. split; [done|].
    intros [->%elem_of_singleton|?]%elem_of_union; [congruence|done].
  - intros v w dv Hin. by apply elem_of_nil in Hin.
Qed.

Lemma relax_inv_step u xu V D pre v w D' P' :
  u ∈ V → s ∈ V → D !! u = Some (Fin xu) → edge_in g u v w →
  relax_inv g s u xu V D pre D' P' →
  ∃ D'' P'', relax u V (D', P') (v, w) = Ok (D'', P'') ∧
             relax_inv g s u xu V D (pre ++ [(v, w)]) D'' P''.
Proof.
  intros HuV HsV HDu Hedge (HlD & HlP & HDs & HPs & Hvis & Hmono & Hreal & Hinf & Hdone).
  assert (v < num_vertices g) as Hv.
  { destruct Hedge as (nbrs & Hn & Hin). by eapply (proj2 Hwf). }
  assert (D' !! u = Some (Fin xu)) as HDu' by (by rewrite Hvis).
  assert (u < num_vertices g) as Hu.
  { apply lookup_lt_Some in HDu'. lia. }
  rewrite relax_pair. case_bool_decide as HvV; cycle 1.
  { exists D', P'. split; [done|]. unfold relax_inv. split_and!; try done.
    intros v' w' dv [Hin|Hin]%elem_of_app; [intros; by eapply Hdone|].
    apply list_elem_of_singleton in Hin as [= -> ->]. intros Hn. exfalso. eauto. }
  rewrite (py_index_ok _ _ _ HDu'). cbn [mbind result_bind dist_add].
  destruct (lookup_lt_is_Some_2 D' v) as [dv HDv]; [lia|].
  rewrite (py_index_ok _ _ _ HDv). cbn [mbind result_bind].
  destruct (dist_ltb (Fin (xu + w)) dv) eqn:Hlt; cycle 1.
  { exists D', P'. split; [done|]. unfold relax_inv. split_and!; try done.
    intros v' w' dv' [Hin|Hin]%elem_of_app; [intros; by eapply Hdone|].
    apply list_elem_of_singleton in Hin as [= -> ->]. intros _ HDv'.
    assert (dv' = dv) as -> by congruence. by apply dist_ltb_false. }
  rewrite !py_set_ok by lia. cbn [mbind result_bind].
  assert (v ≠ s) as Hvs by (by intros ->).
  assert (v ≠ u) as Hvu by (by intros ->).
  eexists _, _. split; [done|].
  assert (dist_le (Fin (xu + w)) dv) as Hle.
  { apply dist_ltb_true in Hlt. by destruct (dist_le_total (Fin (xu + w)) dv). }
  split; [by rewrite length_insert|]. split; [by rewrite length_insert|].
  split; [by rewrite list_lookup_insert_ne|].
  split; [by rewrite list_lookup_insert_ne|]. split.
  { intros v' Hv'. rewrite list_lookup_insert_ne by (by intros ->). by apply Hvis. }
  split.
  { intros v' d d' Hd. destruct (decide (v' = v)) as [->|Hne].
    - rewrite list_lookup_insert_eq by lia. intros [= <-].
      apply dist_le_trans with dv; [done|]. by apply (Hmono v).
    - rewrite list_lookup_insert_ne by done. by apply Hmono. }
  split.
  { intros v' x Hv'. destruct (decide (v' = v)) as [->|Hne].
    - rewrite list_lookup_insert_eq by lia. intros [= <-].
      destruct (Hreal u xu Hu HDu') as (p & Hr & Hc & Hl).
      rewrite decide_True in Hl by done.
      exists (p ++ [v]). split; [by econstructor|]. split.
      + econstructor; [apply list_lookup_insert_eq; lia|done|].
        by apply chain_insert.
      + rewrite length_app. simpl. rewrite decide_False by done. lia.
    - rewrite list_lookup_insert_ne by done. intros HDv'.
      destruct (Hreal v' x Hv' HDv') as (p & Hr & Hc & Hl).
      exists p. split; [done|]. split; [|done]. by apply chain_insert. }
  split.
  { intros v' Hv'. destruct (decide (v' = v)) as [->|Hne].
    - rewrite list_lookup_insert_eq by lia. done.
    - rewrite !list_lookup_insert_ne by done. by apply Hinf. }
  intros v' w' dv' [Hin|Hin]%elem_of_app Hv'V.
  - destruct (decide (v' = v)) as [->|Hne].
    + rewrite list_lookup_insert_eq by lia. intros [= <-].
      apply dist_le_trans with dv; [done|]. by apply (Hdone v w').
    + rewrite list_lookup_insert_ne by done. by apply Hdone.
  - apply list_elem_of_singleton in Hin as [= -> ->].
    rewrite list_lookup_insert_eq by lia. intros [= <-]. apply dist_le_refl.
Qed.

Lemma relax_all u xu V D P nbrs :
  dijkstra_inv g s t V D P → u ∉ V → D !! u = Some (Fin xu) → s ∈ {[u]} ∪ V →
  (∀ v w, (v, w) ∈ nbrs → edge_in g u v w) →
  ∃ D' P', for_each (relax u ({[u]} ∪ V)) (D, P) nbrs = Ok (D', P') ∧
           relax_inv g s u xu ({[u]} ∪ V) D nbrs D' P'.
Proof.
  intros Hinv HuV HDu HsV Hnb.
  destruct (for_each_inv (relax u ({[u]} ∪ V))
    (λ pre st, relax_inv g s u xu ({[u]} ∪ V) D pre st.1 st.2) nbrs (D, P))
    as ([D' P'] & He & HR).
  - by apply relax_inv_start.
  - intros pre [v w] suf [D1 P1] Hl HR. simpl in HR.
    destruct (relax_inv_step u xu ({[u]} ∪ V) D pre v w D1 P1)
      as (D2 & P2 & Hstep & HR2); [set_solver|done|done| |done|].
    + apply Hnb. rewrite Hl. set_solver.
    + exists (D2, P2). done.
  - by exists D', P'.
Qed.

(** A vertex selected at a least tentative distance has its final
    distance: no walk from [s] to an unvisited vertex is shorter. *)
Lemma dijkstra_lower_bound u xu V D P :
  dijkstra_inv g s t V D P → nonneg_weights g → s < num_vertices g →
  D !! u = Some (Fin xu) →
  (∀ j dj, j < num_vertices g → j ∉ V → D !! j = Some dj → dist_le (Fin xu) dj) →
  ∀ p x W, route g s p x W → x ∉ V → (xu <= W)%R.
Proof.
  intros (HlD & HlP & Hb & HDs & HPs & HsV & Hfin & Hreal & Hinf & K2 & K1)
    Hpos Hs HDu Hmin p x W Hr.
  specialize (K1 Hpos).
  induction Hr as [|p b c W w Hr IH Hedge]; intros HxV.
  - by apply (Hmin s (Fin 0)).
  - assert (c < num_vertices g) as Hc.
    { destruct Hedge as (nbrs & Hn & Hin). by eapply (proj2 Hwf). }
    destruct (lookup_lt_is_Some_2 D c) as [dc HDc]; [lia|].
    pose proof (Hmin c dc Hc HxV HDc) as Hle.
    pose proof (Hpos _ _ _ Hedge) as Hw.
    destruct (decide (b ∈ V)) as [HbV|HbV].
    + destruct (Hfin b HbV) as [xb HDb].
      pose proof (K1 b _ _ _ HbV HDb Hr) as H1. simpl in H1.
      pose proof (K2 b c w _ _ HbV HxV Hedge HDb HDc) as H2. simpl in H2.
      destruct dc as [xc|]; simpl in *; [lra|done].
    + specialize (IH HbV). lra.
Qed.

(** Before the first round nothing is visited and only [s] has a finite
    distance: the first vertex selected is [s]. *)
Lemma dijkstra_first_selected u xu D P :
  dijkstra_inv g s t ∅ D P → u < num_vertices g → D !! u = Some (Fin xu) → u = s.
Proof.
  intros (_ & _ & _ & _ & _ & _ & _ & Hreal & _) Hu HDu.
  destruct (Hreal u xu Hu HDu) as (p & Hr & Hc & _).
  destruct Hc as [v Hv|v u' p' Hv Hu' _]; [|set_solver].
  apply route_ends in Hr as [Hh _]. by injection Hh.
Qed.

(** One round of the loop keeps the invariant. *)
Lemma dijkstra_round u xu V D P nbrs D' P' :
  dijkstra_inv g s t V D P → s < num_vertices g →
  u < num_vertices g → u ∉ V → u ≠ t → D !! u = Some (Fin xu) →
  (∀ j dj, j < num_vertices g → j ∉ V → D !! j = Some dj → dist_le (Fin xu) dj) →
  s ∈ {[u]} ∪ V →
  (∀ v w, edge_in g u v w → (v, w) ∈ nbrs) →
  relax_inv g s u xu ({[u]} ∪ V) D nbrs D' P' →
  dijkstra_inv g s t ({[u]} ∪ V) D' P'.
Proof.
  intros Hinv Hs Hu HuV Hut HDu Hmin HsV Hnb
    (HlD' & HlP' & HDs' & HPs' & Hvis & Hmono & Hreal' & Hinf' & Hdone).
  pose proof Hinv as (HlD & HlP & Hb & HDs & HPs & _ & Hfin & Hreal & Hinf & K2 & K1).
  unfold dijkstra_inv. split_and!; try done.
  - intros u' [->%elem_of_singleton|Hu']%elem_of_union; [done|by apply Hb].
  - by right.
  - intros u' Hu'. rewrite (Hvis u' Hu').
    apply elem_of_union in Hu' as [->%elem_of_singleton|Hu']; [eauto|by apply Hfin].
  - intros u1 v w du dv Hu1 Hv Hedge. rewrite (Hvis u1 Hu1).
    assert (v < num_vertices g) as Hvn.
    { destruct Hedge as (l & Hn & Hin). by eapply (proj2 Hwf). }
    apply elem_of_union in Hu1 as [->%elem_of_singleton|Hu1].
    + intros HDu1 HDv. assert (du = Fin xu) as -> by congruence. simpl.
      apply (Hdone v w dv); [by apply Hnb|done..].
    + intros HDu1 HDv. destruct (lookup_lt_is_Some_2 D v) as [dv0 HDv0]; [lia|].
      apply dist_le_trans with dv0; [by apply (Hmono v)|].
      apply (K2 u1 v w); [done|set_solver|done..].
  - intros Hpos u1 d p W Hu1. rewrite (Hvis u1 Hu1).
    apply elem_of_union in Hu1 as [->%elem_of_singleton|Hu1].
    + intros HDu1 Hr. assert (d = Fin xu) as -> by congruence. simpl.
      by apply (dijkstra_lower_bound u xu V D P Hinv Hpos Hs HDu Hmin p u W).
    + by apply K1.
Qed.

(** The main loop, from any state that satisfies the invariant. *)
Lemma dijkstra_loop_run fuel V D P :
  s < num_vertices g → dijkstra_inv g s t V D P →
  num_vertices g - size V < fuel →
  ∃ V' D' P',
    dijkstra_loop fuel g t D P V = Ok (D', P') ∧
    dijkstra_inv g s t V' D' P' ∧ dijkstra_exit g s t V' D'.
Proof.
  intros Hs. revert V D P. induction fuel as [|fuel IH]; intros V D P Hinv Hfuel; [lia|].
  pose proof Hinv as (HlD & HlP & Hb & HDs & HPs & HsV & Hfin & Hreal & Hinf & K2 & K1).
  rewrite dijkstra_loop_S. case_bool_decide as Hsize; cycle 1.
  { exists V, D, P. split; [done|]. split; [done|]. left. lia. }
  destruct (select_min_least (num_vertices g) D V HlD) as (u & md & -> & Hsel).
  cbn [mbind result_bind]. destruct u as [u|]; cycle 1.
  { exists V, D, P. split; [done|]. split; [done|]. right; right. split; [done|].
    assert (s ∈ V) as HsV'.
    { destruct HsV as [->|]; [|done]. exfalso.
      specialize (Hsel s Hs (not_elem_of_empty s)). congruence. }
    intros p x W Hr. induction Hr as [|p b c W w Hr IHr Hedge]; [done|].
    destruct (decide (c ∈ V)) as [|HcV]; [done|]. exfalso.
    assert (c < num_vertices g) as Hc.
    { destruct Hedge as (l & Hn & Hin). by eapply (proj2 Hwf). }
    destruct (Hfin b IHr) as [xb HDb].
    pose proof (K2 b c w _ _ IHr HcV Hedge HDb (Hsel c Hc HcV)) as H. done. }
  destruct Hsel as (Hu & HuV & HDu & Hfinite & Hmin).
  destruct md as [xu|]; [|done].
  case_bool_decide as Hut.
  { subst u. exists V, D, P. split; [done|]. split; [done|]. right; left.
    exists xu. split; [done|]. intros Hpos p W Hr.
    by apply (dijkstra_lower_bound t xu V D P Hinv Hpos Hs HDu Hmin p t W). }
  assert (s ∈ {[u]} ∪ V) as HsV'.
  { destruct HsV as [->|]; [|set_solver].
    rewrite (dijkstra_first_selected u xu D P Hinv Hu HDu). set_solver. }
  destruct (proj2 (proj1 Hwf u) Hu) as [nbrs Hnbrs].
  unfold get_neighbors. rewrite (py_key_ok _ _ _ Hnbrs). cbn [mbind result_bind].
  destruct (relax_all u xu V D P nbrs Hinv HuV HDu HsV') as (D' & P' & -> & HR).
  { intros v w Hin. by exists nbrs. }
  cbn [mbind result_bind]. apply IH.
  - apply (dijkstra_round u xu V D P nbrs); try done.
    intros v w (l & Hl & Hin). congruence.
  - rewrite size_add_fresh by done. lia.
Qed.

End dijkstra_general.

Section dijkstra_results.
Context (g : Graph) (s t : nat) (Hwf : wf_graph g).

(** The state in which [dijkstra] enters its loop. *)
Lemma dijkstra_inv_start :
  s < num_vertices g →
  dijkstra_inv g s t ∅ (<[s := Fin 0]> (replicate (num_vertices g) Inf))
    (replicate (num_vertices g) None).
Proof.
  intros Hs. unfold dijkstra_inv. split_and!.
  - by rewrite length_insert, length_replicate.
  - by rewrite length_replicate.
  - set_solver.
  - apply list_lookup_insert_eq. by rewrite length_replicate.
  - by apply lookup_replicate_2.
  - by left.
  - set_solver.
  - intros v x Hv HD. destruct (decide (v = s)) as [->|Hne].
    + rewrite list_lookup_insert_eq in HD by (by rewrite length_replicate).
      injection HD as <-. exists [s]. split; [constructor|]. split.
      * constructor. by apply lookup_replicate_2.
      * rewrite size_empty. by rewrite decide_False by set_solver.
    + rewrite list_lookup_insert_ne in HD by done.
      apply lookup_replicate in HD as [? _]. done.
  - intros v Hv _. split; [by apply lookup_replicate_2|set_solver].
  - set_solver.
  - set_solver.
Qed.

(** The loop of [dijkstra] ends, whatever the target. *)
Lemma dijkstra_loop_result :
  s < num_vertices g →
  ∃ V D P,
    dijkstra_loop (S (num_vertices g)) g t
      (<[s := Fin 0]> (replicate (num_vertices g) Inf))
      (replicate (num_vertices g) None) ∅ = Ok (D, P) ∧
    dijkstra_inv g s t V D P ∧ dijkstra_exit g s t V D.
Proof.
  intros Hs. apply (dijkstra_loop_run g s t Hwf); [done| |lia].
  by apply dijkstra_inv_start.
Qed.

(** What [dijkstra] returns between two vertices of the graph. *)
Lemma dijkstra_result :
  s < num_vertices g → t < num_vertices g →
  ∃ path d,
    dijkstra g s t = Ok (path, d) ∧
    match d with
    | Fin x => route g s path t x
    | Inf => path = [t] ∧ ∀ p W, ¬ route g s p t W
    end ∧
    (nonneg_weights g → ∀ p W, route g s p t W → dist_le d (Fin W)).
Proof.
  intros Hs Ht. destruct (dijkstra_loop_result Hs) as (V & D & P & Hloop & Hinv & Hexit).
  pose proof Hinv as (HlD & HlP & Hb & HDs & HPs & HsV & Hfin & Hreal & Hinf & K2 & K1).
  assert (t ∉ V) as HtV by (intros Hin; by destruct (Hb t Hin)).
  assert (size V < num_vertices g) as Hsize.
  { destruct (decide (size V < num_vertices g)) as [|Hge]; [done|]. exfalso.
    apply HtV, (all_vertices (num_vertices g)); [|lia|done].
    intros u Hu. by destruct (Hb u Hu). }
  unfold dijkstra. rewrite py_set_ok by (by rewrite length_replicate).
  cbn [mbind result_bind]. rewrite Hloop. cbn [mbind result_bind].
  destruct Hexit as [Hall|[(x & HDt & Hopt)|[Hrest Hclosed]]]; [lia| |].
  - destruct (Hreal t x Ht HDt) as (p & Hr & Hc & Hlen).
    rewrite decide_False in Hlen by done.
    rewrite (reconstruct_chain V P t p (S (num_vertices g)) [] Hc) by lia.
    cbn [mbind result_bind]. rewrite (py_index_ok _ _ _ HDt). cbn [mbind result_bind].
    rewrite app_nil_r. exists p, (Fin x). split; [done|]. split; [done|].
    intros Hpos q W Hq. simpl. by apply (Hopt Hpos q W).
  - pose proof (Hrest t Ht HtV) as HDt. destruct (Hinf t Ht HDt) as [HPt _].
    rewrite (reconstruct_chain V P t [t] (S (num_vertices g)) []); [|by constructor|simpl; lia].
    cbn [mbind result_bind]. rewrite (py_index_ok _ _ _ HDt). cbn [mbind result_bind].
    exists [t], Inf. split; [done|].
    assert (∀ p W, ¬ route g s p t W) as Hno.
    { intros p W Hr. by apply HtV, (Hclosed p t W). }
    split; [done|]. intros _ p W Hr. by destruct (Hno p W).
Qed.

(** Outside the graph: the start fails on [distances[start] = 0], the end
    on [previous[end]] once the loop is over. *)
Lemma dijkstra_outside :
  num_vertices g ≤ s ∨ num_vertices g ≤ t → dijkstra g s t = Raise IndexError.
Proof.
  intros Hout. unfold dijkstra, py_set. rewrite length_replicate.
  case_bool_decide as Hs; [|done]. destruct Hout as [|Ht]; [lia|].
  cbn [mbind result_bind].
  destruct (dijkstra_loop_result Hs) as (V & D & P & -> & Hinv & _).
  destruct Hinv as (_ & HlP & _). cbn [mbind result_bind reconstruct].
  unfold py_index. rewrite (lookup_ge_None_2 P t) by lia. done.
Qed.

End dijkstra_results.

(** X1: between two vertices of a graph that satisfies the class invariant
    (weights of any sign), [dijkstra] returns a result; a finite distance is
    the weight of the returned path, which is a walk of the graph from
    [start] to [end]; an infinite distance comes with the path [[end]] and
    means that no walk leads from [start] to [end]. *)
Theorem dijkstra_returns_a_walk (g : Graph) (s t : nat) :
  wf_graph g → s < num_vertices g → t < num_vertices g →
  ∃ path d,
    dijkstra g s t = Ok (path, d) ∧
    match d with
    | Fin x => route g s path t x
    | Inf => path = [t] ∧ ∀ p W, ¬ route g s p t W
    end.
Proof.
  intros Hwf Hs Ht.
  destruct (dijkstra_result g s t Hwf Hs Ht) as (path & d & Hrun & Hd & _).
  by exists path, d.
Qed.

(** X2: when no weight is negative, the distance [dijkstra] returns is a
    lower bound of the weight of every walk from [start] to [end]: with X1,
    the returned path is a shortest one. *)
Theorem dijkstra_shortest (g : Graph) (s t : nat) :
  wf_graph g → nonneg_weights g → s < num_vertices g → t < num_vertices g →
  ∃ path d,
    dijkstra g s t = Ok (path, d) ∧
    ∀ p W, route g s p t W → dist_le d (Fin W).
Proof.
  intros Hwf Hpos Hs Ht.
  destruct (dijkstra_result g s t Hwf Hs Ht) as (path & d & Hrun & _ & Hopt).
  exists path, d. split; [done|]. by apply Hopt.
Qed.

(** X3: on a graph that satisfies the class invariant, [dijkstra] raises
    [IndexError] exactly when [start] or [end] is not a vertex, and raises
    nothing else. *)
Theorem dijkstra_index_error (g : Graph) (s t : nat) :
  wf_graph g →
  (dijkstra g s t = Raise IndexError ↔
     num_vertices g ≤ s ∨ num_vertices g ≤ t) ∧
  (∀ e, dijkstra g s t = Raise e → e = IndexError) ∧
  dijkstra g s t ≠ OutOfFuel.
Proof.
  intros Hwf.
  destruct (decide (s < num_vertices g ∧ t < num_vertices g)) as [[Hs Ht]|Hout].
  - destruct (dijkstra_result g s t Hwf Hs Ht) as (path & d & -> & _).
    split_and!; [|done|done]. split; [done|lia].
  - assert (num_vertices g ≤ s ∨ num_vertices g ≤ t) as Hout' by lia.
    rewrite (dijkstra_outside g s t Hwf Hout').
    split_and!; [done| |done]. by intros e [= <-].
Qed.

(** ** The sample triangle as a graph *)

Lemma triangle_graph_inv (z a b c : R) :
  graph_inv 3 [[z; a; b]; [a; z; c]; [b; c; z]] (λ i j, i < 3 ∧ j < 3)
    (triangle_graph a b c).
Proof.
  destruct (build_graph_spec 3 [[z; a; b]; [a; z; c]; [b; c; z]]) as (g & Hg & Hinv).
  - split; [done|]. repeat constructor.
  - rewrite build_triangle in Hg. by injection Hg as <-.
Qed.

Lemma triangle_graph_wf (a b c : R) : wf_graph (triangle_graph a b c).
Proof. apply (triangle_graph_inv 0 a b c). Qed.

Lemma triangle_graph_nonneg (a b c : R) :
  (0 <= a)%R → (0 <= b)%R → (0 <= c)%R → nonneg_weights (triangle_graph a b c).
Proof.
  intros Ha Hb Hc u v w Hedge.
  destruct (triangle_graph_inv 0 a b c) as (_ & _ & Hedges).
  apply Hedges in Hedge as [Hne [[[Hu Hv] He]|[[Hv Hu] He]]];
    destruct u as [|[|[|u]]]; try lia; destruct v as [|[|[|v]]]; try lia;
    cbn in He; simplify_eq; lra.
Qed.

Lemma dijkstra_returns_a_walk_witness :
  ∃ path d,
    dijkstra (triangle_graph 10 1 1) 0 1 = Ok (path, d) ∧
    match d with
    | Fin x => route (triangle_graph 10 1 1) 0 path 1 x
    | Inf => path = [1] ∧ ∀ p W, ¬ route (triangle_graph 10 1 1) 0 p 1 W
    end.
Proof.
  apply (dijkstra_returns_a_walk (triangle_graph 10 1 1) 0 1).
  - apply triangle_graph_wf.
  - simpl. lia.
  - simpl. lia.
Defined.

Lemma dijkstra_shortest_witness :
  ∃ path d,
    dijkstra (triangle_graph 10 1 1) 0 1 = Ok (path, d) ∧
    ∀ p W, route (triangle_graph 10 1 1) 0 p 1 W → dist_le d (Fin W).
Proof.
  apply (dijkstra_shortest (triangle_graph 10 1 1) 0 1).
  - apply triangle_graph_wf.
  - apply triangle_graph_nonneg; lra.
  - simpl. lia.
  - simpl. lia.
Defined.

Lemma dijkstra_index_error_witness :
  (dijkstra (triangle_graph 10 1 1) 0 3 = Raise IndexError ↔
     num_vertices (triangle_graph 10 1 1) ≤ 0 ∨
     num_vertices (triangle_graph 10 1 1) ≤ 3) ∧
  (∀ e, dijkstra (triangle_graph 10 1 1) 0 3 = Raise e → e = IndexError) ∧
  dijkstra (triangle_graph 10 1 1) 0 3 ≠ OutOfFuel.
Proof.
  apply (dijkstra_index_error (triangle_graph 10 1 1) 0 3).
  apply triangle_graph_wf.
Defined.

(** ** The class Graph: what its interface keeps true *)

Lemma py_key_inv {A} (d : gmap nat A) k :
  match py_key d k with
  | Ok x => d !! k = Some x
  | Raise e => e = KeyError ∧ d !! k = None
  | OutOfFuel => False
  end.
Proof. unfold py_key. by destruct (d !! k). Qed.

(** [add_edge] on a graph that satisfies the class invariant: what it
    returns, and when it raises. *)
Lemma add_edge_cases g u v w :
  wf_graph g →
  match add_edge g u v w with
  | Ok g' =>
      u < num_vertices g ∧ v < num_vertices g ∧ wf_graph g' ∧
      num_vertices g' = num_vertices g ∧
      ∀ a b x, edge_in g' a b x ↔
        edge_in g a b x ∨ (a = u ∧ b = v ∧ x = w) ∨ (a = v ∧ b = u ∧ x = w)
  | Raise e => e = KeyError ∧ (num_vertices g ≤ u ∨ num_vertices g ≤ v)
  | OutOfFuel => False
  end.
Proof.
  intros Hwf.
  destruct (decide (u < num_vertices g ∧ v < num_vertices g)) as [[Hu Hv]|Hout].
  - destruct (add_edge_spec g u v w Hwf Hu Hv) as (g' & -> & Hwf' & Hn & He). done.
  - unfold add_edge. pose proof (py_key_inv (adj g) u) as Hku.
    destruct (py_key (adj g) u) as [lu|e|]; [| |done].
    + assert (u < num_vertices g) as Hu by (apply (proj1 Hwf); eauto).
      cbn [mbind result_bind].
      pose proof (py_key_inv (<[u := lu ++ [(v, w)]]> (adj g)) v) as Hkv.
      destruct (py_key (<[u := lu ++ [(v, w)]]> (adj g)) v) as [lv|e|]; [| |done].
      * exfalso. apply Hout. split; [done|].
        destruct (decide (v = u)) as [->|Hne]; [done|].
        rewrite lookup_insert_ne in Hkv by done. apply (proj1 Hwf). eauto.
      * destruct Hkv as [-> _]. split; [done|]. lia.
    + destruct Hku as [-> Hku]. split; [done|].
      destruct (decide (u < num_vertices g)) as [Hu|]; [|lia].
      apply (proj1 Hwf) in Hu as [? Hu]. congruence.
Qed.

(** X4: [add_edge] on a graph that satisfies the class invariant. Between
    two vertices it returns a graph with the same vertices that satisfies the
    invariant and has exactly one more edge, stored in both directions;
    otherwise it raises [KeyError]. *)
Theorem add_edge_result (g : Graph) (u v : nat) (w : R) :
  wf_graph g →
  match add_edge g u v w with
  | Ok g' =>
      u < num_vertices g ∧ v < num_vertices g ∧ wf_graph g' ∧
      num_vertices g' = num_vertices g ∧
      ∀ a b x, edge_in g' a b x ↔
        edge_in g a b x ∨ (a = u ∧ b = v ∧ x = w) ∨ (a = v ∧ b = u ∧ x = w)
  | Raise e => e = KeyError ∧ (num_vertices g ≤ u ∨ num_vertices g ≤ v)
  | OutOfFuel => False
  end.
Proof. apply add_edge_cases. Qed.

Lemma add_edge_result_witness :
  match add_edge (Graph_init 2) 0 1 5 with
  | Ok g' =>
      0 < num_vertices (Graph_init 2) ∧ 1 < num_vertices (Graph_init 2) ∧
      wf_graph g' ∧
      num_vertices g' = num_vertices (Graph_init 2) ∧
      ∀ a b x, edge_in g' a b x ↔
        edge_in (Graph_init 2) a b x ∨ (a = 0 ∧ b = 1 ∧ x = 5%R) ∨
        (a = 1 ∧ b = 0 ∧ x = 5%R)
  | Raise e => e = KeyError ∧
      (num_vertices (Graph_init 2) ≤ 0 ∨ num_vertices (Graph_init 2) ≤ 1)
  | OutOfFuel => False
  end.
Proof. apply (add_edge_result (Graph_init 2) 0 1 5), Graph_init_wf. Defined.

Lemma constructed_inv g : constructed g → wf_graph g ∧ undirected g.
Proof.
  induction 1 as [n|g u v w g' _ [Hwf Hsym] Hadd].
  - split; [apply Graph_init_wf|]. intros a b x H. by apply Graph_init_no_edge in H.
  - pose proof (add_edge_cases g u v w Hwf) as Hc. rewrite Hadd in Hc.
    destruct Hc as (_ & _ & Hwf' & _ & He). split; [done|].
    intros a b x. rewrite !He. intros [H|[H|H]]; [left; by apply Hsym|naive_solver..].
Qed.

(** X5: the class invariant. Every graph made by [Graph(n)] and calls of
    [add_edge] has the vertices [0 .. n - 1] as the keys of [adj], only
    vertices as neighbours, and every edge in both directions with the same
    weight; [get_neighbors] returns on exactly the vertices. *)
Theorem Graph_class_invariant (g : Graph) :
  constructed g →
  wf_graph g ∧ undirected g ∧
  ∀ u, (∃ nbrs, get_neighbors g u = Ok nbrs) ↔ u < num_vertices g.
Proof.
  intros Hc. destruct (constructed_inv g Hc) as [Hwf Hsym].
  split; [done|]. split; [done|]. intros u. rewrite <- (proj1 Hwf u).
  unfold get_neighbors. pose proof (py_key_inv (adj g) u) as Hk.
  destruct (py_key (adj g) u) as [l|e|]; [| |done].
  - split; eauto.
  - destruct Hk as [_ Hk]. rewrite Hk. split; [by intros [? ?]|by intros [? ?]].
Qed.

Lemma build_graph_constructed n matrix g :
  build_graph n matrix = Ok g → constructed g.
Proof.
  unfold build_graph. apply for_each_ok_inv; [|constructor].
  intros g1 i g2 Hg1. apply for_each_ok_inv; [|done].
  intros g3 j g4 Hg3. case_bool_decide; [|by intros [= <-]].
  destruct (py_index matrix i) as [row| |]; [|done..]. cbn [mbind result_bind].
  destruct (py_index row j) as [w| |]; [|done..]. cbn [mbind result_bind].
  by apply constructed_add.
Qed.

Lemma Graph_class_invariant_witness :
  wf_graph (triangle_graph 10 1 1) ∧ undirected (triangle_graph 10 1 1) ∧
  ∀ u, (∃ nbrs, get_neighbors (triangle_graph 10 1 1) u = Ok nbrs) ↔
       u < num_vertices (triangle_graph 10 1 1).
Proof.
  apply (Graph_class_invariant (triangle_graph 10 1 1)).
  apply (build_graph_constructed 3 detour_matrix), (build_triangle 0 10 1 1).
Defined.

(** ** dfs_traversal on any edge list *)

(** A call of [dfs] on [u] visits only vertices joined to [u]. *)
Lemma dfs_reach n edges adj fuel :
  dfs_adj_inv n edges adj →
  ∀ u st st', dfs fuel adj st u = Ok st' →
    ∀ x, x ∈ st'.1 → x ∈ st.1 ∨ connected edges u x.
Proof.
  intros Hadj. induction fuel as [|fuel IH]; intros u [V L] st'; [done|].
  cbn [dfs]. case_bool_decide as HuV.
  { intros [= <-] x Hx. by left. }
  pose proof (py_key_inv adj u) as Hk.
  destruct (py_key adj u) as [nbrs| |]; [|done..].
  cbn [mbind result_bind]. intros Hrun.
  assert (∀ l st1 st2, (∀ v, v ∈ l → adjacent edges u v) →
            for_each (dfs fuel adj) st1 l = Ok st2 →
            (∀ x, x ∈ st1.1 → x ∈ V ∨ connected edges u x) →
            ∀ x, x ∈ st2.1 → x ∈ V ∨ connected edges u x) as Hloop.
  { induction l as [|v l IHl]; intros st1 st2 Hl; simpl.
    - by intros [= <-].
    - destruct (dfs fuel adj st1 v) as [st1'| |] eqn:Hv; [|done..]. simpl.
      intros Hrest H1. apply (IHl st1' st2); [set_solver|done|].
      intros x Hx. destruct (IH v st1 st1' Hv x Hx) as [H|H]; [by apply H1|].
      right. eapply rtc_l; [apply Hl; left|done]. }
  intros x Hx. simpl. eapply (Hloop nbrs); [|exact Hrun| |exact Hx].
  - intros v Hv. by apply (proj2 Hadj u nbrs Hk).
  - simpl. intros y [->%elem_of_singleton|Hy]%elem_of_union; [by right|by left].
Qed.

(** [dfs_traversal] when every endpoint and the start are keys. *)
Lemma dfs_traversal_run edges start :
  in_range edges → start < length edges + 1 →
  ∃ order,
    dfs_traversal edges start = Ok order ∧ NoDup order ∧
    head order = Some start ∧
    ∀ v, v ∈ order ↔ connected edges start v.
Proof.
  intros Hends Hstart. unfold dfs_traversal.
  destruct (dfs_adj_spec edges Hends) as (adj & -> & Hadj).
  cbn [mbind result_bind]. set (n := length edges + 1) in *.
  assert (size (set_seq 0 n ∖ (∅, @nil nat).1 : gset nat) < length edges + 2)
    as Hfuel.
  { simpl. rewrite difference_empty_L, size_set_seq. lia. }
  destruct (dfs_run n edges adj Hends Hadj _ start (∅, []) Hstart Hfuel)
    as ([V order] & Hrun & Hpost & HsV).
  destruct (dfs_run_head n edges adj Hends Hadj _ start (∅, []) _ Hstart
              (not_elem_of_empty start) Hfuel Hrun) as [rest Hhead].
  pose proof (dfs_reach n edges adj _ Hadj start (∅, []) _ Hrun) as Hreach.
  rewrite Hrun. cbn [mbind result_bind]. exists order. split; [done|].
  destruct Hpost as (_ & Hb & new & HL & Hnd & Hin & Hcl). simpl in *. subst new.
  split; [done|]. split; [by subst order|].
  intros v. rewrite Hin. split.
  - intros [Hv _]. by destruct (Hreach v Hv) as [?%not_elem_of_empty|].
  - intros Hv. split; [|apply not_elem_of_empty].
    apply (connected_closed edges V start); [|done|done].
    intros x y Hx Hxy. apply (Hcl x y); [done|apply not_elem_of_empty|done].
Qed.

(** The loop that fills the adjacency dict stops at the first edge with an
    endpoint that is not a key. *)
Lemma dfs_adj_key_error edges :
  ¬ in_range edges → dfs_adj edges = Raise KeyError.
Proof.
  intros Hbad. set (n := length edges + 1).
  assert (∃ pre a b suf, edges = pre ++ (a, b) :: suf ∧
            (∀ x y, (x, y) ∈ pre → x < n ∧ y < n) ∧ (n ≤ a ∨ n ≤ b))
    as (pre & a & b & suf & Hl & Hpre & Hab).
  { assert (∀ l, ¬ (∀ x y, (x, y) ∈ l → x < n ∧ y < n) →
              ∃ pre a b suf, l = pre ++ (a, b) :: suf ∧
                (∀ x y, (x, y) ∈ pre → x < n ∧ y < n) ∧ (n ≤ a ∨ n ≤ b)) as Hfirst.
    { induction l as [|[a b] l IHl]; intros Hl.
      - destruct Hl. by intros x y ?%elem_of_nil.
      - destruct (decide (a < n ∧ b < n)) as [Hok|Hno].
        + destruct IHl as (pre & a' & b' & suf & -> & Hpre & Hab).
          { intros Hall. apply Hl. intros x y [[= -> ->]|Hin]%elem_of_cons; auto. }
          exists ((a, b) :: pre), a', b', suf. split; [done|]. split; [|done].
          intros x y [[= -> ->]|Hin]%elem_of_cons; auto.
        + exists [], a, b, l. split; [done|]. split; [|lia].
          by intros x y ?%elem_of_nil. }
    by apply Hfirst. }
  unfold dfs_adj. fold n. rewrite Hl at 1. rewrite for_each_app.
  lazymatch goal with
  | |- context [for_each ?body ?init pre] =>
      destruct (for_each_inv body (λ done_ adj, dfs_adj_inv n done_ adj) pre init)
        as (adj & Hrun & [Hkeys _])
  end.
  - split.
    + intros u. rewrite empty_lists_lookup. case_decide.
      * split; [lia|eauto].
      * split; [by intros [? ?]|lia].
    + intros u nbrs. rewrite empty_lists_lookup. case_decide; [|done].
      intros [= <-] v. split; [by intros ?%elem_of_nil|].
      intros [Hin|Hin]; by apply elem_of_nil in Hin.
  - intros pre' [u v] suf' adj Hl' Hinv.
    destruct (Hpre u v) as [Hu Hv]; [rewrite Hl'; set_solver|].
    by apply dfs_adj_step.
  - rewrite Hrun. cbn [mbind result_bind for_each].
    pose proof (py_key_inv adj a) as Hka.
    destruct (py_key adj a) as [la|e|]; [| |done].
    + cbn [mbind result_bind].
      assert (a < n) as Ha by (apply Hkeys; eauto).
      assert (adj !! b = None) as Hb.
      { apply eq_None_not_Some. rewrite Hkeys. lia. }
      cbv zeta. unfold py_key. rewrite lookup_insert_ne by lia. by rewrite Hb.
    + by destruct Hka as [-> _].
Qed.

(** X6: on an edge list whose endpoints are all below [len(edges) + 1]
    (any graph, not only a tree), [dfs_traversal] from such a start returns
    the vertices joined to the start by the edges: each once, the start
    first. *)
Theorem dfs_traversal_component (edges : list (nat * nat)) (start : nat) :
  in_range edges → start < length edges + 1 →
  ∃ order,
    dfs_traversal edges start = Ok order ∧ NoDup order ∧
    head order = Some start ∧
    ∀ v, v ∈ order ↔ connected edges start v.
Proof. apply dfs_traversal_run. Qed.

Lemma dfs_traversal_component_witness :
  ∃ order,
    dfs_traversal [(0, 1); (3, 2); (1, 0)] 1 = Ok order ∧ NoDup order ∧
    head order = Some 1 ∧
    ∀ v, v ∈ order ↔ connected [(0, 1); (3, 2); (1, 0)] 1 v.
Proof.
  apply (dfs_traversal_component [(0, 1); (3, 2); (1, 0)] 1).
  - intros a b Hin. simpl.
    repeat (apply elem_of_cons in Hin as [[= -> ->]|Hin]; [lia|]).
    by apply elem_of_nil in Hin.
  - simpl. lia.
Defined.

(** X7: [dfs_traversal] raises [KeyError] exactly when the start or an
    endpoint of an edge is [len(edges) + 1] or more, and nothing else. *)
Theorem dfs_traversal_key_error (edges : list (nat * nat)) (start : nat) :
  (dfs_traversal edges start = Raise KeyError ↔
     length edges + 1 ≤ start ∨
     ∃ a b, (a, b) ∈ edges ∧ (length edges + 1 ≤ a ∨ length edges + 1 ≤ b)) ∧
  (∀ e, dfs_traversal edges start = Raise e → e = KeyError) ∧
  dfs_traversal edges start ≠ OutOfFuel.
Proof.
  set (n := length edges + 1).
  assert (Decision (in_range edges)) as Hdec.
  { refine (cast_if (decide (Forall (λ e, e.1 < n ∧ e.2 < n) edges)));
      unfold in_range; rewrite Forall_forall in *; fold n.
    - intros a b Hin. by apply (f (a, b)).
    - intros H. apply n0. intros [a b] Hin. by apply H. }
  destruct (decide (in_range edges)) as [Hok|Hbad].
  - destruct (decide (start < n)) as [Hs|Hs].
    + destruct (dfs_traversal_run edges start Hok Hs) as (order & -> & _).
      split_and!; [|done|done]. split; [done|].
      intros [?|(a & b & Hin & Hab)]; [lia|]. apply Hok in Hin. lia.
    + assert (dfs_traversal edges start = Raise KeyError) as ->.
      { unfold dfs_traversal.
        destruct (dfs_adj_spec edges Hok) as (adj & -> & [Hkeys _]).
        cbn [mbind result_bind]. rewrite Nat.add_succ_r. cbn [dfs].
        rewrite bool_decide_false by set_solver.
        assert (adj !! start = None) as Hnone.
        { apply eq_None_not_Some. rewrite Hkeys. done. }
        unfold py_key. by rewrite Hnone. }
      split_and!; [|by intros e [= <-]|done]. split; [|done]. intros _. left. lia.
  - assert (dfs_traversal edges start = Raise KeyError) as ->.
    { unfold dfs_traversal. by rewrite (dfs_adj_key_error edges Hbad). }
    split_and!; [|by intros e [= <-]|done]. split; [|done]. intros _. right.
    destruct (decide (Exists (λ e, n ≤ e.1 ∨ n ≤ e.2) edges)) as [Hex|Hno].
    + apply Exists_exists in Hex as ([a b] & Hin & Hab). eauto.
    + destruct Hbad. intros a b Hin. rewrite <- Forall_Exists_neg, Forall_forall in Hno.
      specialize (Hno (a, b) Hin). simpl in Hno. fold n. lia.
Qed.

(** ** prim_mst on any graph *)

Lemma greedy_prim_trace g V E W : greedy_trace g V E W → prim_trace g V E.
Proof.
  induction 1 as [|V E W u v w _ IH (Hu & Hv & He & _)]; constructor; [done|].
  split; [done|]. split; [done|]. by exists w.
Qed.

(** The scan returns a lightest crossing edge, or none when there is none. *)
Lemma prim_scan_least g (visited : gset nat) :
  (∀ u, u ∈ visited → is_Some (adj g !! u)) →
  ∃ min_edge min_weight, prim_scan g visited = Ok (min_edge, min_weight) ∧
    match min_edge with
    | Some (u, v) => ∃ w, lightest_crossing g visited u v w
    | None => ∀ u v, ¬ crossing g visited u v
    end.
Proof.
  intros Hkeys. unfold prim_scan.
  set (Q := λ (seen : nat → nat * R → Prop) (st : option (nat * nat) * dist),
    match st with
    | (Some (u, v), Fin w) =>
        u ∈ visited ∧ (v ∉ visited) ∧ edge_in g u v w ∧
        ∀ u' e, seen u' e → e.1 ∉ visited → (w <= e.2)%R
    | (None, Inf) => ∀ u e, seen u e → e.1 ∈ visited
    | _ => False
    end).
  lazymatch goal with
  | |- ∃ _ _, for_each ?body ?init ?l = _ ∧ _ =>
      destruct (for_each_inv body
        (λ pre, Q (λ u e, u ∈ pre ∧ ∃ nbrs, adj g !! u = Some nbrs ∧ e ∈ nbrs))
        l init) as ([me mw] & He & HQ)
  end.
  - intros u e [Hu _]. by apply elem_of_nil in Hu.
  - intros pre u suf st Hel HQ.
    assert (u ∈ visited) as Hu.
    { apply elem_of_elements. rewrite Hel. set_solver. }
    destruct (Hkeys u Hu) as [nbrs Hn].
    unfold get_neighbors. rewrite (py_key_ok _ _ _ Hn). cbn [mbind result_bind].
    lazymatch goal with
    | |- ∃ _, for_each ?body _ _ = _ ∧ _ =>
        destruct (for_each_inv body
          (λ ipre, Q (λ u' e, (u' ∈ pre ∧ ∃ nbrs, adj g !! u' = Some nbrs ∧ e ∈ nbrs)
                              ∨ (u' = u ∧ e ∈ ipre)))
          nbrs st) as (st' & -> & HQ')
    end.
    + unfold Q in *. destruct st as [[[a b]|] [mw|]]; try done.
      * destruct HQ as (Ha & Hb & Hab & Hmin). split_and!; try done.
        intros u' e [H|[_ H]]; [by apply (Hmin u' e)|].
        by apply elem_of_nil in H.
      * intros u' e [H|[_ H]]; [by apply (HQ u' e)|].
        by apply elem_of_nil in H.
    + intros ipre [v w] isuf [me mw] Hnb HQi.
      destruct (bool_decide (v ∉ visited) && dist_ltb (Fin w) mw) eqn:Hc.
      * eexists. split; [done|]. unfold Q in *.
        apply andb_prop in Hc as [Hv%bool_decide_eq_true Hlt].
        split; [done|]. split; [done|]. split.
        { exists nbrs. split; [done|]. rewrite Hnb. set_solver. }
        intros u' e Hseen He.
        assert (((u' ∈ pre ∧ ∃ nbrs, adj g !! u' = Some nbrs ∧ e ∈ nbrs)
                 ∨ (u' = u ∧ e ∈ ipre)) ∨ e = (v, w)) as [Hold| ->].
        { destruct Hseen as [H|[-> H]]; [auto|].
          apply elem_of_app in H as [H|H]; [auto|].
          apply list_elem_of_singleton in H. auto. }
        -- destruct me as [[a b]|]; destruct mw as [w0|]; try done.
           ++ destruct HQi as (_ & _ & _ & Hmin). specialize (Hmin u' e Hold He).
              simpl in Hlt. apply bool_decide_eq_true in Hlt. lra.
           ++ by destruct He; apply (HQi u' e).
        -- simpl. lra.
      * eexists. split; [done|]. unfold Q in *.
        destruct me as [[a b]|]; destruct mw as [w0|]; try done.
        -- destruct HQi as (Ha & Hb & Hab & Hmin). split_and!; try done.
           intros u' e [H|[-> H]] He; [by apply (Hmin u' e); [left|]|].
           apply elem_of_app in H as [H|H]; [by apply (Hmin u e); [right|]|].
           apply list_elem_of_singleton in H as ->. simpl in *.
           rewrite bool_decide_true in Hc by done. simpl in Hc.
           apply bool_decide_eq_false in Hc. lra.
        -- intros u' e [H|[-> H]]; [by apply (HQi u' e); left|].
           apply elem_of_app in H as [H|H]; [by apply (HQi u e); right|].
           apply list_elem_of_singleton in H as ->. simpl.
           rewrite andb_true_r in Hc. apply bool_decide_eq_false in Hc.
           by apply dec_stable.
    + exists st'. split; [done|]. unfold Q in *.
      destruct st' as [[[a b]|] [mw'|]]; try done.
      * destruct HQ' as (Ha & Hb & Hab & Hmin). split_and!; try done.
        intros u' e [Hu' (nbrs' & Hn' & He')]. apply (Hmin u' e).
        apply elem_of_app in Hu' as [Hu'|Hu']; [left; eauto|].
        apply list_elem_of_singleton in Hu' as ->. right. split; [done|]. congruence.
      * intros u' e [Hu' (nbrs' & Hn' & He')]. apply (HQ' u' e).
        apply elem_of_app in Hu' as [Hu'|Hu']; [left; eauto|].
        apply list_elem_of_singleton in Hu' as ->. right. split; [done|]. congruence.
  - exists me, mw. split; [done|]. unfold Q in HQ.
    destruct me as [[u v]|]; destruct mw as [w|]; try done.
    + destruct HQ as (Hu & Hv & Huv & Hmin). exists w. split_and!; try done.
      intros u' v' w' Hu' Hv' (nbrs & Hn & Hin).
      apply (Hmin u' (v', w')); [|done]. split; [by apply elem_of_elements|eauto].
    + intros u v (Hu & Hv & w & nbrs & Hn & Hin).
      apply Hv. apply (HQ u (v, w)). split; [by apply elem_of_elements|eauto].
Qed.

(** The loop of [prim_mst], with the weights of the edges it takes. *)
Lemma prim_loop_greedy g fuel visited mst_edges weights :
  wf_graph g → greedy_trace g visited mst_edges weights →
  num_vertices g - size visited < fuel →
  ∃ visited' mst_edges' weights',
    prim_loop fuel g visited mst_edges = Ok mst_edges' ∧
    greedy_trace g visited' mst_edges' weights' ∧
    (num_vertices g ≤ size visited' ∨ ∀ u v, ¬ crossing g visited' u v).
Proof.
  intros Hwf. revert visited mst_edges weights.
  induction fuel as [|fuel IH]; intros V E W Ht Hfuel; [lia|].
  simpl. case_bool_decide as Hsize.
  - destruct (prim_scan_least g V) as (me & mw & -> & Hme).
    { intros u Hu. apply Hwf.
      destruct (prim_trace_bound g V E u Hwf (greedy_prim_trace g V E W Ht) Hu); lia. }
    simpl. destruct me as [[u v]|].
    + destruct Hme as [w Hw]. apply (IH _ _ (W ++ [w])); [by constructor|].
      destruct Hw as (_ & Hv & _). rewrite size_add_fresh by done. lia.
    + exists V, E, W. auto.
  - exists V, E, W. split; [done|]. split; [done|]. left. lia.
Qed.

(** The visited vertices are those that can be reached from vertex 0. *)
Lemma prim_trace_reachable g V E x :
  prim_trace g V E → x ∈ V → reachable g 0 x.
Proof.
  intros Ht. revert x. induction Ht as [|V E u v Ht IH (Hu & Hv & He)]; intros x.
  - intros ->%elem_of_singleton. apply rtc_refl.
  - intros [->%elem_of_singleton|Hx]%elem_of_union; [|by apply IH].
    eapply rtc_r; [by apply IH|done].
Qed.

Lemma prim_trace_edges g V E u v :
  prim_trace g V E → (u, v) ∈ E → has_edge g u v.
Proof.
  induction 1 as [|V E a b Ht IH (Ha & Hb & He)]; [by intros ?%elem_of_nil|].
  intros [H|[= -> ->]%list_elem_of_singleton]%elem_of_app; auto.
Qed.

Lemma prim_final_closed g V E x :
  wf_graph g → prim_trace g V E →
  (num_vertices g ≤ size V ∨ ∀ u v, ¬ crossing g V u v) →
  reachable g 0 x → x ∈ V.
Proof.
  intros Hwf Ht Hend. revert x.
  apply (rtc_ind_r (λ x, x ∈ V)); [by eapply prim_trace_root|]. intros b c Hr Hbc IH.
  destruct (decide (c ∈ V)) as [|HcV]; [done|].
  destruct Hend as [Hall|Hnone]; [|by destruct (Hnone b c)].
  destruct Hbc as (w & nbrs & Hn & Hin).
  assert (b < num_vertices g) as Hb by (apply (proj1 Hwf); eauto).
  apply (all_vertices (num_vertices g)); [|done|by eapply (proj2 Hwf)].
  intros u Hu. destruct (prim_trace_bound g V E u Hwf Ht Hu); lia.
Qed.

(** What [prim_mst] returns on a graph that satisfies the class invariant. *)
Lemma prim_mst_run g :
  wf_graph g →
  ∃ V mst_edges weights,
    prim_mst g = Ok mst_edges ∧ greedy_trace g V mst_edges weights ∧
    (∀ x, x ∈ V ↔ reachable g 0 x).
Proof.
  intros Hwf.
  destruct (prim_loop_greedy g (S (num_vertices g)) {[0]} [] [] Hwf)
    as (V & E & W & HE & Ht & Hend); [constructor|lia|].
  exists V, E, W. split; [done|]. split; [done|].
  pose proof (greedy_prim_trace g V E W Ht) as Ht'.
  intros x. split; [by eapply prim_trace_reachable|by eapply prim_final_closed].
Qed.

(** X8: on any graph that satisfies the class invariant, connected or not,
    [prim_mst] returns a tree of edges of the graph that spans what can be
    reached from vertex 0: no edge closes a cycle, a vertex is joined to 0
    by the returned edges exactly when it can be reached from 0 in the
    graph, and there is one edge less than there are such vertices. *)
Theorem prim_mst_spans_component (g : Graph) :
  wf_graph g →
  ∃ mst_edges (V : gset nat),
    prim_mst g = Ok mst_edges ∧
    acyclic mst_edges ∧
    (∀ u v, (u, v) ∈ mst_edges → has_edge g u v) ∧
    (∀ x, connected mst_edges 0 x ↔ reachable g 0 x) ∧
    (∀ x, x ∈ V ↔ reachable g 0 x) ∧ size V = S (length mst_edges).
Proof.
  intros Hwf. destruct (prim_mst_run g Hwf) as (V & E & W & HE & Ht & HV).
  apply greedy_prim_trace in Ht. exists E, V. split; [done|].
  split; [by eapply prim_trace_acyclic|].
  split; [intros u v; by eapply prim_trace_edges|].
  split; [|split; [done|by eapply prim_trace_size]].
  intros x. rewrite <- HV. split; [|by eapply prim_trace_connected].
  intros [<-|Hx]%connected_endpoint; [by eapply prim_trace_root|].
  by eapply prim_trace_endpoint.
Qed.

Lemma prim_mst_spans_component_witness :
  ∃ mst_edges (V : gset nat),
    prim_mst (triangle_graph 10 1 1) = Ok mst_edges ∧
    acyclic mst_edges ∧
    (∀ u v, (u, v) ∈ mst_edges → has_edge (triangle_graph 10 1 1) u v) ∧
    (∀ x, connected mst_edges 0 x ↔ reachable (triangle_graph 10 1 1) 0 x) ∧
    (∀ x, x ∈ V ↔ reachable (triangle_graph 10 1 1) 0 x) ∧
    size V = S (length mst_edges).
Proof.
  apply (prim_mst_spans_component (triangle_graph 10 1 1)), triangle_graph_wf.
Defined.

(** X9: every edge [prim_mst] takes is, at the time it is taken, a lightest
    edge from a visited vertex to an unvisited one. *)
Theorem prim_mst_greedy (g : Graph) :
  wf_graph g →
  ∃ V mst_edges weights,
    prim_mst g = Ok mst_edges ∧ greedy_trace g V mst_edges weights.
Proof.
  intros Hwf. destruct (prim_mst_run g Hwf) as (V & E & W & HE & Ht & _). eauto.
Qed.

Lemma prim_mst_greedy_witness :
  ∃ V mst_edges weights,
    prim_mst (triangle_graph 10 1 1) = Ok mst_edges ∧
    greedy_trace (triangle_graph 10 1 1) V mst_edges weights.
Proof.
  apply (prim_mst_greedy (triangle_graph 10 1 1)), triangle_graph_wf.
Defined.

(** ** plan_route on two points or more *)


Section complete_graph.
Context (n : nat) (matrix : list (list R)) (g : Graph).
Context (Hn : 1 ≤ n) (Hsq : square n matrix).
Context (Hg : graph_inv n matrix (λ a b, a < n ∧ b < n) g).




End complete_graph.




Section plan_loops.
Context (net : nat → http_reply) (coords : list Point) (g : Graph).
Context (order : list nat).
Context (Hperm : order ≡ₚ seq 0 (length coords)) (Hnd : NoDup order).
Context (Hdij : ∀ a b, a < length coords → b < length coords → a ≠ b →
                  ∃ path x, dijkstra g a b = Ok (path, Fin x)).




End plan_loops.




(** ** The requests of build_distance_matrix *)








(** ** Without the routing service; haversine values *)




Section haversine_values.
Local Open Scope R_scope.

(** When the term [a] is the square of the sine of an angle of at most a
    right angle, the distance is the radius times twice that angle. *)
Lemma haversine_of_half_angle lat1 lon1 lat2 lon2 x :
  haversine_a lat1 lon1 lat2 lon2 = sin x ^ 2 →
  Rabs x <= PI / 2 →
  haversine_distance lat1 lon1 lat2 lon2 = 6371 * (2 * Rabs x).
Proof.
  intros Ha Hx. unfold haversine_distance. rewrite Ha.
  replace (sin x ^ 2) with (Rsqr (sin x)) by (unfold Rsqr; lra).
  rewrite sqrt_Rsqr_abs.
  assert (Rabs (sin x) = sin (Rabs x)) as ->.
  { unfold Rabs at 2. unfold Rabs in Hx. destruct (Rcase_abs x) as [Hneg|Hpos].
    - rewrite sin_neg. apply Rabs_left1.
      rewrite <- (Ropp_involutive x), sin_neg.
      pose proof (sin_ge_0 (- x)). pose proof PI_RGT_0. lra.
    - apply Rabs_right. apply Rle_ge. apply sin_ge_0; pose proof PI_RGT_0; lra. }
  rewrite asin_sin; [done|]. pose proof (Rabs_pos x). pose proof PI_RGT_0. lra.
Qed.

(** X13: whatever the four numbers, the haversine distance lies between 0
    and half the circumference of the sphere, [6371 * pi] km. *)
Theorem haversine_distance_bounds (lat1 lon1 lat2 lon2 : R) :
  0 <= haversine_distance lat1 lon1 lat2 lon2 <= 6371 * PI.
Proof.
  split; [apply haversine_distance_nonneg|]. unfold haversine_distance.
  pose proof (asin_bound (sqrt (haversine_a lat1 lon1 lat2 lon2))). lra.
Qed.

(** X14: between two points of one meridian the haversine distance is the
    length of the arc: the radius times the difference of latitude in
    radians, about 111.19 km for each degree. *)
Theorem haversine_distance_meridian (lat1 lon1 lat2 lon2 : R) :
  lon1 = lon2 → Rabs (lat2 - lat1) <= 180 →
  haversine_distance lat1 lon1 lat2 lon2 = 6371 * (Rabs (lat2 - lat1) * PI / 180).
Proof.
  intros <- Hlat.
  rewrite (haversine_of_half_angle lat1 lon1 lat2 lon1 (radians (lat2 - lat1) / 2)).
  - unfold radians. pose proof PI_RGT_0.
    replace ((lat2 - lat1) * PI / 180 / 2) with ((lat2 - lat1) * (PI / 360)) by lra.
    rewrite Rabs_mult, (Rabs_right (PI / 360)) by lra. lra.
  - unfold haversine_a. replace (lon1 - lon1) with 0 by lra.
    replace (radians 0 / 2) with 0 by (unfold radians; lra).
    rewrite sin_0. lra.
  - unfold radians. pose proof PI_RGT_0.
    replace ((lat2 - lat1) * PI / 180 / 2) with ((lat2 - lat1) * (PI / 360)) by lra.
    rewrite Rabs_mult, (Rabs_right (PI / 360)) by lra.
    pose proof (Rabs_pos (lat2 - lat1)). nra.
Qed.

Lemma haversine_distance_meridian_witness :
  haversine_distance 48 2 49 2 = 6371 * (Rabs (49 - 48) * PI / 180).
Proof.
  apply (haversine_distance_meridian 48 2 49 2); [reflexivity|].
  unfold Rabs. destruct (Rcase_abs (49 - 48)); lra.
Defined.

(** X15: between two points of the equator at most 180 degrees of longitude
    apart the haversine distance is the length of the arc; two antipodal
    points are [6371 * pi] km apart, the upper bound of X13. *)
Theorem haversine_distance_equator (lon1 lon2 : R) :
  Rabs (lon2 - lon1) <= 180 →
  haversine_distance 0 lon1 0 lon2 = 6371 * (Rabs (lon2 - lon1) * PI / 180).
Proof.
  intros Hlon.
  rewrite (haversine_of_half_angle 0 lon1 0 lon2 (radians (lon2 - lon1) / 2)).
  - unfold radians. pose proof PI_RGT_0.
    replace ((lon2 - lon1) * PI / 180 / 2) with ((lon2 - lon1) * (PI / 360)) by lra.
    rewrite Rabs_mult, (Rabs_right (PI / 360)) by lra. lra.
  - unfold haversine_a. replace (0 - 0) with 0 by lra.
    replace (radians 0 / 2) with 0 by (unfold radians; lra).
    replace (radians 0) with 0 by (unfold radians; lra).
    rewrite sin_0, cos_0. lra.
  - unfold radians. pose proof PI_RGT_0.
    replace ((lon2 - lon1) * PI / 180 / 2) with ((lon2 - lon1) * (PI / 360)) by lra.
    rewrite Rabs_mult, (Rabs_right (PI / 360)) by lra.
    pose proof (Rabs_pos (lon2 - lon1)). nra.
Qed.

Lemma haversine_distance_equator_witness :
  haversine_distance 0 0 0 180 = 6371 * (Rabs (180 - 0) * PI / 180).
Proof.
  apply (haversine_distance_equator 0 180).
  unfold Rabs. destruct (Rcase_abs (180 - 0)); lra.
Defined.

End haversine_values.

(** ** Replies the routing service is used from *)

Lemma swap_positions cs acc :
  for_each (λ acc coord, c ← swap_coord coord; Ok (acc ++ [c])) acc
    (position <$> cs) = Ok (acc ++ (lat_lon <$> cs)).
Proof.
  revert acc. induction cs as [|[[c0 c1] rest] cs IH]; intros acc; simpl.
  - by rewrite app_nil_r.
  - rewrite IH. by rewrite <- app_assoc.
Qed.



Lemma swap_each coords acc swapped :
  for_each (λ acc coord, c ← swap_coord coord; Ok (acc ++ [c])) acc coords = Ok swapped →
  ∃ new, swapped = acc ++ new ∧ Forall2 (λ item out, swap_coord item = Ok out) coords new.
Proof.
  revert acc. induction coords as [|coord coords IH]; intros acc; simpl.
  - intros [= <-]. exists []. split; [by rewrite app_nil_r|constructor].
  - destruct (swap_coord coord) as [c| |] eqn:Hc; [|done..]. simpl. intros H.
    destruct (IH _ H) as (new & -> & Hnew). exists (c :: new).
    split; [by rewrite <- app_assoc|by constructor].
Qed.

Lemma geometry_try_accepts data :
  geometry_data_ok data → ∃ g, geometry_try (Response 200 (Some data)) = Ok (Some g).
Proof.
  intros (fields & gfields & coordinates & items & (dfields & rest & -> & Hc & Hr)
          & Hg & Hcs & Hit & Htwo).
  simpl. rewrite Hc, Hr. simpl. rewrite Hg. simpl. rewrite Hcs. simpl.
  rewrite Hit. simpl.
  assert (∀ acc, ∃ out, for_each (λ acc coord, c ← swap_coord coord; Ok (acc ++ [c]))
                          acc items = Ok out) as Hrun.
  { clear Hit. induction Htwo as [|item items Hitem _ IH]; intros acc; simpl; [eauto|].
    assert (∃ c, swap_coord item = Ok c) as [c ->].
    { unfold swap_coord. destruct item as [| | |s|l|]; try done; simpl in *.
      - destruct s as [|c0 [|c1 s]]; simpl in *; try lia. eauto.
      - destruct l as [|c0 [|c1 l]]; simpl in *; try lia. eauto. }
    simpl. apply IH. }
  destruct (Hrun []) as [out ->]. simpl. eauto.
Qed.

Lemma primary_failure_geometry reply :
  (∀ g, geometry_try reply ≠ Ok (Some g)) → primary_failure geometry_data_ok reply.
Proof.
  intros Hno. destruct reply as [|status_code [data|]];
    [apply failure_exception| |apply failure_body].
  destruct (decide (status_code = 200%Z)) as [->|Hs]; [|by constructor].
  apply failure_data. intros Hok.
  destruct (geometry_try_accepts data Hok) as [g Hg]. by destruct (Hno g).
Qed.

(** X18: [get_route_geometry_osrm] has two behaviours and no other; it
    raises nothing and sends one request. Either the reply is a failure of
    the primary path and the result is the straight line between the two
    points, or the reply has status 200, code Ok and a first route with a
    geometry, and the result holds, for every coordinate of the geometry in
    order, its items 1 and 0. *)
Theorem get_route_geometry_osrm_cases (net : nat → http_reply) (k : nat)
    (lat1 lon1 lat2 lon2 : R) :
  (primary_failure geometry_data_ok (net k) ∧
   get_route_geometry_osrm net k lat1 lon1 lat2 lon2
     = (straight_line lat1 lon1 lat2 lon2, S k)) ∨
  (∃ data fields gfields coordinates items g,
     net k = Response 200 (Some data) ∧
     first_route data (JObj fields) ∧
     dict_get fields "geometry" = Some (JObj gfields) ∧
     dict_get gfields "coordinates" = Some coordinates ∧
     py_iter coordinates = Ok items ∧
     Forall2 (λ item out, swap_coord item = Ok out) items g ∧
     get_route_geometry_osrm net k lat1 lon1 lat2 lon2 = (g, S k)).
Proof.
  unfold get_route_geometry_osrm.
  destruct (geometry_try (net k)) as [[g|]| |] eqn:Ht.
  - right. destruct (geometry_try_returns _ _ Ht)
      as (data & Hnet & fields & gfields & coordinates & items & Hfr & Hg & Hcs & Hit & _).
    exists data, fields, gfields, coordinates, items, g.
    split_and!; try done. rewrite Hnet in Ht.
    destruct Hfr as (dfields & rest & -> & Hc & Hr).
    simpl in Ht. rewrite Hc, Hr in Ht. simpl in Ht. rewrite Hg in Ht. simpl in Ht.
    rewrite Hcs in Ht. simpl in Ht. rewrite Hit in Ht. simpl in Ht.
    destruct (for_each _ [] items) as [out| |] eqn:Hrun; simpl in Ht; [|done..].
    injection Ht as ->.
    by destruct (swap_each _ _ _ Hrun) as (new & -> & Hnew).
  - left. split; [|done]. apply primary_failure_geometry. intros g. by rewrite Ht.
  - left. split; [|done]. apply primary_failure_geometry. intros g. by rewrite Ht.
  - left. split; [|done]. apply primary_failure_geometry. intros g. by rewrite Ht.
Qed.

(** X17: a reply with status 200, code Ok and a geometry is used: the
    function returns the positions of the first route in their order, each
    turned from [[lon, lat, ...]] into [[lat, lon]]; an empty geometry
    gives an empty segment, not the straight line. *)
Theorem get_route_geometry_osrm_service (net : nat → http_reply) (k : nat)
    (lat1 lon1 lat2 lon2 : R) (data : json)
    (fields gfields : list (string * json))
    (cs : list (json * json * list json)) :
  net k = Response 200 (Some data) →
  first_route data (JObj fields) →
  dict_get fields "geometry" = Some (JObj gfields) →
  dict_get gfields "coordinates" = Some (JArr (position <$> cs)) →
  get_route_geometry_osrm net k lat1 lon1 lat2 lon2 = (lat_lon <$> cs, S k).
Proof.
  intros Hnet (dfields & rest & -> & Hc & Hr) Hg Hcs.
  unfold get_route_geometry_osrm. rewrite Hnet. simpl. rewrite Hc, Hr. simpl.
  rewrite Hg. simpl. rewrite Hcs. simpl.
  by rewrite (swap_positions cs []).
Qed.

Lemma get_route_geometry_osrm_service_witness :
  get_route_geometry_osrm
    (λ _, Response 200
       (Some (JObj [("code", JStr "Ok");
                    ("routes", JArr [JObj [("geometry",
                       JObj [("coordinates",
                              JArr (position <$> [(JNum 2, JNum 48, [])]))])]])])))
    0 0 0 0 1 = (lat_lon <$> [(JNum 2, JNum 48, [])], 1).
Proof.
  apply (get_route_geometry_osrm_service _ 0 0 0 0 1
           (JObj [("code", JStr "Ok");
                  ("routes", JArr [JObj [("geometry",
                     JObj [("coordinates",
                            JArr (position <$> [(JNum 2, JNum 48, [])]))])]])])
           [("geometry",
             JObj [("coordinates", JArr (position <$> [(JNum 2, JNum 48, [])]))])]
           [("coordinates", JArr (position <$> [(JNum 2, JNum 48, [])]))]
           [(JNum 2, JNum 48, [])]).
  - reflexivity.
  - eexists _, []. split; [reflexivity|]. split; reflexivity.
  - reflexivity.
  - reflexivity.
Defined.

(** ** The endpoint *)


(** ** The tree of prim_mst is a lightest one *)

Lemma total_app ws1 ws2 : total (ws1 ++ ws2) = (total ws1 + total ws2)%R.
Proof. induction ws1 as [|w ws1 IH]; simpl; [lra|]. fold (total (ws1 ++ ws2)). rewrite IH. fold (total ws1). lra. Qed.

Lemma total_Permutation ws1 ws2 : ws1 ≡ₚ ws2 → total ws1 = total ws2.
Proof.
  induction 1 as [|w l1 l2 _ IH|w1 w2 l|l1 l2 l3 _ IH1 _ IH2]; simpl.
  - done.
  - fold (total l1) (total l2). by rewrite IH.
  - fold (total l). lra.
  - by rewrite IH1.
Qed.

Lemma total_nonneg ws : Forall (λ w, (0 <= w)%R) ws → (0 <= total ws)%R.
Proof. induction 1 as [|w ws Hw _ IH]; simpl; [lra|]. fold (total ws). lra. Qed.

(** A walk that may use the edge [(a0, b0)], seen from the list without
    that edge. *)
Lemma connected_bridge (L L0 : list (nat * nat)) a0 b0 :
  (∀ e, e ∈ L → e = (a0, b0) ∨ e ∈ L0) →
  ∀ p q, connected L p q →
    connected L0 p q ∨
    (connected L0 p a0 ∧ connected L0 b0 q) ∨
    (connected L0 p b0 ∧ connected L0 a0 q).
Proof.
  intros HL p q Hpq. induction Hpq as [p|p p1 q Hstep _ IH].
  { left. apply rtc_refl. }
  assert (adjacent L0 p p1 ∨ (p = a0 ∧ p1 = b0) ∨ (p = b0 ∧ p1 = a0)) as Hcase.
  { destruct Hstep as [H|H]; apply HL in H as [[= -> ->]|H]; auto;
      left; [by left|by right]. }
  destruct Hcase as [Hadj|[[-> ->]|[-> ->]]].
  - destruct IH as [H|[[H1 H2]|[H1 H2]]].
    + left. by eapply rtc_l.
    + right; left. split; [by eapply rtc_l|done].
    + right; right. split; [by eapply rtc_l|done].
  - destruct IH as [H|[[H1 H2]|[H1 H2]]].
    + right; left. split; [apply rtc_refl|done].
    + right; left. split; [apply rtc_refl|done].
    + by left.
  - destruct IH as [H|[[H1 H2]|[H1 H2]]].
    + right; right. split; [apply rtc_refl|done].
    + by left.
    + right; right. split; [apply rtc_refl|done].
Qed.

Section exchange.
Context (V : gset nat) (E : list (nat * nat)).
Context (HE : ∀ a b, (a, b) ∈ E → a ∈ V ∧ b ∈ V).

(** A walk from a visited vertex to an unvisited one crosses over an edge
    that can be taken out with both parts of the walk kept. *)
Lemma crossing_exchange n :
  ∀ (rest : list (nat * nat * R)), length rest ≤ n →
  ∀ x y, connected (E ++ rest.*1) x y → x ∈ V → y ∉ V →
  ∃ e rest' a b,
    rest ≡ₚ e :: rest' ∧ (e.1 = (a, b) ∨ e.1 = (b, a)) ∧ a ∈ V ∧ (b ∉ V) ∧
    connected (E ++ rest'.*1) x a ∧ connected (E ++ rest'.*1) b y.
Proof.
  induction n as [|n IHn]; intros rest HR x y Hxy.
  - destruct rest; [|simpl in HR; lia]. simpl in Hxy. rewrite app_nil_r in Hxy.
    intros Hx Hy. destruct Hy. apply (connected_closed E V x y); [|done..].
    intros a b Ha [H|H]; apply HE in H; tauto.
  - induction Hxy as [x|x x1 y Hstep Hrest IH]; intros Hx Hy; [done|].
    destruct (decide (x1 ∈ V)) as [Hx1|Hx1].
    + destruct (IH Hx1 Hy) as (e & rest' & a & b & Hperm & He & Ha & Hb & Hxa & Hby).
      exists e, rest', a, b. split_and!; try done.
      eapply rtc_l; [|exact Hxa].
      assert (∀ c d, (c, d) ∈ E ++ rest.*1 → c ∈ V → d ∈ V → (c, d) ∈ E ++ rest'.*1) as Hkeep.
      { intros c d [H|H]%elem_of_app Hc Hd; apply elem_of_app; [by left|right].
        apply list_elem_of_fmap in H as (e1 & He1 & Hin). rewrite Hperm in Hin.
        apply elem_of_cons in Hin as [->|Hin].
        - rewrite <- He1 in He. destruct He as [[= -> ->]|[= -> ->]]; done.
        - apply list_elem_of_fmap. eauto. }
      destruct Hstep as [H|H]; [left|right]; by apply Hkeep.
    + assert (∃ e0, e0 ∈ rest ∧ (e0.1 = (x, x1) ∨ e0.1 = (x1, x))) as (e0 & Hin & He0).
      { destruct Hstep as [H|H]; apply elem_of_app in H as [H|H].
        - apply HE in H. tauto.
        - apply list_elem_of_fmap in H as (e0 & He0 & Hin). eauto.
        - apply HE in H. tauto.
        - apply list_elem_of_fmap in H as (e0 & He0 & Hin). eauto. }
      apply elem_of_Permutation in Hin as [rest0 Hperm].
      assert (length rest0 ≤ n) as HR0.
      { apply Permutation_length in Hperm. simpl in Hperm. lia. }
      assert (connected (E ++ rest0.*1) x1 y ∨ connected (E ++ rest0.*1) x y) as [Hdone|Hagain].
      { assert (∀ e, e ∈ E ++ rest.*1 → e = (e0.1.1, e0.1.2) ∨ e ∈ E ++ rest0.*1) as Hsub.
        { intros e [H|H]%elem_of_app; [right; apply elem_of_app; by left|].
          apply list_elem_of_fmap in H as (e1 & -> & H). rewrite Hperm in H.
          apply elem_of_cons in H as [->|H]; [left; by destruct e0 as [[? ?] ?]|].
          right. apply elem_of_app. right. apply list_elem_of_fmap. eauto. }
        destruct (connected_bridge _ _ _ _ Hsub x1 y Hrest) as [H|[[H1 H2]|[H1 H2]]];
          [by left|..];
          destruct He0 as [He0|He0]; rewrite He0 in *; simpl in *; auto. }
      * exists e0, rest0, x, x1. split_and!; try done; try apply rtc_refl.
      * destruct (IHn rest0 HR0 x y Hagain Hx Hy)
          as (e & rest' & a & b & Hperm' & He & Ha & Hb & Hxa & Hby).
        exists e, (e0 :: rest'), a, b. split_and!; try done.
        -- rewrite Hperm, Hperm'. apply perm_swap.
        -- eapply connected_mono; [|exact Hxa]. set_solver.
        -- eapply connected_mono; [|exact Hby]. set_solver.
Qed.

End exchange.

Lemma greedy_weights g V E W :
  greedy_trace g V E W → Forall2 (λ e w, edge_in g e.1 e.2 w) E W.
Proof.
  induction 1 as [|V E W u v w _ IH (_ & _ & He & _)]; [constructor|].
  apply Forall2_app; [done|]. by repeat constructor.
Qed.

(** Any edge set that joins the visited vertices can be turned, edge by
    edge, into one that holds the edges taken so far, with the same number
    of edges and no more weight. *)
Lemma greedy_exchange g V E W :
  undirected g → greedy_trace g V E W →
  ∀ T, edges_of g T → (∀ x, x ∈ V → connected (T.*1) 0 x) →
  ∃ rest, rest ⊆ T ∧ length E + length rest = length T ∧
       (total W + total (rest.*2) <= total (T.*2))%R ∧
       ∀ x y, connected (T.*1) x y → connected (E ++ rest.*1) x y.
Proof.
  intros Hsym Ht. induction Ht as [|V E W u v w Ht IH (Hu & Hv & Huv & Hmin)];
    intros T HT Hspan.
  { exists T. split; [done|]. split; [done|]. split; [simpl; lra|done]. }
  destruct (IH T HT) as (rest & HRT & Hlen & Hsum & Hconn); [set_solver|].
  assert (∀ a b, (a, b) ∈ E → a ∈ V ∧ b ∈ V) as HE.
  { intros a b Hab. pose proof (greedy_prim_trace g V E W Ht) as Ht'.
    split; eapply prim_trace_endpoint; try done; [exists b; by left|exists a; by right]. }
  assert (connected (E ++ rest.*1) u v) as Huv'.
  { apply Hconn. etrans; [apply connected_sym, Hspan|apply Hspan]; set_solver. }
  destruct (crossing_exchange V E HE (length rest) rest (le_n _) u v Huv' Hu Hv)
    as (e & rest' & a & b & Hperm & He & Ha & Hb & Hua & Hbv).
  exists rest'. split; [|split; [|split]].
  - intros x Hx. apply HRT. rewrite Hperm. set_solver.
  - apply Permutation_length in Hperm. simpl in Hperm.
    rewrite length_app. simpl. lia.
  - assert (total (rest.*2) = (e.2 + total (rest'.*2))%R) as HR.
    { rewrite (total_Permutation (rest.*2) ((e :: rest').*2)); [done|by rewrite Hperm]. }
    assert (w <= e.2)%R as Hle.
    { apply (Hmin a b); [done..|].
      assert (e ∈ T) as HeT by (apply HRT; rewrite Hperm; set_solver).
      destruct e as [[c d] wt]. simpl in *.
      destruct He as [[= -> ->]|[= -> ->]]; [by apply HT|by apply Hsym, HT]. }
    rewrite total_app. simpl. lra.
  - intros x y Hxy. apply Hconn in Hxy.
    assert (connected ((E ++ [(u, v)]) ++ rest'.*1) a b) as Hab.
    { etrans; [eapply connected_mono; [|apply connected_sym, Hua]; set_solver|].
      apply (rtc_l _ u v); [left; set_solver|].
      eapply connected_mono; [|apply connected_sym, Hbv]. set_solver. }
    induction Hxy as [x|x x1 y Hstep _ IHxy]; [apply rtc_refl|].
    etrans; [|exact IHxy].
    assert (adjacent ((E ++ [(u, v)]) ++ rest'.*1) x x1 ∨
            (x = a ∧ x1 = b) ∨ (x = b ∧ x1 = a)) as [H|[[-> ->]|[-> ->]]].
    { assert (∀ c d, (c, d) ∈ E ++ rest.*1 →
                (c, d) ∈ (E ++ [(u, v)]) ++ rest'.*1 ∨ (c, d) = e.1) as Hkeep.
      { intros c d [H|H]%elem_of_app; [left; set_solver|].
        apply list_elem_of_fmap in H as (e1 & -> & H). rewrite Hperm in H.
        apply elem_of_cons in H as [->|H]; [by right|].
        left. apply elem_of_app. right. apply list_elem_of_fmap. eauto. }
      destruct Hstep as [H|H]; apply Hkeep in H as [H|H].
      - left. by left.
      - rewrite <- H in He. destruct He as [[= -> ->]|[= -> ->]]; auto.
      - left. by right.
      - rewrite <- H in He. destruct He as [[= -> ->]|[= -> ->]]; auto. }
    + by apply rtc_once.
    + done.
    + by apply connected_sym.
Qed.

(** The weights of [prim_mst]'s tree against any set of edges that joins
    what can be reached from vertex 0. *)
Lemma prim_mst_lightest g :
  wf_graph g → undirected g →
  ∃ mst_edges weights,
    prim_mst g = Ok mst_edges ∧
    Forall2 (λ e w, edge_in g e.1 e.2 w) mst_edges weights ∧
    ∀ T, edges_of g T → spans g T →
         length T = length mst_edges ∨ nonneg_weights g →
         (total weights <= total (T.*2))%R.
Proof.
  intros Hwf Hsym. destruct (prim_mst_run g Hwf) as (V & E & W & HE & Ht & HV).
  exists E, W. split; [done|]. split; [by eapply greedy_weights|].
  intros T HT Hspan Hsize.
  destruct (greedy_exchange g V E W Hsym Ht T HT) as (rest & HRT & Hlen & Hsum & _).
  { intros x Hx. apply Hspan. by apply HV. }
  assert (0 <= total (rest.*2))%R as HR; [|lra].
  destruct Hsize as [Hsize|Hpos].
  - destruct rest; [simpl; lra|simpl in Hlen; lia].
  - apply total_nonneg. apply Forall_forall. intros w Hw.
    apply list_elem_of_fmap in Hw as ([[a b] w'] & -> & Hin).
    apply (Hpos a b). apply HT. by apply HRT.
Qed.

(** X20: [prim_mst] returns a minimum spanning tree. On a graph made
    through the class interface (invariant kept, every edge in both
    directions), take any list of weighted edges of the graph that joins to
    vertex 0 all that can be reached from it; if it has as many edges as the
    returned tree (it is a spanning tree), or if no weight is negative, its
    total weight is at least that of the returned tree. (That the returned
    edges are such a tree is X8.) *)
Theorem prim_mst_minimum (g : Graph) :
  wf_graph g → undirected g →
  ∃ mst_edges weights,
    prim_mst g = Ok mst_edges ∧
    Forall2 (λ e w, edge_in g e.1 e.2 w) mst_edges weights ∧
    ∀ T, edges_of g T → spans g T →
         length T = length mst_edges ∨ nonneg_weights g →
         (total weights <= total (T.*2))%R.
Proof. apply prim_mst_lightest. Qed.

Lemma prim_mst_minimum_witness :
  ∃ mst_edges weights,
    prim_mst (triangle_graph 10 1 1) = Ok mst_edges ∧
    Forall2 (λ e w, edge_in (triangle_graph 10 1 1) e.1 e.2 w) mst_edges weights ∧
    ∀ T, edges_of (triangle_graph 10 1 1) T → spans (triangle_graph 10 1 1) T →
         length T = length mst_edges ∨ nonneg_weights (triangle_graph 10 1 1) →
         (total weights <= total (T.*2))%R.
Proof.
  apply (prim_mst_minimum (triangle_graph 10 1 1)).
  - apply triangle_graph_wf.
  - apply constructed_inv, (build_graph_constructed 3 detour_matrix),
      (build_triangle 0 10 1 1).
Defined.

(** ** dijkstra in both directions *)





(** ** The total distance of plan_route *)




Section legs.
Context (n : nat) (matrix : list (list R)) (g : Graph).
Context (Hsq : square n matrix).
Context (Hg : graph_inv n matrix (λ a b, a < n ∧ b < n) g).
Context (Hpos : ∀ i j x, entry matrix i j = Some x → (0 <= x)%R).



End legs.

Section cost.
Context (coords : list Point) (matrix : list (list R)) (g : Graph).
Context (order : list nat).
Context (Hperm : order ≡ₚ seq 0 (length coords)) (Hnd : NoDup order).
Context (Hleg : ∀ a b, a < length coords → b < length coords → a ≠ b →
                  ∃ path x direct,
                    dijkstra g a b = Ok (path, Fin x) ∧
                    entry matrix a b = Some direct ∧ (0 <= x <= direct)%R).


End cost.


